(** * The nolol-to-yolol conversion pipeline of yodk

    A shallow embedding of [pkg/nolol/converter.go] (the line packer, its
    length estimator, the orchestrating [Convert], the loop stack of the
    lowering visitor) and of the visitor engine of the [nolol] tree
    ([ExtProgramm.Accept], [ExecutableLine.Accept], [patchExtLines]), with
    the properties the specification states about them, and a machine
    that runs the packed lines; then the
    wrappers of the packer, [ConvertFileEx] and the computing part of the
    command-line debugger ([cmd/debug.go]), with properties read off the
    code.

    Conventions.  A Go [int] is a [Z].  A Go function that may panic
    returns an [Outcome]; a Go [error] result is an [option] of the error
    value ([None] is [nil]).  Code that mutates the converter or the
    visitor's closure is written in state-passing style. *)

From Stdlib Require Import ZArith List String Ascii Bool Lia DecimalString.
From stdpp Require Import base option list strings gmap.

Set Warnings "-register-all".

Local Open Scope string_scope.
Local Open Scope Z_scope.
Local Open Scope list_scope.

(** ** Panics *)

(** The result of a Go call that may panic: [Ret a] is a normal return,
    [Panic msg] an unrecovered runtime panic. *)
Inductive Outcome (A : Type) : Type :=
| Ret (a : A)
| Panic (msg : string).
Arguments Ret {A} a.
Arguments Panic {A} msg.

#[global] Instance Outcome_ret : MRet Outcome := fun A a => Ret a.
#[global] Instance Outcome_bind : MBind Outcome := fun A B k m =>
  match m with
  | Ret a => k a
  | Panic msg => Panic msg
  end.

Definition isPanic {A} (o : Outcome A) : bool :=
  match o with Ret _ => false | Panic _ => true end.

(** ** Strings *)

Definition newline : string := String "010"%char EmptyString.
Definition dquote : string := String "034"%char EmptyString.

(** [strconv.Itoa] *)
Definition Itoa (n : Z) : string := NilZero.string_of_int (Z.to_int n).

(** [len(s)] of a Go string: its number of bytes. *)
Definition len (s : string) : Z := Z.of_nat (String.length s).

(** [strings.HasSuffix(s, "\n")] *)
Fixpoint HasSuffixNewline (s : string) : bool :=
  match s with
  | EmptyString => false
  | String a EmptyString => Ascii.eqb a "010"%char
  | String _ rest => HasSuffixNewline rest
  end.

Fixpoint joinWith (sep : string) (l : list string) : string :=
  match l with
  | [] => EmptyString
  | [s] => s
  | s :: rest => s +:+ sep +:+ joinWith sep rest
  end.

(** ** The yolol tree ([pkg/parser/ast]) with nolol's additions ([nast]) *)

Module ast.

(** [ast.Position]; its field [Line] is [PosLine] here, [Line] being the
    line record below. *)
Record Position := mkPosition { PosLine : Z; Coloumn : Z }.

(** Expressions.  [FuncCall] is [nast.FuncCall]: Go's open [Expression]
    interface is closed here over the node kinds that can stand in a
    statement-line. *)
Inductive Expression :=
| StringConstant (Value : string)
| NumberConstant (Value : string)
| Dereference (Var : string)
| UnaryOperation (Operator : string) (Exp : Expression)
| BinaryOperation (Operator : string) (Exp1 Exp2 : Expression)
| FuncCall (Function : string) (Arguments : list Expression).

(** Statements.  [GoToLabelStatement] is [nast.GoToLabelStatement]. *)
Inductive Statement :=
| Assignment (Var Operator : string) (Value : Expression)
| IfStatement (Condition : Expression) (IfBlock ElseBlock : list Statement)
| GoToStatement (Line : Expression)
| GoToLabelStatement (Label : string).

(** [ast.Line] *)
Record Line := mkLine {
  LinePosition : Position;
  LineStatements : list Statement;
}.

(** [ast.Program] *)
Record Program := mkProgram { Lines : list Line }.

(** [ast.Node], as far as the printer is handed nodes. *)
Inductive Node :=
| NExpression (e : Expression)
| NStatement (s : Statement)
| NLine (l : Line).

End ast.

Module parser.

(** [parser.Error] *)
Record Error := mkError {
  Message : string;
  StartPosition : ast.Position;
  EndPosition : ast.Position;
}.

Inductive PrinterMode :=
| PrintermodeReadable
| PrintermodeCompact
| PrintermodeSpaceless.

(** [Printer.PrinterExtensionFunc]: [Some text] when the hook wrote
    [text] and returned [true] (the node is dealt with), [None] when it
    returned [false]. *)
Definition ExtensionFunc := ast.Node -> option string.

Definition noExtension : ExtensionFunc := fun _ => None.

Section Printer.
Variable Mode : PrinterMode.
Variable PrinterExtensionFunc : ExtensionFunc.

(** Modelled from the spec: the base-language pretty-printer
    ([parser.Printer]) is an external collaborator, defined in package
    [parser] and not embedded here.  Section 4.5 says it renders a line to text in a
    minimal-whitespace and a human-readable-compact mode; the model
    writes every node as the concatenation of its keyword or operator
    and of its children's text, offers every node to the extension hook
    first, and fails on a node kind it does not know (the nolol
    additions) when the hook declines it.  The space after [goto] is
    there except in the minimal-whitespace mode, which is the difference
    between the two placeholders of [getLengthOfLine]. *)
Definition Space : string :=
  match Mode with
  | PrintermodeSpaceless => EmptyString
  | _ => " "
  end.

(** Modelled from the spec: the pretty-printer on expressions (see
    [Space]). *)
Fixpoint printExpression (e : ast.Expression) : option string :=
  match PrinterExtensionFunc (ast.NExpression e) with
  | Some text => Some text
  | None =>
      match e with
      | ast.StringConstant v => Some (dquote +:+ v +:+ dquote)
      | ast.NumberConstant v => Some v
      | ast.Dereference v => Some v
      | ast.UnaryOperation op e1 =>
          t1 ← printExpression e1; Some (op +:+ t1)
      | ast.BinaryOperation op e1 e2 =>
          t1 ← printExpression e1;
          t2 ← printExpression e2;
          Some (t1 +:+ op +:+ t2)
      | ast.FuncCall _ _ => None
      end
  end.

(** Modelled from the spec: the pretty-printer on statements; the
    statements of a block are separated by one space. *)
Fixpoint printStatement (s : ast.Statement) : option string :=
  match PrinterExtensionFunc (ast.NStatement s) with
  | Some text => Some text
  | None =>
      match s with
      | ast.Assignment v op val =>
          t ← printExpression val; Some (v +:+ op +:+ t)
      | ast.IfStatement c ib eb =>
          tc ← printExpression c;
          tib ← (fix block (l : list ast.Statement) : option (list string) :=
                   match l with
                   | [] => Some []
                   | s1 :: l' =>
                       t ← printStatement s1; ts ← block l'; Some (t :: ts)
                   end) ib;
          teb ← (fix block (l : list ast.Statement) : option (list string) :=
                   match l with
                   | [] => Some []
                   | s1 :: l' =>
                       t ← printStatement s1; ts ← block l'; Some (t :: ts)
                   end) eb;
          Some ("if " +:+ tc +:+ " then " +:+ joinWith " " tib +:+
                match eb with
                | [] => EmptyString
                | _ => " else " +:+ joinWith " " teb
                end +:+ " end")
      | ast.GoToStatement l =>
          t ← printExpression l; Some ("goto" +:+ Space +:+ t)
      | ast.GoToLabelStatement _ => None
      end
  end.

(** Modelled from the spec: the pretty-printer on the statements of a
    block, each printed. *)
Fixpoint printStatements (l : list ast.Statement) : option (list string) :=
  match l with
  | [] => Some []
  | s :: l' => t ← printStatement s; ts ← printStatements l'; Some (t :: ts)
  end.

(** Modelled from the spec: [Printer.Print] on a line: its statements,
    space-separated, and the end of the line. *)
Definition Print (line : ast.Line) : option string :=
  match PrinterExtensionFunc (ast.NLine line) with
  | Some text => Some text
  | None =>
      ts ← printStatements (ast.LineStatements line);
      Some (joinWith " " ts +:+ newline)
  end.

End Printer.

End parser.

(** ** The nolol tree ([pkg/nolol/nast]) *)

Module nast.

(** [nast.StatementLine]: an [ast.Line] with a label and the two merge
    markers. *)
Record StatementLine := mkStatementLine {
  Line : ast.Line;
  Label : string;
  Position : ast.Position;
  HasBOL : bool;
  HasEOL : bool;
}.

Definition Statements (l : StatementLine) : list ast.Statement :=
  ast.LineStatements (Line l).

(** [current.Statements = stmts] *)
Definition setStatements (l : StatementLine) (stmts : list ast.Statement)
  : StatementLine :=
  {| Line := {| ast.LinePosition := ast.LinePosition (Line l);
                ast.LineStatements := stmts |};
     Label := Label l; Position := Position l;
     HasBOL := HasBOL l; HasEOL := HasEOL l |}.

End nast.

(** ** The converter ([pkg/nolol/converter.go]) *)

Module nolol.

Import ast parser nast.

(** [Converter].  The three optimizers and the macro table are state of
    collaborators that no function below reads; they are left out. *)
Record Converter := mkConverter {
  files : gmap string string;
  jumpLabels : gmap string Z;
  definitions : gmap string Expression;
  usesTimeTracking : bool;
  iflabelcounter : Z;
  waitlabelcounter : Z;
  loopcounter : Z;
  loopLevel : list Z;
  includecount : Z;
  macroLevel : list string;
  macroInsertionCount : Z;
  debug : bool;
  UseSpaces : bool;
}.

Definition NewConverter : Converter :=
  {| files := ∅; jumpLabels := ∅; definitions := ∅;
     usesTimeTracking := false; iflabelcounter := 0; waitlabelcounter := 0;
     loopcounter := 0; loopLevel := []; includecount := 0; macroLevel := [];
     macroInsertionCount := 0; debug := false; UseSpaces := false |}.

Definition maxLineLength (c : Converter) : Z :=
  if negb (usesTimeTracking c) then 70 else 70 - 4.

(** The hook [getLengthOfLine] installs in the printer. *)
Definition lengthExtension (c : Converter) : ExtensionFunc :=
  fun node =>
    match node with
    | NStatement (GoToLabelStatement _) =>
        Some (if UseSpaces c then "goto XX" else "gotoXX")
    | NExpression (FuncCall fn _) =>
        if String.eqb fn "line" then Some "00" else None
    | _ => None
    end.

Definition printerMode (c : Converter) : PrinterMode :=
  if UseSpaces c then PrintermodeCompact else PrintermodeSpaceless.

(** [getLengthOfLine]: the number of characters the line takes as yolol
    code; panics when the printer fails. *)
Definition getLengthOfLine (c : Converter) (line : ast.Line) : Outcome Z :=
  match Print (printerMode c) (lengthExtension c) line with
  | None => Panic "unknown ast-node type"
  | Some generated =>
      let linelen := len generated in
      Ret (if HasSuffixNewline generated then linelen - 1 else linelen)
  end.

Definition lineTooLong : string :=
  "The line is too long (>70 characters) to be converted to yolol, even after optimization.".

Section Merge.

(** [Start()] and [End()] of a statement-line: methods of the tree,
    defined in package [nast]. *)
Variable StartOf EndOf : StatementLine -> ast.Position.

Variable c : Converter.

Definition MergeResult : Type := list StatementLine * option Error.

Section Absorb.
Variable maxlen : Z.
(** What the outer loop of [mergeStatementElements] does once the
    inner loop is left: [next newElements rest] continues at the
    line after the ones absorbed. *)
Variable next : list StatementLine -> list StatementLine -> Outcome MergeResult.
(** The lines closed so far.  In the source [current] is appended to
    [newElements] before the inner loop and updated through the
    pointer; here it is appended when the inner loop is left. *)
Variable newElements : list StatementLine.

(** The inner loop [for i+1 < len(lines)] of [mergeStatementElements];
    [rest] is [lines[i+1:]]. *)
Fixpoint absorb (current : StatementLine) (rest : list StatementLine)
  {struct rest} : Outcome MergeResult :=
  match rest with
  | [] => next (newElements ++ [current]) rest
  | nextline :: rest' =>
      currlen ← getLengthOfLine c (Line current);
      if maxlen <? currlen then
        Ret (newElements ++ [current],
             Some {| Message := lineTooLong;
                     StartPosition := StartOf current;
                     EndPosition := EndOf current |})
      else if String.eqb (Label nextline) "" && negb (HasBOL nextline) then
        let prev := Statements current in
        let current' :=
          setStatements current ([] ++ prev ++ Statements nextline) in
        newlen ← getLengthOfLine c (Line current');
        if maxlen <? newlen then
          (* the newly created line is longer then allowed. roll back. *)
          next (newElements ++ [setStatements current' prev]) rest
        else if HasEOL nextline then
          next (newElements ++ [current']) rest'
        else absorb current' rest'
      else next (newElements ++ [current]) rest
  end.
End Absorb.

(** The line [mergeStatementElements] opens for [lines[i]]. *)
Definition openLine (l : StatementLine) : StatementLine :=
  {| Line := {| LinePosition := mkPosition 0 0;
                LineStatements := [] ++ Statements l |};
     Label := Label l;
     Position := Position l;
     HasBOL := false;
     HasEOL := HasEOL l |}.

(** The outer loop [for i < len(lines)]; [lines] is [lines[i:]]. *)
Fixpoint mergeLoop (maxlen : Z) (newElements : list StatementLine)
  (lines : list StatementLine) {struct lines} : Outcome MergeResult :=
  match lines with
  | [] => Ret (newElements, None)
  | l :: rest =>
      let current := openLine l in
      if HasEOL current then
        (* no lines may MUST be appended to a line having EOL *)
        mergeLoop maxlen (newElements ++ [current]) rest
      else
        absorb maxlen (fun ne r => mergeLoop maxlen ne r) newElements current rest
  end.

(** [mergeStatementElements] merges consecutive statement-lines into as
    few lines as possible. *)
Definition mergeStatementElements (lines : list StatementLine)
  : Outcome MergeResult :=
  mergeLoop (maxLineLength c) [] lines.

End Merge.

(** *** What the packer keeps: statements and label anchors *)

(** What a program is to the machine that runs it, line boundaries aside:
    its statements in order, each label standing before the statement a
    jump to it lands on. *)
Inductive Item :=
| LabelMark (label : string)
| Stmt (s : ast.Statement).

Definition lineItems (l : StatementLine) : list Item :=
  (if String.eqb (Label l) "" then [] else [LabelMark (Label l)])
    ++ map Stmt (Statements l).

Definition flattenLabelled (lines : list StatementLine) : list Item :=
  concat (map lineItems lines).

(** The flattened statement sequence of a list of lines. *)
Definition flatten (lines : list StatementLine) : list ast.Statement :=
  concat (map Statements lines).

(** *** What the packer produces: groups of consecutive lines *)

(** The condition under which the inner loop may absorb [nextline]. *)
Definition absorbable (nextline : StatementLine) : bool :=
  String.eqb (Label nextline) "" && negb (HasBOL nextline).

(** The physical line made of [l] and the lines [tl] absorbed into it. *)
Definition joinGroup (l : StatementLine) (tl : list StatementLine)
  : StatementLine :=
  setStatements (openLine l) (Statements l ++ flatten tl).

Section Budget.
Variable c : Converter.
Variable maxlen : Z.

Definition fitsb (cur : StatementLine) : bool :=
  match getLengthOfLine c (Line cur) with
  | Ret n => n <=? maxlen
  | Panic _ => false
  end.

Definition tooLongb (cur : StatementLine) : bool :=
  match getLengthOfLine c (Line cur) with
  | Ret n => maxlen <? n
  | Panic _ => false
  end.

(** The lines [l :: tl] may stand as one physical line in front of
    [rest]: the rules of the inner loop, read off a finished group. *)
Record GroupOK (l : StatementLine) (tl rest : list StatementLine) : Prop := {
  eol_alone : HasEOL l = true -> tl = [];
  members_absorbable : Forall (fun x => absorbable x = true) tl;
  eol_member_last :
    forall pre x post, tl = pre ++ x :: post -> HasEOL x = true -> post = [];
  merged_fits : tl <> [] -> fitsb (joinGroup l tl) = true;
  checked_fits :
    HasEOL l = false -> rest <> [] -> fitsb (joinGroup l tl) = true;
  greedy :
    forall h rest', rest = h :: rest' ->
      HasEOL l = false -> Forall (fun x => HasEOL x = false) tl ->
      absorbable h = true ->
      tooLongb (joinGroup l (tl ++ [h])) = true;
}.

(** [Packed lines out]: [out] is [lines] cut into groups, each group
    joined into one line. *)
Inductive Packed : list StatementLine -> list StatementLine -> Prop :=
| Packed_nil : Packed [] []
| Packed_group l tl rest lines out :
    lines = l :: tl ++ rest ->
    GroupOK l tl rest ->
    Packed rest out ->
    Packed lines (joinGroup l tl :: out).

(** What the continuation of the inner loop is to do with the lines it is
    handed, no more than [bound] of them: pack them behind the lines
    closed so far. *)
Definition nextPacks
  (next : list StatementLine -> list StatementLine -> Outcome MergeResult)
  (bound : nat) : Prop :=
  forall ne r out, (length r <= bound)%nat ->
    next ne r = Ret (out, None) ->
    exists o, out = ne ++ o /\ Packed r o.

End Budget.

(** *** The orchestrator *)

(** An element of a nolol program: a statement-line, or any other
    element (with its Go type name, as [%T] prints it). *)
Inductive Element :=
| ElStatementLine (l : StatementLine)
| ElOther (typeName : string).

(** [nast.Program] *)
Record Program := mkProgram { Elements : list Element }.

(** The type assertion of an element to a statement-line, with its [ok]
    result. *)
Definition asStatementLine (e : Element) : option StatementLine :=
  match e with
  | ElStatementLine l => Some l
  | ElOther _ => None
  end.

Definition unconvertedElement (e : Element) : Error :=
  {| Message := "Err: Found unconverted nolol-element: " +:+
                  match e with
                  | ElStatementLine _ => "*nast.StatementLine"
                  | ElOther t => t
                  end;
     StartPosition := mkPosition 0 0;
     EndPosition := mkPosition 0 0 |}.

(** The first loop of [mergeNololElements]: every element must be a
    statement-line. *)
Fixpoint statementLinesOf (lines : list Element)
  : list StatementLine * option Error :=
  match lines with
  | [] => ([], None)
  | elem :: rest =>
      match asStatementLine elem with
      | None => ([], Some (unconvertedElement elem))
      | Some line =>
          match statementLinesOf rest with
          | (inp, None) => (line :: inp, None)
          | (_, Some err) => ([], Some err)
          end
      end
  end.

Section Convert.

Variable StartOf EndOf : StatementLine -> ast.Position.

(** [mergeNololElements] is a type-wrapper for [mergeStatementElements];
    a nil slice is the empty list. *)
Definition mergeNololElements (c : Converter) (lines : list Element)
  : Outcome (list Element * option Error) :=
  match statementLinesOf lines with
  | (_, Some err) => Ret ([], Some err)
  | (inp, None) =>
      r ← mergeStatementElements StartOf EndOf c inp;
      match r with
      | (_, Some err) => Ret ([], Some err)
      | (interm, None) => Ret (map ElStatementLine interm, None)
      end
  end.

(** A pass over the program: it may update the converter and the
    program, and may return an error. *)
Definition Pass : Type := Converter -> Program -> Converter * Program * option Error.

(** The passes [Convert] calls that are defined in other files of the
    package, and the static-expression optimizer. *)
Record Passes := mkPasses {
  usesTimeTrackingOf : Program -> bool;
  convertNodes : Pass;
  addFinalGoto : Pass;
  resolveGotoChains : Pass;
  removeUnusedLabels : Pass;
  removeDuplicateGotos : Pass;
  findJumpLabels : Pass;
  replaceGotoLabels : Pass;
  convertLineFuncCalls : Pass;
  sexpOptimize : Pass;
  insertLineCounter : Converter -> Program -> Converter * Program;
  removeFinalGotoIfNeeded : Converter -> ast.Program -> ast.Program;
}.

Variable passes : Passes.

Definition ConvertResult : Type := option ast.Program * option Error.

(** [err := pass(prog); if err != nil { return nil, err }] *)
Definition orReturn (r : Converter * Program * option Error)
  (k : Converter -> Program -> Outcome ConvertResult) : Outcome ConvertResult :=
  match r with
  | (_, _, Some err) => Ret (None, Some err)
  | (c, prog, None) => k c prog
  end.

Definition withFiles (c : Converter) (fs : gmap string string) : Converter :=
  {| files := fs; jumpLabels := jumpLabels c; definitions := definitions c;
     usesTimeTracking := usesTimeTracking c;
     iflabelcounter := iflabelcounter c; waitlabelcounter := waitlabelcounter c;
     loopcounter := loopcounter c; loopLevel := loopLevel c;
     includecount := includecount c; macroLevel := macroLevel c;
     macroInsertionCount := macroInsertionCount c; debug := debug c;
     UseSpaces := UseSpaces c |}.

Definition withUsesTimeTracking (c : Converter) (b : bool) : Converter :=
  {| files := files c; jumpLabels := jumpLabels c; definitions := definitions c;
     usesTimeTracking := b;
     iflabelcounter := iflabelcounter c; waitlabelcounter := waitlabelcounter c;
     loopcounter := loopcounter c; loopLevel := loopLevel c;
     includecount := includecount c; macroLevel := macroLevel c;
     macroInsertionCount := macroInsertionCount c; debug := debug c;
     UseSpaces := UseSpaces c |}.

(** The lines of the output program: the type assertion of [element] to
    a statement-line panics on any other element. *)
Fixpoint outLines (elements : list Element) : Outcome (list ast.Line) :=
  match elements with
  | [] => Ret []
  | element :: rest =>
      match asStatementLine element with
      | None => Panic "interface conversion: nast.Element is not *nast.StatementLine"
      | Some line =>
          ls ← outLines rest;
          Ret ({| LinePosition := Position line;
                  LineStatements := Statements line |} :: ls)
      end
  end.

Definition programTooLarge : Error :=
  {| Message := "Program is too large to be compiled into 20 lines of yolol.";
     StartPosition := {| PosLine := 1; Coloumn := 1 |};
     EndPosition := {| PosLine := 30; Coloumn := 70 |} |}.

(** [Convert] converts a nolol-program to a yolol-program.  (The call
    that reserves the time variable only touches the name optimizer.) *)
Definition Convert (c : Converter) (prog : Program) (fs : gmap string string)
  : Outcome ConvertResult :=
  let c := withFiles c fs in
  let c := withUsesTimeTracking c (usesTimeTrackingOf passes prog) in
  orReturn (convertNodes passes c prog) (fun c prog =>
  orReturn (addFinalGoto passes c prog) (fun c prog =>
  orReturn (resolveGotoChains passes c prog) (fun c prog =>
  orReturn (removeUnusedLabels passes c prog) (fun c prog =>
  (* merge the statemens of the program as good as possible *)
  m ← mergeNololElements c (Elements prog);
  match m with
  | (_, Some err) => Ret (None, Some err)
  | (merged, None) =>
  let prog := {| Elements := merged |} in
  orReturn (removeDuplicateGotos passes c prog) (fun c prog =>
  orReturn (findJumpLabels passes c prog) (fun c prog =>
  orReturn (replaceGotoLabels passes c prog) (fun c prog =>
  orReturn (convertLineFuncCalls passes c prog) (fun c prog =>
  orReturn (sexpOptimize passes c prog) (fun c prog =>
  let '(c, prog) :=
    if usesTimeTracking c then insertLineCounter passes c prog else (c, prog) in
  lines ← outLines (Elements prog);
  let out := removeFinalGotoIfNeeded passes c {| ast.Lines := lines |} in
  if 20 <? Z.of_nat (length (ast.Lines out)) then
    Ret (Some out, Some programTooLarge)
  else Ret (Some out, None))))))
  end)))).

End Convert.

(** The three ways [Convert] can return: a failure without a program,
    the program alone, the program beside the error of the line
    ceiling. *)
Inductive Returned : ConvertResult -> Prop :=
| Failed e : Returned (None, Some e)
| Emitted out :
    Z.of_nat (length (ast.Lines out)) <= 20 -> Returned (Some out, None)
| TooLarge out :
    20 < Z.of_nat (length (ast.Lines out)) ->
    Returned (Some out, Some programTooLarge).

(** *** Substituting the real jump targets and line numbers *)

(** Modelled from the spec: step 8 of section 4.3 ([convertLineFuncCalls],
    defined in another file of the package) replaces every
    self-line-number reference by the literal line index of the containing
    statement. *)
Fixpoint convertLineFuncCall (lineno : Z) (e : Expression) : Expression :=
  match e with
  | FuncCall fn args =>
      if String.eqb fn "line" then NumberConstant (Itoa lineno)
      else FuncCall fn (map (convertLineFuncCall lineno) args)
  | UnaryOperation op e1 => UnaryOperation op (convertLineFuncCall lineno e1)
  | BinaryOperation op e1 e2 =>
      BinaryOperation op (convertLineFuncCall lineno e1)
                         (convertLineFuncCall lineno e2)
  | _ => e
  end.

(** Modelled from the spec: steps 7 and 8 of section 4.3 on one statement
    of line [lineno]: a jump to a label becomes a jump to the line the
    label table gives ([replaceGotoLabels], defined in another file of the
    package; an unknown label fails), then the line references are
    replaced. *)
Fixpoint resolveStatement (labels : gmap string Z) (lineno : Z) (s : Statement)
  : option Statement :=
  match s with
  | Assignment v op val => Some (Assignment v op (convertLineFuncCall lineno val))
  | IfStatement cond ib eb =>
      ib' ← (fix block (l : list Statement) : option (list Statement) :=
               match l with
               | [] => Some []
               | s1 :: l' =>
                   s1' ← resolveStatement labels lineno s1;
                   l'' ← block l'; Some (s1' :: l'')
               end) ib;
      eb' ← (fix block (l : list Statement) : option (list Statement) :=
               match l with
               | [] => Some []
               | s1 :: l' =>
                   s1' ← resolveStatement labels lineno s1;
                   l'' ← block l'; Some (s1' :: l'')
               end) eb;
      Some (IfStatement (convertLineFuncCall lineno cond) ib' eb')
  | GoToStatement l => Some (GoToStatement (convertLineFuncCall lineno l))
  | GoToLabelStatement label =>
      n ← labels !! label; Some (GoToStatement (NumberConstant (Itoa n)))
  end.

(** Modelled from the spec: steps 7 and 8 of section 4.3 on the
    statements of line [lineno]. *)
Fixpoint resolveStatements (labels : gmap string Z) (lineno : Z)
  (l : list Statement) : option (list Statement) :=
  match l with
  | [] => Some []
  | s :: l' =>
      s' ← resolveStatement labels lineno s;
      l'' ← resolveStatements labels lineno l'; Some (s' :: l'')
  end.

(** The length of the line as the printer finally writes it, with no
    placeholder left: what [getLengthOfLine] estimates. *)
Definition finalLength (c : Converter) (line : ast.Line) : option Z :=
  generated ← Print (printerMode c) noExtension line;
  Some (if HasSuffixNewline generated then len generated - 1 else len generated).

(** Text by text, the first list is no longer than the second. *)
Definition shorterEach (ts' ts : list string) : Prop :=
  Forall2 (fun t' t => (String.length t' <= String.length t)%nat) ts' ts.

(** What the estimate promises of a statement [s] of line [lineno]: if
    the statement as resolved prints, [s] prints under the estimator, to a
    text at least as long. *)
Definition estimated (c : Converter) (labels : gmap string Z) (lineno : Z)
  (s : Statement) : Prop :=
  forall s' t',
    resolveStatement labels lineno s = Some s' ->
    printStatement (printerMode c) noExtension s' = Some t' ->
    exists t, printStatement (printerMode c) (lengthExtension c) s = Some t
              /\ (String.length t' <= String.length t)%nat.

End nolol.

(** ** The visitor engine of the nolol tree

    The second source file: [Accept] of [ExtProgramm], [ExecutableLine],
    [ConstDeclaration] and [GoToLabelStatement], and [patchExtLines]. *)

Module visitor.

(** [len(l)] of a slice. *)
Definition llen {A} (l : list A) : Z := Z.of_nat (length l).

(** [l[i]]: panics out of range. *)
Definition index {A} (l : list A) (i : Z) : Outcome A :=
  if (0 <=? i) && (i <? llen l) then
    match l !! Z.to_nat i with
    | Some a => Ret a
    | None => Panic "index out of range"
    end
  else Panic "index out of range".

(** [l[:k]] and [l[k:]]: panic out of range. *)
Definition sliceTo {A} (l : list A) (k : Z) : Outcome (list A) :=
  if (0 <=? k) && (k <=? llen l) then Ret (take (Z.to_nat k) l)
  else Panic "slice bounds out of range".

Definition sliceFrom {A} (l : list A) (k : Z) : Outcome (list A) :=
  if (0 <=? k) && (k <=? llen l) then Ret (drop (Z.to_nat k) l)
  else Panic "slice bounds out of range".

(** [make([]T, 0, cap)]: panics on a negative capacity. *)
Definition make {A} (cap : Z) : Outcome (list A) :=
  if cap <? 0 then Panic "makeslice: cap out of range" else Ret [].

(** An expression of package [parser]; only its being one matters. *)
Inductive Expression := mkExpression (text : string).

(** A statement: nolol's [GoToLabelStatement], or one of package
    [parser]. *)
Inductive Statement :=
| GoToLabelStatement (Label : string)
| ParserStatement (text : string).

Record ExecutableLine := mkExecutableLine {
  Label : string;
  Statements : list Statement;
}.

Record ConstDeclaration := mkConstDeclaration {
  Name : string;
  Value : Expression;
}.

(** The kinds of line behind the interface [ExtLine]. *)
Inductive ExtLine :=
| LExecutable (l : ExecutableLine)
| LConst (d : ConstDeclaration).

Record ExtProgramm := mkExtProgramm { Lines : list ExtLine }.

(** [parser.Node] *)
Inductive Node :=
| NProgramm (p : ExtProgramm)
| NLine (l : ExtLine)
| NStatement (s : Statement)
| NExpression (e : Expression).

(** The second argument of [Visit]: one of the three constants, or the
    index of the child about to be visited. *)
Inductive VisitType :=
| PreVisit
| PostVisit
| SingleVisit
| Index (i : Z).

(** A non-nil [error] a visitor returns: a [parser.NodeReplacement], or
    any other error. *)
Inductive error :=
| NodeReplacement (Replacement : list Node)
| Failure (msg : string).

(** [elem.(ExtLine)], [elem.(parser.Statement)], [elem.(parser.Expression)]
    with their [ok] result. *)
Definition asExtLine (n : Node) : option ExtLine :=
  match n with NLine l => Some l | _ => None end.

Definition asStatement (n : Node) : option Statement :=
  match n with NStatement s => Some s | _ => None end.

Definition asExpression (n : Node) : option Expression :=
  match n with NExpression e => Some e | _ => None end.

(** The loop of [patchExtLines] over the replacement. *)
Fixpoint appendExtLines (newv : list ExtLine) (repl : list Node)
  : Outcome (list ExtLine) :=
  match repl with
  | [] => Ret newv
  | elem :: rest =>
      match asExtLine elem with
      | Some line => appendExtLines (newv ++ [line]) rest
      | None => Panic "Could not patch slice. Wrong type."
      end
  end.

Definition patchExtLines (old : list ExtLine) (position : Z) (repl : list Node)
  : Outcome (list ExtLine) :=
  newv ← make (llen old + llen repl - 1);
  front ← sliceTo old position;
  newv ← appendExtLines (newv ++ front) repl;
  back ← sliceFrom old (position + 1);
  Ret (newv ++ back).

(** Modelled from the spec: [parser.PatchStatements] is defined in
    package [parser]; section 4.1 asks of every slot what [patchExtLines]
    does for lines: the replacement nodes take the place of the child, and
    a node of the wrong kind is fatal. *)
Fixpoint appendStatements (newv : list Statement) (repl : list Node)
  : Outcome (list Statement) :=
  match repl with
  | [] => Ret newv
  | elem :: rest =>
      match asStatement elem with
      | Some st => appendStatements (newv ++ [st]) rest
      | None => Panic "Could not patch slice. Wrong type."
      end
  end.

(** Modelled from the spec: [parser.PatchStatements] (see
    [appendStatements]). *)
Definition PatchStatements (old : list Statement) (position : Z)
  (repl : list Node) : Outcome (list Statement) :=
  newv ← make (llen old + llen repl - 1);
  front ← sliceTo old position;
  newv ← appendStatements (newv ++ front) repl;
  back ← sliceFrom old (position + 1);
  Ret (newv ++ back).

Definition wrongType : string := "Could not patch slice. Wrong type.".

(** The type assertions of a replacement to the kind [asChild] of a slot,
    all of them. *)
Fixpoint asChildren {Child} (asChild : Node -> option Child) (repl : list Node)
  : option (list Child) :=
  match repl with
  | [] => Some []
  | elem :: rest =>
      match asChild elem with
      | Some ch => chs ← asChildren asChild rest; Some (ch :: chs)
      | None => None
      end
  end.

(** What a patch is to do at the place of a child: the replacement nodes
    stand where the child stood, and a node of the wrong kind is fatal. *)
Definition patches {Child} (asChild : Node -> option Child)
  (patch : list Child -> Z -> list Node -> Outcome (list Child)) : Prop :=
  forall done child todo repl,
    patch (done ++ child :: todo) (llen done) repl
    = match asChildren asChild repl with
      | Some rs => Ret (done ++ rs ++ todo)
      | None => Panic wrongType
      end.

Section Visitor.

(** The visitor: its state (what its closure holds) and its [Visit]. *)
Variable S : Type.
Variable Visit : Node -> VisitType -> S -> S * option error.

(** [Accept] of the statements and expressions of package [parser]:
    whatever they do.  A node is updated in place. *)
Variable acceptParserStatement : Statement -> S -> Outcome (Statement * S * option error).
Variable acceptExpression : Expression -> S -> Outcome (Expression * S * option error).

(** What an [Accept] leaves: the node as updated, the visitor's state,
    the error returned. *)
Definition Accepted (N : Type) : Type := N * S * option error.

Section Loop.

(** The loop [for i := 0; i < len(children); i++] that [ExtProgramm.Accept]
    and [ExecutableLine.Accept] share, word for word, over their kind of
    child. *)
Context {Parent Child : Type}.
Variable nodeOf : Parent -> Node.
Variable children : Parent -> list Child.
Variable setChildren : Parent -> list Child -> Parent.
Variable acceptChild : Child -> S -> option (Outcome (Accepted Child)).
Variable patch : list Child -> Z -> list Node -> Outcome (list Child).

(** [fuel] bounds the number of iterations; [None] is fuel run out. *)
Fixpoint acceptLoop (fuel : nat) (p : Parent) (i : Z) (s : S)
  : option (Outcome (Accepted Parent)) :=
  if negb (i <? llen (children p)) then Some (Ret (p, s, None))
  else
    match fuel with
    | O => None
    | Datatypes.S fuel' =>
        let '(s, err) := Visit (nodeOf p) (Index i) s in
        match err with
        | Some e => Some (Ret (p, s, Some e))
        | None =>
            match index (children p) i with
            | Panic msg => Some (Panic msg)
            | Ret child =>
                match acceptChild child s with
                | None => None
                | Some (Panic msg) => Some (Panic msg)
                | Some (Ret (child', s, err)) =>
                    (* the child is behind a pointer: its update shows in the slice *)
                    let p := setChildren p (<[Z.to_nat i := child']> (children p)) in
                    match err with
                    | Some (NodeReplacement repl) =>
                        match patch (children p) i repl with
                        | Panic msg => Some (Panic msg)
                        | Ret patched =>
                            let p := setChildren p patched in
                            let i := i + (llen repl - 1) in
                            acceptLoop fuel' p (i + 1) s
                        end
                    | Some e => Some (Ret (p, s, Some e))
                    | None => acceptLoop fuel' p (i + 1) s
                    end
                end
            end
        end
    end.

(** The body the two [Accept] share: pre-visit, the loop, post-visit. *)
Definition acceptParent (p : Parent) (s : S) : option (Outcome (Accepted Parent)) :=
  let '(s, err) := Visit (nodeOf p) PreVisit s in
  match err with
  | Some e => Some (Ret (p, s, Some e))
  | None =>
      match acceptLoop (length (children p)) p 0 s with
      | None => None
      | Some (Panic msg) => Some (Panic msg)
      | Some (Ret (p, s, Some e)) => Some (Ret (p, s, Some e))
      | Some (Ret (p, s, None)) =>
          let '(s, err) := Visit (nodeOf p) PostVisit s in
          Some (Ret (p, s, err))
      end
  end.

(** *** The traversal as section 4.1 words it

    Every child is accepted once, in order; the nodes that replace a
    child take its place and are not visited; the index handed to the
    visitor is the place of the child in the list as it then stands. *)

(** The type assertion of a replacement node to the kind of the slot. *)
Variable asChild : Node -> option Child.

(** [done]: the children dealt with, as replaced; [todo]: the original
    children still to visit. *)
Fixpoint visitEach (p0 : Parent) (done todo : list Child) (s : S)
  : option (Outcome (Accepted Parent)) :=
  match todo with
  | [] => Some (Ret (setChildren p0 done, s, None))
  | child :: todo' =>
      let p := setChildren p0 (done ++ todo) in
      let '(s, err) := Visit (nodeOf p) (Index (llen done)) s in
      match err with
      | Some e => Some (Ret (p, s, Some e))
      | None =>
          match acceptChild child s with
          | None => None
          | Some (Panic msg) => Some (Panic msg)
          | Some (Ret (child', s, err)) =>
              match err with
              | Some (NodeReplacement repl) =>
                  match asChildren asChild repl with
                  | None => Some (Panic wrongType)
                  | Some rs => visitEach p0 (done ++ rs) todo' s
                  end
              | Some e =>
                  Some (Ret (setChildren p0 (done ++ child' :: todo'), s, Some e))
              | None => visitEach p0 (done ++ [child']) todo' s
              end
          end
      end
  end.

Definition acceptParentEach (p : Parent) (s : S) : option (Outcome (Accepted Parent)) :=
  let '(s, err) := Visit (nodeOf p) PreVisit s in
  match err with
  | Some e => Some (Ret (p, s, Some e))
  | None =>
      match visitEach p [] (children p) s with
      | None => None
      | Some (Panic msg) => Some (Panic msg)
      | Some (Ret (p, s, Some e)) => Some (Ret (p, s, Some e))
      | Some (Ret (p, s, None)) =>
          let '(s, err) := Visit (nodeOf p) PostVisit s in
          Some (Ret (p, s, err))
      end
  end.

End Loop.

(** [GoToLabelStatement.Accept], and the [Accept] of the other
    statements. *)
Definition Statement_Accept (st : Statement) (s : S) : Outcome (Accepted Statement) :=
  match st with
  | GoToLabelStatement _ =>
      let '(s, err) := Visit (NStatement st) SingleVisit s in Ret (st, s, err)
  | ParserStatement _ => acceptParserStatement st s
  end.

Definition setStatements (l : ExecutableLine) (sts : list Statement)
  : ExecutableLine :=
  {| Label := Label l; Statements := sts |}.

(** [ExecutableLine.Accept] *)
Definition ExecutableLine_Accept (l : ExecutableLine) (s : S)
  : option (Outcome (Accepted ExecutableLine)) :=
  acceptParent (fun l => NLine (LExecutable l)) Statements setStatements
    (fun st s => Some (Statement_Accept st s)) PatchStatements l s.

(** [ConstDeclaration.Accept] *)
Definition ConstDeclaration_Accept (l : ConstDeclaration) (s : S)
  : Outcome (Accepted ConstDeclaration) :=
  let '(s, err) := Visit (NLine (LConst l)) PreVisit s in
  match err with
  | Some e => Ret (l, s, Some e)
  | None =>
      '(value, s, err) ← acceptExpression (Value l) s;
      let l := {| Name := Name l; Value := value |} in
      match err with
      | Some (NodeReplacement repl) =>
          first ← index repl 0;
          match asExpression first with
          | None => Panic "interface conversion: parser.Node is not parser.Expression"
          | Some value =>
              let l := {| Name := Name l; Value := value |} in
              let '(s, err) := Visit (NLine (LConst l)) PostVisit s in
              Ret (l, s, err)
          end
      | Some e => Ret (l, s, Some e)
      | None =>
          let '(s, err) := Visit (NLine (LConst l)) PostVisit s in Ret (l, s, err)
      end
  end.

(** [p.Lines[i].Accept(v)]: the call through the interface [ExtLine]. *)
Definition ExtLine_Accept (l : ExtLine) (s : S)
  : option (Outcome (Accepted ExtLine)) :=
  match l with
  | LExecutable l =>
      r ← ExecutableLine_Accept l s;
      Some ('(l, s, err) ← r; Ret (LExecutable l, s, err))
  | LConst d =>
      Some ('(d, s, err) ← ConstDeclaration_Accept d s; Ret (LConst d, s, err))
  end.

Definition setLines (p : ExtProgramm) (lines : list ExtLine) : ExtProgramm :=
  {| Lines := lines |}.

(** [ExtProgramm.Accept] *)
Definition ExtProgramm_Accept (p : ExtProgramm) (s : S)
  : option (Outcome (Accepted ExtProgramm)) :=
  acceptParent NProgramm Lines setLines ExtLine_Accept patchExtLines p s.

(** [ExtProgramm.Accept] as section 4.1 words the traversal. *)
Definition ExtProgramm_AcceptEach (p : ExtProgramm) (s : S)
  : option (Outcome (Accepted ExtProgramm)) :=
  acceptParentEach NProgramm Lines setLines ExtLine_Accept asExtLine p s.

(** [ExecutableLine.Accept] as section 4.1 words the traversal. *)
Definition ExecutableLine_AcceptEach (l : ExecutableLine) (s : S)
  : option (Outcome (Accepted ExecutableLine)) :=
  acceptParentEach (fun l => NLine (LExecutable l)) Statements setStatements
    (fun st s => Some (Statement_Accept st s)) asStatement l s.

End Visitor.

End visitor.

(** ** The loop-context stack during the lowering traversal

    [convertNodes] of [converter.go], on the part of the tree the loop
    stack depends on: while loops, [break], [continue], and every other
    node kind as [Other]. *)

Module lowering.

Import nolol.

(** The two labels of a lowered loop, by loop id. *)
Inductive LoopLabel :=
| WhileHead (id : Z)
| WhileEnd (id : Z).

Inductive Node :=
| WhileLoop (Condition : string) (Block : list Node)
| BreakStatement
| ContinueStatement
| GoToLabelStatement (Label : LoopLabel)
| Other (kind : string) (children : list Node).

Inductive VisitType :=
| PreVisit
| PostVisit
| SingleVisit.

(** A non-nil [error] of the visitor: a node replacement
    ([ast.NodeReplacement]; with [Skip] the nodes put in are not visited),
    or a failure. *)
Inductive error :=
| NodeReplacement (Replacement : list Node) (Skip : bool)
| Failure (e : parser.Error).

(** [ast.NewNodeReplacement] and [ast.NewNodeReplacementSkip] *)
Definition NewNodeReplacement (replacement : list Node) : error :=
  NodeReplacement replacement false.

Definition NewNodeReplacementSkip (replacement : list Node) : error :=
  NodeReplacement replacement true.

Definition isFailure (err : option error) : bool :=
  match err with Some (Failure _) => true | _ => false end.

(** How a traversal of at most so many steps ends: it returns, a
    callback panics, or the steps are used up.  The state of the visitor
    is kept in each case. *)
Inductive Result (S A : Type) :=
| Finished (a : A) (s : S) (err : option error)
| Crashed (msg : string) (s : S)
| Unfinished (s : S).

Arguments Finished {S A} a s err.
Arguments Crashed {S A} msg s.
Arguments Unfinished {S A} s.

Section Engine.

(** The state of the visitor. *)
Variable S : Type.

(** What an onlooker knows of the place of a node in the tree.  The
    engine hands it down the recursion: [enter ctx n s] is the place of
    the children of [n], [s] being the state its pre-visit left.  The
    visitor of [convertNodes] does not look at it. *)
Variable Ctx : Type.
Variable Visit : Ctx -> Node -> VisitType -> S -> Outcome (S * option error).
Variable enter : Ctx -> Node -> S -> Ctx.

(** One call of the visitor. *)
Definition visit {A} (ctx : Ctx) (n : Node) (visitType : VisitType) (s : S)
  (k : S -> option error -> Result S A) : Result S A :=
  match Visit ctx n visitType s with
  | Panic msg => Crashed msg s
  | Ret (s', err) => k s' err
  end.

(** Modelled from the spec: [Accept] of a node with children ([Accept] of
    the nolol nodes is defined in package [nast]), as section 4.1 words
    it: the callback at pre-visit, then the children in source order,
    then the callback at post-visit; an error aborts.  At the post-visit
    the node is still open: the callback is given the place of its
    children.  [each] is the loop over the children. *)
Definition acceptParent
  (each : Ctx -> list Node -> list Node -> S -> Result S (list Node))
  (ctx : Ctx) (n : Node) (rebuild : list Node -> Node) (block : list Node)
  (s : S) : Result S Node :=
  visit ctx n PreVisit s (fun s err =>
    match err with
    | Some e => Finished n s (Some e)
    | None =>
        let inner := enter ctx n s in
        match each inner [] block s with
        | Finished block' s (Some e) => Finished (rebuild block') s (Some e)
        | Finished block' s None =>
            visit inner (rebuild block') PostVisit s
              (fun s err => Finished (rebuild block') s err)
        | Crashed msg s => Crashed msg s
        | Unfinished s => Unfinished s
        end
    end).

(** Modelled from the spec: one round of the loop over the children of a
    node: [done] are the children dealt with, [todo] those still to
    visit.  The nodes of a replacement take the place of the child; the
    loop goes on at the first of them, so that inserted content is itself
    visited (sections 4.1 and 4.2), or behind them when the replacement
    says [Skip] (a binary expression's replacement is not re-visited). *)
Definition acceptChild
  (accept : Ctx -> Node -> S -> Result S Node)
  (each : Ctx -> list Node -> list Node -> S -> Result S (list Node))
  (ctx : Ctx) (done : list Node) (child : Node) (todo : list Node) (s : S)
  : Result S (list Node) :=
  match accept ctx child s with
  | Finished child' s err =>
      match err with
      | Some (NodeReplacement repl true) => each ctx (done ++ repl) todo s
      | Some (NodeReplacement repl false) => each ctx done (repl ++ todo) s
      | Some e => Finished (done ++ child' :: todo) s (Some e)
      | None => each ctx (done ++ [child']) todo s
      end
  | Crashed msg s => Crashed msg s
  | Unfinished s => Unfinished s
  end.

(** Modelled from the spec: the traversal engine of the tree.  A visitor
    that keeps replacing a node by itself never returns: [fuel] bounds
    the number of nested calls. *)
Fixpoint Accept (fuel : nat) (ctx : Ctx) (n : Node) (s : S) {struct fuel}
  : Result S Node :=
  match fuel with
  | O => Unfinished s
  | Datatypes.S fuel' =>
      match n with
      | WhileLoop cond block =>
          acceptParent (acceptEach fuel') ctx n (WhileLoop cond) block s
      | Other kind children =>
          acceptParent (acceptEach fuel') ctx n (Other kind) children s
      | _ => visit ctx n SingleVisit s (fun s err => Finished n s err)
      end
  end
with acceptEach (fuel : nat) (ctx : Ctx) (done todo : list Node) (s : S)
  {struct fuel} : Result S (list Node) :=
  match fuel with
  | O => Unfinished s
  | Datatypes.S fuel' =>
      match todo with
      | [] => Finished done s None
      | child :: todo' =>
          acceptChild (Accept fuel') (acceptEach fuel') ctx done child todo' s
      end
  end.

End Engine.

Arguments visit {S Ctx} Visit {A} ctx n visitType s k.
Arguments acceptParent {S Ctx} Visit enter each ctx n rebuild block s.
Arguments acceptChild {S Ctx} accept each ctx done child todo s.
Arguments Accept {S Ctx} Visit enter fuel ctx n s.
Arguments acceptEach {S Ctx} Visit enter fuel ctx done todo s.

Definition withLoops (c : Converter) (counter : Z) (level : list Z) : Converter :=
  {| files := files c; jumpLabels := jumpLabels c; definitions := definitions c;
     usesTimeTracking := usesTimeTracking c;
     iflabelcounter := iflabelcounter c; waitlabelcounter := waitlabelcounter c;
     loopcounter := counter; loopLevel := level;
     includecount := includecount c; macroLevel := macroLevel c;
     macroInsertionCount := macroInsertionCount c; debug := debug c;
     UseSpaces := UseSpaces c |}.

(** [c.loopLevel[len(c.loopLevel)-1]] *)
Definition top (level : list Z) : option Z := last level.

Definition outsideLoop (what : string) : parser.Error :=
  {| parser.Message := what +:+ " is only allowed inside loops";
     parser.StartPosition := ast.mkPosition 0 0;
     parser.EndPosition := ast.mkPosition 0 0 |}.

(** Modelled from the spec: [convertBreakStatement] is defined in another
    file of the package; section 4.2: resolve to the current top-of-stack
    loop id, emit an unconditional jump to that loop's end label; an empty
    stack is a structural error. *)
Definition convertBreakStatement (c : Converter) : option error :=
  match top (loopLevel c) with
  | Some id => Some (NewNodeReplacement [GoToLabelStatement (WhileEnd id)])
  | None => Some (Failure (outsideLoop "The break-statement"))
  end.

(** Modelled from the spec: [convertContinueStatement], as
    [convertBreakStatement], to the head label. *)
Definition convertContinueStatement (c : Converter) : option error :=
  match top (loopLevel c) with
  | Some id => Some (NewNodeReplacement [GoToLabelStatement (WhileHead id)])
  | None => Some (Failure (outsideLoop "The continue-statement"))
  end.

(** [convertWhileLoop] and the cases of the other node kinds: functions of
    other files of the package.  They work on the converter and return
    it as they leave it. *)
Record Others := mkOthers {
  convertWhileLoop : Converter -> Node -> Converter * option error;
  otherCases : Converter -> Node -> VisitType -> Converter * option error;
}.

(** What the visitor below relies on: none of them writes the loop
    counter or the loop stack. *)
Definition keepsLoops (o : Others) : Prop :=
  (forall c n,
      loopcounter (fst (convertWhileLoop o c n)) = loopcounter c
      /\ loopLevel (fst (convertWhileLoop o c n)) = loopLevel c)
  /\ (forall c n visitType,
      loopcounter (fst (otherCases o c n visitType)) = loopcounter c
      /\ loopLevel (fst (otherCases o c n visitType)) = loopLevel c).

Section ConvertNodes.

Variable others : Others.

(** The visitor [f] of [convertNodes]. *)
Definition f (node : Node) (visitType : VisitType) (c : Converter)
  : Outcome (Converter * option error) :=
  match node with
  | WhileLoop _ _ =>
      match visitType with
      | PreVisit =>
          let c := withLoops c (loopcounter c + 1) (loopLevel c) in
          let c := withLoops c (loopcounter c) (loopLevel c ++ [loopcounter c]) in
          Ret (c, None)
      | PostVisit =>
          let '(c, result) := convertWhileLoop others c node in
          match loopLevel c with
          | [] => Panic "slice bounds out of range"
          | _ =>
              Ret (withLoops c (loopcounter c) (removelast (loopLevel c)),
                   result)
          end
      | SingleVisit => Ret (c, None)
      end
  | BreakStatement => Ret (c, convertBreakStatement c)
  | ContinueStatement => Ret (c, convertContinueStatement c)
  | GoToLabelStatement _ => Ret (c, None)
  | Other _ _ => Ret (otherCases others c node visitType)
  end.

(** [convertNodes]: [node.Accept(ast.VisitorFunc(f))]. *)
Definition convertNodes (fuel : nat) (node : Node) (c : Converter)
  : Result Converter Node :=
  Accept (fun _ : unit => f) (fun _ _ _ => tt) fuel tt node c.

(** The loop of that traversal over the children of a node. *)
Definition convertEach (fuel : nat) (done todo : list Node) (c : Converter)
  : Result Converter (list Node) :=
  acceptEach (fun _ : unit => f) (fun _ _ _ => tt) fuel tt done todo c.

(** *** The traversal watched

    The onlooker records every callback: the node, the ids of the while
    loops open at that place of the tree, the converter before and after
    the callback, and what it returned. *)
Record Event := mkEvent {
  evNode : Node;
  evType : VisitType;
  evOpen : list Z;
  evBefore : Converter;
  evAfter : Converter;
  evResult : option error;
}.

Record Watched := mkWatched {
  conv : Converter;
  events : list Event;
}.

Definition watch (c : Converter) : Watched := {| conv := c; events := [] |}.

Definition watched (open : list Z) (node : Node) (visitType : VisitType)
  (w : Watched) : Outcome (Watched * option error) :=
  '(c, err) ← f node visitType (conv w);
  let ev := {| evNode := node; evType := visitType; evOpen := open;
               evBefore := conv w; evAfter := c; evResult := err |} in
  Ret ({| conv := c; events := events w ++ [ev] |}, err).

(** The loops open at the children of a node: those open at the node,
    and the node itself when it is a loop, under the id it has after its
    pre-visit. *)
Definition opened (open : list Z) (node : Node) (w : Watched) : list Z :=
  match node with
  | WhileLoop _ _ => open ++ [loopcounter (conv w)]
  | _ => open
  end.

Definition convertNodesWatched (fuel : nat) (node : Node) (w : Watched)
  : Result Watched Node :=
  Accept watched opened fuel (loopLevel (conv w)) node w.

End ConvertNodes.

(** The number of loops a node opens for its children. *)
Definition opens (node : Node) : nat :=
  match node with
  | WhileLoop _ _ => 1
  | _ => 0
  end.

(** What is to hold at a callback.  The stack is the list of the loops
    open at that place of the tree, innermost last.  The pre-visit of a
    while loop pushes the next loop id, an id that is not on the stack;
    its post-visit pops the last entry, and nothing else pushes or pops.
    [break] and [continue] are replaced by a jump to the end and to the
    head of the innermost open loop, and fail where no loop is open. *)
Definition resolves (label : Z -> LoopLabel) (what : string) (ev : Event)
  : Prop :=
  evAfter ev = evBefore ev
  /\ evResult ev =
     match last (evOpen ev) with
     | Some id => Some (NodeReplacement [GoToLabelStatement (label id)] false)
     | None => Some (Failure (outsideLoop what))
     end.

Definition eventOK (ev : Event) : Prop :=
  loopLevel (evBefore ev) = evOpen ev
  /\ match evNode ev, evType ev with
     | WhileLoop _ _, PreVisit =>
         loopcounter (evAfter ev) = loopcounter (evBefore ev) + 1
         /\ loopLevel (evAfter ev) = evOpen ev ++ [loopcounter (evAfter ev)]
         /\ ~ In (loopcounter (evAfter ev)) (evOpen ev)
         /\ evResult ev = None
     | WhileLoop _ _, PostVisit =>
         loopcounter (evAfter ev) = loopcounter (evBefore ev)
         /\ exists id, evOpen ev = loopLevel (evAfter ev) ++ [id]
     | BreakStatement, _ => resolves WhileEnd "The break-statement" ev
     | ContinueStatement, _ => resolves WhileHead "The continue-statement" ev
     | _, _ =>
         loopcounter (evAfter ev) = loopcounter (evBefore ev)
         /\ loopLevel (evAfter ev) = loopLevel (evBefore ev)
     end.

(** Every callback so far was in order. *)
Definition logOK (w : Watched) : Prop := Forall eventOK (events w).

(** No id on the stack is ahead of the loop counter. *)
Definition numbered (c : Converter) (open : list Z) : Prop :=
  Forall (fun id => id <= loopcounter c) open.

(** The invariant of the watched run at a place of the tree. *)
Definition Inv (open : list Z) (w : Watched) : Prop :=
  loopLevel (conv w) = open /\ numbered (conv w) open /\ logOK w.

(** What a traversal from a place of the tree leaves: no callback has
    panicked, every callback was in order, and unless it failed the stack
    is that of the place again. *)
Definition kept {A} (open : list Z) (r : Result Watched A) : Prop :=
  match r with
  | Crashed _ _ => False
  | Unfinished w => logOK w
  | Finished _ w err => logOK w /\ (isFailure err = false -> Inv open w)
  end.

(** The watched run and the plain run agree: they end the same way, with
    the same tree and the same error, and the converter the onlooker
    holds is the converter of the plain run. *)
Definition agrees {A} (plain : Result Converter A) (seen : Result Watched A)
  : Prop :=
  match plain, seen with
  | Finished a c err, Finished a' w err' => a' = a /\ conv w = c /\ err' = err
  | Crashed msg c, Crashed msg' w => msg' = msg /\ conv w = c
  | Unfinished c, Unfinished w => conv w = c
  | _, _ => False
  end.

End lowering.

(** ** Example programs and collaborators *)

Module examples.

Import ast parser nast nolol.

Definition p0 : ast.Position := mkPosition 0 0.

(** A statement-line: its label, statements and markers. *)
Definition sl (lbl : string) (st : list Statement) (bol eol : bool)
  : StatementLine :=
  {| Line := {| LinePosition := p0; LineStatements := st |};
     Label := lbl; Position := p0; HasBOL := bol; HasEOL := eol |}.

Definition assign (v n : string) : Statement :=
  Assignment v "=" (NumberConstant n).

(** Four lines: the second is absorbed into the first, the labelled third
    and the must-start fourth are not. *)
Definition fourLines : list StatementLine :=
  [sl "" [assign "a" "1"] false false; sl "" [assign "b" "2"] false false;
   sl "x" [assign "c" "3"] false false; sl "" [assign "d" "4"] true false].

Definition fourLinesMerged : list StatementLine :=
  [sl "" [assign "a" "1"; assign "b" "2"] false false;
   sl "x" [assign "c" "3"] false false; sl "" [assign "d" "4"] false false].

(** An assignment of 86 characters: a string of 80 characters to [msg]. *)
Definition overBudget : Statement :=
  Assignment "msg" "="
    (StringConstant
       "01234567890123456789012345678901234567890123456789012345678901234567890123456789").

(** Collaborators that change nothing and never fail. *)
Definition idPass : Pass := fun c prog => (c, prog, None).

Definition idPasses : Passes :=
  {| usesTimeTrackingOf := fun _ => false;
     convertNodes := idPass; addFinalGoto := idPass;
     resolveGotoChains := idPass; removeUnusedLabels := idPass;
     removeDuplicateGotos := idPass; findJumpLabels := idPass;
     replaceGotoLabels := idPass; convertLineFuncCalls := idPass;
     sexpOptimize := idPass;
     insertLineCounter := fun c prog => (c, prog);
     removeFinalGotoIfNeeded := fun _ out => out |}.

Definition duplicateLabel : Error :=
  {| Message := "Duplicate label"; StartPosition := p0; EndPosition := p0 |}.

(** The same, but the label table cannot be built. *)
Definition failingPasses : Passes :=
  {| usesTimeTrackingOf := fun _ => false;
     convertNodes := idPass; addFinalGoto := idPass;
     resolveGotoChains := idPass; removeUnusedLabels := idPass;
     removeDuplicateGotos := idPass;
     findJumpLabels := fun c prog => (c, prog, Some duplicateLabel);
     replaceGotoLabels := idPass; convertLineFuncCalls := idPass;
     sexpOptimize := idPass;
     insertLineCounter := fun c prog => (c, prog);
     removeFinalGotoIfNeeded := fun _ out => out |}.

(** A program of [n] lines that must each end where they end. *)
Definition linesProgram (n : nat) : Program :=
  {| Elements := replicate n (ElStatementLine (sl "" [assign "a" "1"] false true)) |}.

Definition linesCompiled (n : nat) : ast.Program :=
  {| ast.Lines := replicate n {| LinePosition := p0;
                                 LineStatements := [assign "a" "1"] |} |}.

(** A line with a jump to the label [x] and a reference to its own line
    number, and the label table that puts [x] on line 15. *)
Definition jumpAndLine : list Statement :=
  [GoToLabelStatement "x"; Assignment "a" "=" (FuncCall "line" [])].

Definition jumpAndLineResolved : list Statement :=
  [GoToStatement (NumberConstant "15"); assign "a" "7"].

Definition labelTable : gmap string Z := {["x" := 15]}.

End examples.

Module visitorExamples.

Import visitor.

(** A visitor that logs every call and replaces the line labelled [b], at
    its post-visit, by the two lines [r1] and [r2]. *)
Definition line (lbl : string) : ExtLine :=
  LExecutable {| Label := lbl; Statements := [] |}.

Definition Log : Type := list (Node * VisitType).

Definition isLineB (n : Node) : bool :=
  match n with
  | NLine (LExecutable l) => String.eqb (Label l) "b"
  | _ => false
  end.

Definition logVisit (n : Node) (vt : VisitType) (log : Log)
  : Log * option error :=
  (log ++ [(n, vt)],
   match vt with
   | PostVisit =>
       if isLineB n then Some (NodeReplacement [NLine (line "r1"); NLine (line "r2")])
       else None
   | _ => None
   end).

Definition noStatement (st : Statement) (log : Log)
  : Outcome (Statement * Log * option error) := Ret (st, log, None).

Definition noExpression (e : Expression) (log : Log)
  : Outcome (Expression * Log * option error) := Ret (e, log, None).

Definition abc : ExtProgramm := {| Lines := [line "a"; line "b"; line "c"] |}.

(** The indices the visitor was handed, and the lines it pre-visited. *)
Definition indicesSeen (log : Log) : list Z :=
  omap (fun '(_, vt) => match vt with Index i => Some i | _ => None end) log.

Definition linesSeen (log : Log) : list string :=
  omap (fun '(n, vt) =>
          match n, vt with
          | NLine (LExecutable l), PreVisit => Some (Label l)
          | _, _ => None
          end) log.

End visitorExamples.

Module loweringExamples.

Import nolol lowering.

(** Two nested loops; a [break] in the outer one before and after the
    inner one, a [continue] in the inner one. *)
Definition nested : Node :=
  Other "program"
    [WhileLoop "a" [BreakStatement;
                    WhileLoop "b" [ContinueStatement];
                    BreakStatement]].

Definition nestedLowered : Node :=
  Other "program"
    [WhileLoop "a" [GoToLabelStatement (WhileEnd 1);
                    WhileLoop "b" [GoToLabelStatement (WhileHead 2)];
                    GoToLabelStatement (WhileEnd 1)]].

(** Collaborators that leave every node as it is. *)
Definition keep : Others :=
  {| convertWhileLoop := fun c _ => (c, None);
     otherCases := fun c _ _ => (c, None) |}.

Definition withIfLabels (c : Converter) (counter : Z) : Converter :=
  {| files := files c; jumpLabels := jumpLabels c; definitions := definitions c;
     usesTimeTracking := usesTimeTracking c;
     iflabelcounter := counter; waitlabelcounter := waitlabelcounter c;
     loopcounter := loopcounter c; loopLevel := loopLevel c;
     includecount := includecount c; macroLevel := macroLevel c;
     macroInsertionCount := macroInsertionCount c; debug := debug c;
     UseSpaces := UseSpaces c |}.

(** Collaborators that work on the tree and on the converter: a loop is
    replaced by its head, its block, the jump back and its end, all of
    which are visited in turn, and every [if] counts a label. *)
Definition unroll : Others :=
  {| convertWhileLoop := fun c n =>
       match n, top (loopLevel c) with
       | WhileLoop cond block, Some id =>
           (c, Some (NewNodeReplacement
                       (Other "head" [] :: block
                          ++ [GoToLabelStatement (WhileHead id);
                              Other "end" []])))
       | _, _ => (c, None)
       end;
     otherCases := fun c n visitType =>
       match n, visitType with
       | Other kind _, PostVisit =>
           if String.eqb kind "if"
           then (withIfLabels c (iflabelcounter c + 1), None)
           else (c, None)
       | _, _ => (c, None)
       end |}.

(** A loop in a loop, with an [if] that holds a [break]. *)
Definition looping : Node :=
  Other "program"
    [WhileLoop "a" [WhileLoop "b" [Other "if" [BreakStatement]];
                    ContinueStatement]].

Definition loopingLowered : Node :=
  Other "program"
    [Other "head" [];
     Other "head" [];
     Other "if" [GoToLabelStatement (WhileEnd 2)];
     GoToLabelStatement (WhileHead 2);
     Other "end" [];
     GoToLabelStatement (WhileHead 1);
     GoToLabelStatement (WhileHead 1);
     Other "end" []].

(** Collaborators that insert: a macro is replaced at its pre-visit by a
    loop with a [break], which is visited in its place, and a binary
    expression after its children by a node that is not visited. *)
Definition insert : Others :=
  {| convertWhileLoop := fun c _ => (c, None);
     otherCases := fun c n visitType =>
       match n, visitType with
       | Other kind _, PreVisit =>
           if String.eqb kind "macro"
           then (c, Some (NewNodeReplacement [WhileLoop "m" [BreakStatement]]))
           else (c, None)
       | Other kind _, PostVisit =>
           if String.eqb kind "binary"
           then (c, Some (NewNodeReplacementSkip [BreakStatement]))
           else (c, None)
       | _, _ => (c, None)
       end |}.

Definition inserting : Node :=
  Other "program" [Other "macro" []; Other "binary" []].

Definition insertingLowered : Node :=
  Other "program"
    [WhileLoop "m" [GoToLabelStatement (WhileEnd 1)]; BreakStatement].

End loweringExamples.

(** ** What the line packer returns *)

Module packer.

Import ast parser nast nolol.

(** The error [mergeStatementElements] returns for the line [cur]. *)
Definition tooLongAt (StartOf EndOf : StatementLine -> ast.Position)
  (cur : StatementLine) : Error :=
  {| Message := lineTooLong;
     StartPosition := StartOf cur;
     EndPosition := EndOf cur |}.

(** What a line returned by [mergeStatementElements] is to the lines it
    was given: it carries no must-start marker; it has the label and the
    position of one of them, whose statements it starts with; and it
    carries the must-end marker only if it is that line, standing alone. *)
Definition closedFrom (lines : list StatementLine) (o : StatementLine) : Prop :=
  HasBOL o = false
  /\ exists l, In l lines /\ Label o = Label l /\ Position o = Position l
               /\ Statements l `prefix_of` Statements o
               /\ (HasEOL o = true -> o = openLine l).

End packer.

(** ** The type-wrappers and entry points of the converter

    [mergeNololNestableElements], the copy of [mergeNololElements] for the
    elements nested in a block, and [ConvertFileEx]. *)

Module wrappers.

Import ast parser nast nolol.

(** An element nested in a block ([nast.NestableElement]): a
    statement-line, or any other element (with its Go type name). *)
Inductive NestableElement :=
| NeStatementLine (l : StatementLine)
| NeOther (typeName : string).

Definition asNestedStatementLine (e : NestableElement) : option StatementLine :=
  match e with
  | NeStatementLine l => Some l
  | NeOther _ => None
  end.

Definition unconvertedNestable (e : NestableElement) : Error :=
  {| Message := "Err: Found unconverted nolol-element: " +:+
                  match e with
                  | NeStatementLine _ => "*nast.StatementLine"
                  | NeOther t => t
                  end;
     StartPosition := mkPosition 0 0;
     EndPosition := mkPosition 0 0 |}.

(** The first loop of [mergeNololNestableElements]. *)
Fixpoint nestedStatementLinesOf (lines : list NestableElement)
  : list StatementLine * option Error :=
  match lines with
  | [] => ([], None)
  | elem :: rest =>
      match asNestedStatementLine elem with
      | None => ([], Some (unconvertedNestable elem))
      | Some line =>
          match nestedStatementLinesOf rest with
          | (inp, None) => (line :: inp, None)
          | (_, Some err) => ([], Some err)
          end
      end
  end.

(** A nestable element as an element of the program. *)
Definition toElement (e : NestableElement) : Element :=
  match e with
  | NeStatementLine l => ElStatementLine l
  | NeOther t => ElOther t
  end.

Section Wrappers.

Variable StartOf EndOf : StatementLine -> ast.Position.

(** [mergeNololNestableElements] is a type-wrapper for
    [mergeStatementElements]; a nil slice is the empty list. *)
Definition mergeNololNestableElements (c : Converter)
  (lines : list NestableElement)
  : Outcome (list NestableElement * option Error) :=
  match nestedStatementLinesOf lines with
  | (_, Some err) => Ret ([], Some err)
  | (inp, None) =>
      r ← mergeStatementElements StartOf EndOf c inp;
      match r with
      | (_, Some err) => Ret ([], Some err)
      | (interm, None) => Ret (map NeStatementLine interm, None)
      end
  end.

Variable passes : Passes.

(** The four passes [Convert] runs before it merges the lines, with the
    converter set up as [Convert] does. *)
Definition lowered (c : Converter) (prog : Program) (fs : gmap string string)
  : Converter * Program * option Error :=
  let c := withFiles c fs in
  let c := withUsesTimeTracking c (usesTimeTrackingOf passes prog) in
  match convertNodes passes c prog with
  | (c, prog, Some err) => (c, prog, Some err)
  | (c, prog, None) =>
  match addFinalGoto passes c prog with
  | (c, prog, Some err) => (c, prog, Some err)
  | (c, prog, None) =>
  match resolveGotoChains passes c prog with
  | (c, prog, Some err) => (c, prog, Some err)
  | (c, prog, None) => removeUnusedLabels passes c prog
  end end end.

(** What [Convert] holds when it comes to the validation of the line
    count: the program it has compiled, or the error of the step that
    failed. *)
Definition Compiled : Type := (ast.Program + Error)%type.

(** [err := pass(prog); if err != nil { return nil, err }], as far as the
    validation. *)
Definition orFail (r : Converter * Program * option Error)
  (k : Converter -> Program -> Outcome Compiled) : Outcome Compiled :=
  match r with
  | (_, _, Some err) => Ret (inr err)
  | (c, prog, None) => k c prog
  end.

(** [Convert] from its first line to the call of
    [removeFinalGotoIfNeeded]: every step before [len(out.Lines) > 20] is
    tested. *)
Definition compiled (c : Converter) (prog : Program) (fs : gmap string string)
  : Outcome Compiled :=
  let c := withFiles c fs in
  let c := withUsesTimeTracking c (usesTimeTrackingOf passes prog) in
  orFail (convertNodes passes c prog) (fun c prog =>
  orFail (addFinalGoto passes c prog) (fun c prog =>
  orFail (resolveGotoChains passes c prog) (fun c prog =>
  orFail (removeUnusedLabels passes c prog) (fun c prog =>
  m ← mergeNololElements StartOf EndOf c (Elements prog);
  match m with
  | (_, Some err) => Ret (inr err)
  | (merged, None) =>
  let prog := {| Elements := merged |} in
  orFail (removeDuplicateGotos passes c prog) (fun c prog =>
  orFail (findJumpLabels passes c prog) (fun c prog =>
  orFail (replaceGotoLabels passes c prog) (fun c prog =>
  orFail (convertLineFuncCalls passes c prog) (fun c prog =>
  orFail (sexpOptimize passes c prog) (fun c prog =>
  let '(c, prog) :=
    if usesTimeTracking c then insertLineCounter passes c prog else (c, prog) in
  lines ← outLines (Elements prog);
  Ret (inl (removeFinalGotoIfNeeded passes c {| ast.Lines := lines |})))))))
  end)))).

(** What [Convert] returns, from what it has compiled: a panic where a
    step panicked; the error alone where a step failed; and where the
    program is compiled, the program, beside the error of the ceiling if it
    has more than 20 lines. *)
Inductive Validated : Outcome ConvertResult -> Outcome Compiled -> Prop :=
| V_panic msg : Validated (Panic msg) (Panic msg)
| V_failed err : Validated (Ret (None, Some err)) (Ret (inr err))
| V_too_large out :
    20 < Z.of_nat (length (ast.Lines out)) ->
    Validated (Ret (Some out, Some programTooLarge)) (Ret (inl out))
| V_emitted out :
    Z.of_nat (length (ast.Lines out)) <= 20 ->
    Validated (Ret (Some out, None)) (Ret (inl out)).

(** [FileSystem.Get] on a table of files; [notFound name] is the error
    of a file that is not there. *)
Variable notFound : string -> Error.

Definition Get (fs : gmap string string) (name : string)
  : string * option Error :=
  match fs !! name with
  | Some text => (text, None)
  | None => ("", Some (notFound name))
  end.

(** [NewParser()], [p.Debug(debug)] and [p.Parse(file)]: the parser of
    nolol, defined in another file of the package. *)
Variable Parse : bool -> string -> Program * option Error.

(** [ConvertFileEx] *)
Definition ConvertFileEx (c : Converter) (mainfile : string)
  (fs : gmap string string) : Outcome ConvertResult :=
  match Get fs mainfile with
  | (_, Some err) => Ret (None, Some err)
  | (file, None) =>
      match Parse (debug c) file with
      | (_, Some err) => Ret (None, Some err)
      | (parsed, None) => Convert StartOf EndOf passes c parsed fs
      end
  end.

End Wrappers.

End wrappers.

Module wrapperExamples.

Import ast parser nast nolol examples wrappers.

(** A line over the budget before a short one. *)
Definition longThenShort : list StatementLine :=
  [sl "" [overBudget] false false; sl "" [assign "a" "1"] false false].

(** A program in which an [if] block was left unconverted. *)
Definition unconverted : Program :=
  {| Elements := [ElStatementLine (sl "" [assign "a" "1"] false false);
                  ElOther "*nast.MultilineIf"] |}.

Definition noSuchFile (name : string) : Error :=
  {| Message := "file not found: " +:+ name;
     StartPosition := p0; EndPosition := p0 |}.

(** A parser that knows one text. *)
Definition parseOne (debug : bool) (text : string)
  : Program * option Error :=
  if String.eqb text "a=1" then
    ({| Elements := [ElStatementLine (sl "" [assign "a" "1"] false false)] |},
     None)
  else ({| Elements := [] |},
        Some {| Message := "syntax error";
                StartPosition := p0; EndPosition := p0 |}).

End wrapperExamples.

Module traversal.

Import visitor.

(** Whether the error an [Accept] returns is a replacement. *)
Definition isReplacement (err : option error) : bool :=
  match err with
  | Some (NodeReplacement _) => true
  | _ => false
  end.

End traversal.

Module quietExamples.

Import visitor.

(** A visitor that logs every call and returns no error. *)
Definition logOnly (n : Node) (vt : VisitType) (log : visitorExamples.Log)
  : visitorExamples.Log * option error :=
  (log ++ [(n, vt)], None).

(** A replacement by an expression and a line, and an expression whose
    [Accept] returns it. *)
Definition valueAndLine : list Node :=
  [NExpression (mkExpression "1"); NLine (visitorExamples.line "z")].

Definition replaceByValueAndLine (e : Expression) (log : visitorExamples.Log)
  : Outcome (Expression * visitorExamples.Log * option error) :=
  Ret (e, log, Some (NodeReplacement valueAndLine)).

(** An expression whose [Accept] returns a replacement by two
    expressions. *)
Definition twoValues : list Node :=
  [NExpression (mkExpression "1"); NExpression (mkExpression "2")].

Definition replaceValue (e : Expression) (log : visitorExamples.Log)
  : Outcome (Expression * visitorExamples.Log * option error) :=
  Ret (e, log, Some (NodeReplacement twoValues)).

Definition constA : ConstDeclaration :=
  {| Name := "a"; Value := mkExpression "0" |}.

End quietExamples.

(** ** The command-line debugger ([cmd/debug.go])

    The functions of the [debug] command that compute: the choice between
    a test file and a list of scripts, the change of the current script,
    the source listing and the sorted variable table.  The shell, the
    virtual machines and the files they run are other packages. *)

Module debugger.

(** [strings.HasSuffix(s, suffix)] *)
Definition HasSuffix (s suffix : string) : bool :=
  (String.length suffix <=? String.length s)%nat
  && String.eqb
       (substring (String.length s - String.length suffix)
          (String.length suffix) s)
       suffix.

(** What [load] goes on to do: [os.Exit(code)] after printing, or the
    call of [debug.FromTest] or [debug.FromScripts]. *)
Inductive Loading :=
| Exit (code : Z) (printed : string)
| FromTest (file : string)
| FromScripts (files : list string).

(** The loop of [load] over its arguments; [inr arg] is the exit at
    [arg]. *)
Fixpoint scanArgs (args : list string) (containsScript containsTest : bool)
  : bool * bool + string :=
  match args with
  | [] => inl (containsScript, containsTest)
  | arg :: rest =>
      if HasSuffix arg ".yaml" then scanArgs rest containsScript true
      else if HasSuffix arg ".yolol" || HasSuffix arg ".nolol" then
        scanArgs rest true containsTest
      else inr arg
  end.

(** The two kinds of argument [load] accepts. *)
Definition isTest (arg : string) : bool := HasSuffix arg ".yaml".

Definition isScript (arg : string) : bool :=
  negb (HasSuffix arg ".yaml")
  && (HasSuffix arg ".yolol" || HasSuffix arg ".nolol").

(** [load]: decide whether to load a bunch of scripts or a test-file. *)
Definition load (args : list string) : Outcome Loading :=
  match scanArgs args false false with
  | inr arg =>
      Ret (Exit 1 ("Unknown file-extension for file:  " +:+ arg +:+ newline))
  | inl (containsScript, containsTest) =>
      if containsScript && containsTest then
        Ret (Exit 1 ("Can not mix test-files and scripts." +:+ newline))
      else if (1 <? visitor.llen args) && containsTest then
        Ret (Exit 1 ("Can only debug one test at once" +:+ newline))
      else if containsTest then
        file ← visitor.index args 0; Ret (FromTest file)
      else Ret (FromScripts args)
  end.

(** The fields of [debug.Helper] the command [choose] works on. *)
Record Helper := mkHelper {
  ScriptNames : list string;
  CurrentScript : Z;
}.

(** The loop of [choose] over the script names; [i] is the index of the
    first of [names]. *)
Fixpoint chooseFrom (names : list string) (i : Z) (arg : string) : option Z :=
  match names with
  | [] => None
  | file :: rest =>
      if String.eqb file arg then Some i else chooseFrom rest (i + 1) arg
  end.

(** The command [choose]: the helper it leaves and what it prints. *)
Definition choose (helper : Helper) (Args : list string)
  : Outcome (Helper * string) :=
  if negb (visitor.llen Args =? 1) then
    Ret (helper,
         "You must enter a script name (run scripts to list them)." +:+ newline)
  else
    arg ← visitor.index Args 0;
    match chooseFrom (ScriptNames helper) 0 arg with
    | Some i =>
        Ret ({| ScriptNames := ScriptNames helper; CurrentScript := i |},
             "--Changed to " +:+ arg +:+ "--" +:+ newline)
    | None => Ret (helper, "--Unknown script " +:+ arg +:+ "--")
    end.

(** The loop of the command [scripts] over the script names; [i] is the
    index of the first of [names].  Every line is printed with
    [Println]. *)
Fixpoint scriptsFrom (names : list string) (i current : Z) : list string :=
  match names with
  | [] => []
  | file :: rest =>
      let line := if i =? current then "> " else "  " in
      (line +:+ file) :: scriptsFrom rest (i + 1) current
  end.

(** The command [scripts] *)
Definition scripts (helper : Helper) : list string :=
  scriptsFrom (ScriptNames helper) 0 (CurrentScript helper).

(** [contains] *)
Fixpoint contains (arr : list Z) (val : Z) : bool :=
  match arr with
  | [] => false
  | e :: rest => if e =? val then true else contains rest val
  end.

(** [strings.Split(s, "\n")] *)
Fixpoint splitLines (s : string) : list string :=
  match s with
  | EmptyString => [EmptyString]
  | String a rest =>
      if Ascii.eqb a "010"%char then EmptyString :: splitLines rest
      else
        match splitLines rest with
        | first :: others => String a first :: others
        | [] => [String a EmptyString]
        end
  end.

Fixpoint spaces (n : nat) : string :=
  match n with
  | O => EmptyString
  | Datatypes.S n' => String " "%char (spaces n')
  end.

(** [fmt.Sprintf("%3d ", n)] *)
Definition Sprintf3d (n : Z) : string :=
  let digits := Itoa n in
  spaces (3 - String.length digits) +:+ digits +:+ " ".

(** The loop of the command [list] over the lines of the program; [i] is
    the index of the first of [progLines].  Every line is printed with
    [Println]. *)
Fixpoint listing (current : Z) (bps : list Z) (progLines : list string) (i : Z)
  : list string :=
  match progLines with
  | [] => []
  | line :: rest =>
      let pfx := if i + 1 =? current then ">" else " " in
      let pfx := pfx +:+ (if contains bps (i + 1) then "x" else " ") in
      let pfx := pfx +:+ Sprintf3d (i + 1) in
      (pfx +:+ line) :: listing current bps rest (i + 1)
  end.

(** A printed line of the listing without its first six characters. *)
Definition dropGutter (line : string) : string :=
  substring 6 (String.length line - 6) line.

(** The command [list], for the current line, the break points and the
    source of the current script. *)
Definition list_source (current : Z) (bps : list Z) (script : string)
  : list string :=
  "--Programm--" :: listing current bps (splitLines script) 0.

(** [namedVariable]; [V] is [vm.Variable]. *)
Record namedVariable (V : Type) := mkNamedVariable {
  name : string;
  val : V;
}.
Arguments mkNamedVariable {V} name val.
Arguments name {V} n.
Arguments val {V} n.

Section SortVariables.

Context {V : Type}.

(** [for k, v := range vars]: the entries of the map in the order the
    runtime picks. *)
Variable rangeOf : gmap string V -> list (string * V).

(** [sort.Slice] of the Go library. *)
Variable sortSlice :
  (namedVariable V -> namedVariable V -> bool) ->
  list (namedVariable V) -> list (namedVariable V).

(** The comparison [sorted[i].name < sorted[j].name]: the order of Go
    strings, byte by byte. *)
Definition byName (a b : namedVariable V) : bool :=
  String.ltb (name a) (name b).

(** [sortVariables] *)
Definition sortVariables (vars : gmap string V) : list (namedVariable V) :=
  let sorted :=
    foldl (fun sorted '(k, v) => sorted ++ [mkNamedVariable k v]) []
      (rangeOf vars) in
  sortSlice byName sorted.

End SortVariables.

(** What [sort.Slice] is documented to ask of [less]: a strict weak
    order. *)
Definition strictWeak {A} (less : A -> A -> bool) : Prop :=
  (forall a, less a a = false)
  /\ (forall a b c, less a b = true -> less b c = true -> less a c = true)
  /\ (forall a b c, less a b = false -> less b c = false -> less a c = false).

(** [ordered R l]: every element of [l] is in relation [R] to every
    element behind it. *)
Inductive ordered {A} (R : A -> A -> Prop) : list A -> Prop :=
| ordered_nil : ordered R []
| ordered_cons a l : Forall (R a) l -> ordered R l -> ordered R (a :: l).

(** What [sort.Slice] is documented to do: the slice holds the same
    elements, no element before one that is less than it. *)
Definition sorts {A}
  (sortSlice : (A -> A -> bool) -> list A -> list A) : Prop :=
  forall less l,
    sortSlice less l ≡ₚ l
    /\ (strictWeak less ->
        ordered (fun a b => less b a = false) (sortSlice less l)).

(** What the runtime guarantees of [range] over a map: every entry once. *)
Definition ranges {V} (rangeOf : gmap string V -> list (string * V)) : Prop :=
  forall m, rangeOf m ≡ₚ map_to_list m.

(** A sort to run [sortVariables] with: insertion into a sorted list. *)
Fixpoint insertSorted {A} (less : A -> A -> bool) (x : A) (l : list A) : list A :=
  match l with
  | [] => [x]
  | y :: rest => if less x y then x :: y :: rest else y :: insertSorted less x rest
  end.

Definition insertionSort {A} (less : A -> A -> bool) (l : list A) : list A :=
  foldr (insertSorted less) [] l.

End debugger.

Module debuggerExamples.

Import debugger.

(** Two scripts, the first of them the current one. *)
Definition twoScripts : Helper :=
  {| ScriptNames := ["a.yolol"; "b.nolol"]; CurrentScript := 0 |}.

(** A script of two lines. *)
Definition twoLines : string := "a=1" +:+ newline +:+ "goto 1".

(** The variables of a machine. *)
Definition someVars : gmap string Z := {["b" := 2; "a" := 1; "ab" := 3]}.

End debuggerExamples.

(** ** The machine that runs the lines

    Modelled from the spec: the virtual machine is another package of the
    repository, and section 1 leaves it outside the core.  What the
    specification says of a program at run time is what the model takes:
    the program is a sequence of lines, each a sequence of flat statements
    run in order (section 6); a jump goes to the line that carries the
    label (section 4.3, step 6); after the last line execution wraps to
    the top (section 4.3, step 1).  The specification does not say what
    becomes of a statement that fails at run time, a division by zero;
    the rule taken is that of the base language: the failure ends the
    line, and the machine goes on with the next line.  The debugger
    reports such a failure by its line ([prepareVM] of [cmd/debug.go]).
    What one statement does to the variables is the business of the
    machine's evaluator, a parameter here; it depends on the statement
    and the variables alone, so that no statement reads the number of its
    line or waits. *)

Module machine.

Import ast parser nast nolol.

Section Machine.

(** The variables of the machine. *)
Variable Store : Type.

(** What a statement does when it is run: it goes on to the next
    statement, it jumps to a label, or it fails, and a statement that
    fails ends its line: the statements behind it on the line are not
    run. *)
Inductive Effect :=
| Next (store : Store)
| Jump (label : string) (store : Store)
| Abort (store : Store).

Variable run : Statement -> Store -> Effect.

(** The first statement of the lines, with the rest of its line and the
    lines behind it. *)
Fixpoint firstStmt (lines : list StatementLine)
  : option (Statement * list Statement * list StatementLine) :=
  match lines with
  | [] => None
  | l :: rest =>
      match Statements l with
      | s :: ss => Some (s, ss, rest)
      | [] => firstStmt rest
      end
  end.

(** Modelled from the spec: the statement to run next, [cur] being what is
    left of the current line and [following] the lines behind it: at the
    end of the program execution wraps to the top. *)
Definition fetch (prog : list StatementLine) (cur : list Statement)
  (following : list StatementLine)
  : option (Statement * list Statement * list StatementLine) :=
  match cur with
  | s :: ss => Some (s, ss, following)
  | [] =>
      match firstStmt following with
      | Some r => Some r
      | None => firstStmt prog
      end
  end.

(** Modelled from the spec: the line a jump to [label] goes to, with the
    lines behind it: the first line that carries the label. *)
Fixpoint lineOf (label : string) (lines : list StatementLine)
  : option (StatementLine * list StatementLine) :=
  match lines with
  | [] => None
  | l :: rest =>
      if negb (String.eqb (Label l) "") && String.eqb (Label l) label
      then Some (l, rest)
      else lineOf label rest
  end.

(** What is seen of a run: the statements run, in order, each with the
    variables it leaves. *)
Definition Trace : Type := list (Statement * Store).

Definition storeOf (e : Effect) : Store :=
  match e with
  | Next store | Jump _ store | Abort store => store
  end.

(** Modelled from the spec: [fuel] statements of a run.  A jump to a label
    that no line carries ends the run. *)
Fixpoint exec (fuel : nat) (prog : list StatementLine) (cur : list Statement)
  (following : list StatementLine) (store : Store) : Trace :=
  match fuel with
  | O => []
  | Datatypes.S fuel' =>
      match fetch prog cur following with
      | None => []
      | Some (s, ss, following') =>
          let e := run s store in
          (s, storeOf e) ::
          match e with
          | Next store' => exec fuel' prog ss following' store'
          | Jump label store' =>
              match lineOf label prog with
              | Some (l, rest) => exec fuel' prog (Statements l) rest store'
              | None => []
              end
          | Abort store' => exec fuel' prog [] following' store'
          end
      end
  end.

(** The first [fuel] statements the program runs from its first line. *)
Definition behaviour (fuel : nat) (prog : list StatementLine) (store : Store)
  : Trace :=
  exec fuel prog [] prog store.

(** A statement that does not fail, whatever the variables. *)
Definition sound (s : Statement) : Prop :=
  forall store, run s store <> Abort (storeOf (run s store)).

(** No statement of the lines fails. *)
Definition neverFails (lines : list StatementLine) : Prop :=
  Forall sound (flatten lines).

(** The same run on the lines written in one sequence, every label
    before the statement it is attached to. *)
Fixpoint firstItem (items : list Item) : option (Statement * list Item) :=
  match items with
  | [] => None
  | LabelMark _ :: rest => firstItem rest
  | Stmt s :: rest => Some (s, rest)
  end.

Fixpoint afterMark (label : string) (items : list Item) : option (list Item) :=
  match items with
  | [] => None
  | LabelMark l :: rest =>
      if String.eqb l label then Some rest else afterMark label rest
  | Stmt _ :: rest => afterMark label rest
  end.

Fixpoint execItems (fuel : nat) (all cur : list Item) (store : Store) : Trace :=
  match fuel with
  | O => []
  | Datatypes.S fuel' =>
      match (match firstItem cur with
             | Some r => Some r
             | None => firstItem all
             end) with
      | None => []
      | Some (s, rest) =>
          let e := run s store in
          (s, storeOf e) ::
          match e with
          | Next store' => execItems fuel' all rest store'
          | Jump label store' =>
              match afterMark label all with
              | Some rest' => execItems fuel' all rest' store'
              | None => []
              end
          | Abort store' => []
          end
      end
  end.

End Machine.

Arguments Next {Store} store.
Arguments Jump {Store} label store.
Arguments Abort {Store} store.

(** The rest of the program from a point of the run: what is left of the
    current line, then the lines behind it. *)
Definition residue (cur : list Statement) (following : list StatementLine)
  : list Item :=
  map Stmt cur ++ flattenLabelled following.

(** A runtime to run examples with.  Numbers are integers; a variable
    that was never written holds 0; a division by zero fails. *)
Fixpoint eval (store : gmap string Z) (e : Expression) : option Z :=
  match e with
  | NumberConstant n => Z.of_int <$> NilZero.int_of_string n
  | Dereference v => Some (default 0 (store !! v))
  | BinaryOperation op a b =>
      x ← eval store a;
      y ← eval store b;
      if String.eqb op "+" then Some (x + y)
      else if String.eqb op "/" then
        if y =? 0 then None else Some (x / y)
      else None
  | _ => None
  end.

Definition runSample (s : Statement) (store : gmap string Z)
  : Effect (gmap string Z) :=
  match s with
  | Assignment v _ e =>
      match eval store e with
      | Some n => Next (<[v := n]> store)
      | None => Abort store
      end
  | GoToLabelStatement label => Jump label store
  | _ => Next store
  end.

End machine.

Module machineExamples.

Import ast parser nast nolol examples.

(** A division by zero on one line and an assignment on the next. *)
Definition divide : Statement :=
  Assignment "a" "=" (BinaryOperation "/" (NumberConstant "1") (NumberConstant "0")).

Definition twoSteps : list StatementLine :=
  [sl "" [divide] false false; sl "" [assign "b" "2"] false false].

Definition oneStep : list StatementLine :=
  [sl "" [divide; assign "b" "2"] false false].

(** A loop over two lines that are merged. *)
Definition counting : list StatementLine :=
  [sl "top" [Assignment "a" "=" (BinaryOperation "+" (Dereference "a") (NumberConstant "1"))]
      false false;
   sl "" [GoToLabelStatement "top"] false false].

Definition countingMerged : list StatementLine :=
  [sl "top" [Assignment "a" "=" (BinaryOperation "+" (Dereference "a") (NumberConstant "1"));
             GoToLabelStatement "top"] false false].

End machineExamples.

(** * Properties *)

(** ** The line packer *)

Module PackerFacts.

Import ast parser nast nolol examples.

Lemma flattenLabelled_app a b :
  flattenLabelled (a ++ b) = flattenLabelled a ++ flattenLabelled b.
Proof. unfold flattenLabelled. now rewrite List.map_app, List.concat_app. Qed.

Lemma flatten_app a b : flatten (a ++ b) = flatten a ++ flatten b.
Proof. unfold flatten. now rewrite List.map_app, List.concat_app. Qed.

Lemma flatten_snoc a l : flatten (a ++ [l]) = flatten a ++ Statements l.
Proof. rewrite flatten_app. unfold flatten at 2. simpl. now rewrite app_nil_r. Qed.

Lemma joinGroup_nil l : joinGroup l [] = openLine l.
Proof. unfold joinGroup, setStatements, openLine. simpl. now rewrite app_nil_r. Qed.

Lemma joinGroup_snoc l tl nextline :
  setStatements (joinGroup l tl)
    (Statements (joinGroup l tl) ++ Statements nextline)
  = joinGroup l (tl ++ [nextline]).
Proof.
  unfold joinGroup. rewrite flatten_snoc, app_assoc. reflexivity.
Qed.

Lemma setStatements_rollback cur stmts :
  setStatements (setStatements cur stmts) (Statements cur) = cur.
Proof. destruct cur as [[p s] lbl pos bol eol]. reflexivity. Qed.

Lemma fitsb_of_length c maxlen cur n :
  getLengthOfLine c (Line cur) = Ret n -> (maxlen <? n) = false ->
  fitsb c maxlen cur = true.
Proof. unfold fitsb. intros -> H. apply Z.leb_le. apply Z.ltb_ge in H. lia. Qed.

Lemma tooLongb_of_length c maxlen cur n :
  getLengthOfLine c (Line cur) = Ret n -> (maxlen <? n) = true ->
  tooLongb c maxlen cur = true.
Proof. unfold tooLongb. now intros -> H. Qed.

Section Grouping.

Variable StartOf EndOf : StatementLine -> ast.Position.
Variable c : Converter.
Variable maxlen : Z.

Lemma absorb_nil next ne cur :
  absorb StartOf EndOf c maxlen next ne cur [] = next (ne ++ [cur]) [].
Proof. reflexivity. Qed.

Lemma absorb_cons next ne cur nextline rest' :
  absorb StartOf EndOf c maxlen next ne cur (nextline :: rest')
  = (currlen ← getLengthOfLine c (Line cur);
     if maxlen <? currlen then
       Ret (ne ++ [cur],
            Some {| Message := lineTooLong;
                    StartPosition := StartOf cur;
                    EndPosition := EndOf cur |})
     else if absorbable nextline then
       let current' :=
         setStatements cur (Statements cur ++ Statements nextline) in
       newlen ← getLengthOfLine c (Line current');
       if maxlen <? newlen then
         next (ne ++ [setStatements current' (Statements cur)])
              (nextline :: rest')
       else if HasEOL nextline then next (ne ++ [current']) rest'
       else absorb StartOf EndOf c maxlen next ne current' rest'
     else next (ne ++ [cur]) (nextline :: rest')).
Proof. reflexivity. Qed.

Lemma mergeLoop_cons ne l rest :
  mergeLoop StartOf EndOf c maxlen ne (l :: rest)
  = if HasEOL l then
      mergeLoop StartOf EndOf c maxlen (ne ++ [openLine l]) rest
    else
      absorb StartOf EndOf c maxlen
        (fun ne r => mergeLoop StartOf EndOf c maxlen ne r) ne (openLine l) rest.
Proof. reflexivity. Qed.

Lemma absorb_Packed next :
  forall rest l tl ne out,
    nextPacks c maxlen next (length rest) ->
    HasEOL l = false ->
    Forall (fun x => absorbable x = true) tl ->
    Forall (fun x => HasEOL x = false) tl ->
    (tl <> [] -> fitsb c maxlen (joinGroup l tl) = true) ->
    absorb StartOf EndOf c maxlen next ne (joinGroup l tl) rest = Ret (out, None) ->
    exists o, out = ne ++ o /\ Packed c maxlen (l :: tl ++ rest) o.
Proof.
  assert (Hnoeol : forall tl : list StatementLine,
             Forall (fun x => HasEOL x = false) tl ->
             forall pre x post, tl = pre ++ x :: post -> HasEOL x = true ->
                                post = []).
  { intros tl Hall pre x post -> Hx. apply Forall_app in Hall as [_ Hall].
    inversion Hall; congruence. }
  induction rest as [|nextline rest' IH];
    intros l tl ne out Hnext Hl Habs Heol Hfit H.
  - rewrite absorb_nil in H. apply Hnext in H as (o & -> & Ho); [|lia].
    exists (joinGroup l tl :: o). split; [now rewrite <- app_assoc|].
    inversion Ho; subst; [|congruence].
    eapply Packed_group; [reflexivity| |constructor].
    split; try (intros; congruence); eauto.
  - rewrite absorb_cons in H.
    destruct (getLengthOfLine c (Line (joinGroup l tl))) as [currlen|] eqn:Ecur;
      unfold mbind, Outcome_bind in H; [|discriminate].
    destruct (maxlen <? currlen) eqn:Elen; [discriminate|].
    pose proof (fitsb_of_length _ _ _ _ Ecur Elen) as Hcur.
    destruct (absorbable nextline) eqn:Enext.
    2:{ apply Hnext in H as (o & -> & Ho); [|lia].
        exists (joinGroup l tl :: o). split; [now rewrite <- app_assoc|].
        eapply Packed_group; [reflexivity| |exact Ho].
        split; try (intros; congruence); eauto. }
    cbv zeta in H. rewrite joinGroup_snoc in H.
    destruct (getLengthOfLine c (Line (joinGroup l (tl ++ [nextline]))))
      as [newlen|] eqn:Enew; [|discriminate].
    destruct (maxlen <? newlen) eqn:Enewlen.
    + rewrite <- joinGroup_snoc, setStatements_rollback in H.
      apply Hnext in H as (o & -> & Ho); [|lia].
      exists (joinGroup l tl :: o). split; [now rewrite <- app_assoc|].
      eapply Packed_group; [reflexivity| |exact Ho].
      split; try (intros; congruence); eauto.
      intros h rest'' [= <- <-] _ _ _.
      eapply tooLongb_of_length; eauto.
    + pose proof (fitsb_of_length _ _ _ _ Enew Enewlen) as Hnew.
      destruct (HasEOL nextline) eqn:Eeol.
      * apply Hnext in H as (o & -> & Ho); [|simpl; lia].
        exists (joinGroup l (tl ++ [nextline]) :: o).
        split; [now rewrite <- app_assoc|].
        eapply Packed_group; [|
          |exact Ho].
        { now rewrite <- app_assoc. }
        split; try (intros; congruence); eauto.
        -- apply Forall_app. split; [assumption|]. now constructor.
        -- intros pre x post Heq Hx.
           destruct post as [|y post] using rev_ind; [reflexivity|].
           rewrite app_comm_cons, app_assoc in Heq.
           apply app_inj_tail in Heq as [-> _].
           apply Forall_app in Heol as [_ Heol]. inversion Heol; congruence.
        -- intros h rest'' _ _ Hall. apply Forall_app in Hall as [_ Hall].
           inversion Hall; congruence.
      * apply IH in H as (o & -> & Ho); eauto.
        -- exists o. split; [reflexivity|]. now rewrite <- app_assoc in Ho.
        -- intros ne' r out' Hr. apply Hnext. simpl. lia.
        -- apply Forall_app. split; [assumption|]. now constructor.
        -- apply Forall_app. split; [assumption|]. now constructor.
Qed.

Lemma mergeLoop_Packed :
  forall n lines ne out,
    (length lines <= n)%nat ->
    mergeLoop StartOf EndOf c maxlen ne lines = Ret (out, None) ->
    exists o, out = ne ++ o /\ Packed c maxlen lines o.
Proof.
  induction n as [|n IH]; intros [|l rest] ne out Hlen H; simpl in Hlen;
    try lia.
  - injection H as <-. exists []. split; [now rewrite app_nil_r|constructor].
  - injection H as <-. exists []. split; [now rewrite app_nil_r|constructor].
  - rewrite mergeLoop_cons in H. destruct (HasEOL l) eqn:Eeol.
    + apply IH in H as (o & -> & Ho); [|lia].
      exists (joinGroup l [] :: o).
      split; [now rewrite joinGroup_nil, <- app_assoc|].
      eapply Packed_group; [reflexivity| |exact Ho].
      split; try (intros; congruence); auto.
      intros pre x post Heq. now destruct pre.
    + rewrite <- joinGroup_nil in H.
      apply absorb_Packed in H; auto; try congruence.
      intros ne' r out' Hr. apply IH. lia.
Qed.

End Grouping.

Lemma Statements_joinGroup l tl :
  Statements (joinGroup l tl) = Statements l ++ flatten tl.
Proof. reflexivity. Qed.

Lemma lineItems_joinGroup l tl :
  Forall (fun x => absorbable x = true) tl ->
  lineItems (joinGroup l tl) = lineItems l ++ flattenLabelled tl.
Proof.
  intros Hall. unfold lineItems at 1 2. rewrite Statements_joinGroup.
  change (Label (joinGroup l tl)) with (Label l).
  rewrite List.map_app, <- app_assoc. do 2 f_equal.
  induction Hall as [|x tl Hx _ IH]; [reflexivity|].
  change (x :: tl) with ([x] ++ tl).
  rewrite flatten_app, flattenLabelled_app, List.map_app, IH. f_equal.
  unfold flatten, flattenLabelled, lineItems. simpl. rewrite !app_nil_r.
  unfold absorbable in Hx. apply andb_true_iff in Hx as [-> _]. reflexivity.
Qed.

Lemma Packed_flatten c maxlen lines out :
  Packed c maxlen lines out ->
  flatten out = flatten lines /\ flattenLabelled out = flattenLabelled lines.
Proof.
  induction 1 as [|l tl rest lines out -> Hok _ [IH1 IH2]]; [now split|].
  change (joinGroup l tl :: out) with ([joinGroup l tl] ++ out).
  change (l :: tl ++ rest) with ([l] ++ tl ++ rest).
  rewrite !flatten_app, !flattenLabelled_app, IH1, IH2.
  unfold flatten at 1 3, flattenLabelled at 1 3. simpl. rewrite !app_nil_r.
  rewrite Statements_joinGroup, lineItems_joinGroup
    by apply (members_absorbable _ _ _ _ _ Hok).
  now rewrite <- !app_assoc.
Qed.

Section Prefix.

Variable StartOf EndOf : StatementLine -> ast.Position.
Variable c : Converter.
Variable maxlen : Z.

Lemma absorb_prefix next :
  forall rest ne cur out e,
    (forall ne' r out' e', (length r <= length rest)%nat ->
       next ne' r = Ret (out', e') ->
       exists sfx, flatten ne' ++ flatten r = flatten out' ++ sfx) ->
    absorb StartOf EndOf c maxlen next ne cur rest = Ret (out, e) ->
    exists sfx,
      flatten ne ++ Statements cur ++ flatten rest = flatten out ++ sfx.
Proof.
  induction rest as [|nextline rest' IH]; intros ne cur out e Hnext H.
  - rewrite absorb_nil in H. apply Hnext in H as [sfx H]; [|lia].
    exists sfx. now rewrite <- H, flatten_snoc, <- app_assoc.
  - rewrite absorb_cons in H.
    destruct (getLengthOfLine c (Line cur)) as [currlen|];
      unfold mbind, Outcome_bind in H; [|discriminate].
    destruct (maxlen <? currlen).
    { injection H as <- <-. exists (flatten (nextline :: rest')).
      now rewrite flatten_snoc, <- app_assoc. }
    destruct (absorbable nextline).
    2:{ apply Hnext in H as [sfx H]; [|lia].
        exists sfx. now rewrite <- H, flatten_snoc, <- app_assoc. }
    cbv zeta in H.
    destruct (getLengthOfLine c _) as [newlen|]; [|discriminate].
    destruct (maxlen <? newlen).
    + rewrite setStatements_rollback in H. apply Hnext in H as [sfx H]; [|lia].
      exists sfx. now rewrite <- H, flatten_snoc, <- app_assoc.
    + change (nextline :: rest') with ([nextline] ++ rest').
      rewrite (flatten_app [nextline]).
      replace (flatten [nextline]) with (Statements nextline)
        by (unfold flatten; simpl; now rewrite app_nil_r).
      destruct (HasEOL nextline).
      * apply Hnext in H as [sfx H]; [|simpl; lia].
        exists sfx. rewrite <- H, flatten_snoc.
        change (Statements (setStatements cur (Statements cur ++ Statements nextline)))
          with (Statements cur ++ Statements nextline).
        now rewrite <- !app_assoc.
      * apply IH in H as [sfx H].
        -- exists sfx. rewrite <- H.
           change (Statements (setStatements cur (Statements cur ++ Statements nextline)))
             with (Statements cur ++ Statements nextline).
           now rewrite <- !app_assoc.
        -- intros ne' r out' e' Hr. apply Hnext. simpl. lia.
Qed.

Lemma mergeLoop_prefix :
  forall n lines ne out e,
    (length lines <= n)%nat ->
    mergeLoop StartOf EndOf c maxlen ne lines = Ret (out, e) ->
    exists sfx, flatten ne ++ flatten lines = flatten out ++ sfx.
Proof.
  induction n as [|n IH]; intros [|l rest] ne out e Hlen H; simpl in Hlen;
    try lia.
  - injection H as <- <-. now exists [].
  - injection H as <- <-. now exists [].
  - rewrite mergeLoop_cons in H.
    change (l :: rest) with ([l] ++ rest). rewrite (flatten_app [l]).
    replace (flatten [l]) with (Statements l)
      by (unfold flatten; simpl; now rewrite app_nil_r).
    destruct (HasEOL l).
    + apply IH in H as [sfx H]; [|lia]. exists sfx.
      rewrite <- H, flatten_snoc. now rewrite <- !app_assoc.
    + apply absorb_prefix in H; [exact H|].
      intros ne' r out' e' Hr. apply IH. lia.
Qed.

End Prefix.

(** Whatever [mergeStatementElements] returns, an error beside it or
    not, holds the statements of the input in order, up to where the scan
    stopped. *)
Lemma merge_returns_a_prefix StartOf EndOf c lines out e :
  mergeStatementElements StartOf EndOf c lines = Ret (out, e) ->
  exists sfx, flatten lines = flatten out ++ sfx.
Proof.
  intros H. unfold mergeStatementElements in H.
  now apply (mergeLoop_prefix _ _ _ _ (length lines)) in H.
Qed.

(** When the merge pass succeeds, merging has changed neither the
    statements nor where a jump lands: the flattened statement sequence of
    the output of [mergeStatementElements] equals that of its input, in
    order, and so does the sequence with every label standing before the
    statement it is attached to. *)
Lemma merge_keeps_statements StartOf EndOf c lines out :
  mergeStatementElements StartOf EndOf c lines = Ret (out, None) ->
  flatten out = flatten lines /\ flattenLabelled out = flattenLabelled lines.
Proof.
  intros H. unfold mergeStatementElements in H.
  apply (mergeLoop_Packed _ _ _ _ (length lines)) in H as (o & -> & Ho);
    [|lia].
  simpl. eapply Packed_flatten, Ho.
Qed.

Lemma merge_keeps_statements_witness :
  flatten fourLinesMerged = flatten fourLines
  /\ flattenLabelled fourLinesMerged = flattenLabelled fourLines.
Proof.
  apply (merge_keeps_statements Position Position NewConverter).
  vm_compute. reflexivity.
Defined.

(** C5.  The absorb step obeys the boundary and rollback rules: (1) a
    following line with a label or the must-start marker is not absorbed:
    the current line, once measured, is closed as it is and the next
    physical line starts at that line; (2) a speculative append over the
    budget is rolled back: the line is closed with exactly the statements
    it had, and the next physical line starts at the line that did not
    fit; (3) absorbing a must-end line closes the physical line after it;
    (4) a line with the must-end marker is closed at once and absorbs
    nothing; (5) over a whole successful run the output is the input cut
    into groups that obey these rules ([Packed]). *)
Theorem absorb_boundary_and_rollback StartOf EndOf c :
  (forall maxlen next ne cur nextline rest,
      Label nextline <> "" \/ HasBOL nextline = true ->
      absorb StartOf EndOf c maxlen next ne cur (nextline :: rest)
      = (currlen ← getLengthOfLine c (Line cur);
         if maxlen <? currlen then
           Ret (ne ++ [cur],
                Some {| Message := lineTooLong;
                        StartPosition := StartOf cur;
                        EndPosition := EndOf cur |})
         else next (ne ++ [cur]) (nextline :: rest)))
  /\ (forall maxlen next ne cur nextline rest n m,
      getLengthOfLine c (Line cur) = Ret n -> n <= maxlen ->
      Label nextline = "" -> HasBOL nextline = false ->
      getLengthOfLine c
        (Line (setStatements cur (Statements cur ++ Statements nextline)))
        = Ret m ->
      maxlen < m ->
      absorb StartOf EndOf c maxlen next ne cur (nextline :: rest)
      = next (ne ++ [cur]) (nextline :: rest))
  /\ (forall maxlen next ne cur nextline rest n m,
      getLengthOfLine c (Line cur) = Ret n -> n <= maxlen ->
      Label nextline = "" -> HasBOL nextline = false ->
      getLengthOfLine c
        (Line (setStatements cur (Statements cur ++ Statements nextline)))
        = Ret m ->
      m <= maxlen ->
      HasEOL nextline = true ->
      absorb StartOf EndOf c maxlen next ne cur (nextline :: rest)
      = next (ne ++ [setStatements cur (Statements cur ++ Statements nextline)])
             rest)
  /\ (forall maxlen ne l rest,
      HasEOL l = true ->
      mergeLoop StartOf EndOf c maxlen ne (l :: rest)
      = mergeLoop StartOf EndOf c maxlen (ne ++ [openLine l]) rest)
  /\ (forall lines out,
      mergeStatementElements StartOf EndOf c lines = Ret (out, None) ->
      Packed c (maxLineLength c) lines out).
Proof.
  repeat split.
  - intros maxlen next ne cur nextline rest Hb.
    rewrite absorb_cons.
    replace (absorbable nextline) with false; [reflexivity|].
    unfold absorbable. destruct Hb as [Hb| ->].
    + apply String.eqb_neq in Hb. now rewrite Hb.
    + now rewrite andb_false_r.
  - intros maxlen next ne cur nextline rest n m Hn Hle Hl Hb Hm Hlt.
    rewrite absorb_cons, Hn. unfold mbind, Outcome_bind.
    replace (maxlen <? n) with false by (symmetry; apply Z.ltb_ge; lia).
    unfold absorbable. rewrite Hl, Hb. cbv zeta. simpl andb. cbv iota.
    rewrite Hm. replace (maxlen <? m) with true by (symmetry; apply Z.ltb_lt; lia).
    now rewrite setStatements_rollback.
  - intros maxlen next ne cur nextline rest n m Hn Hle Hl Hb Hm Hlt Heol.
    rewrite absorb_cons, Hn. unfold mbind, Outcome_bind.
    replace (maxlen <? n) with false by (symmetry; apply Z.ltb_ge; lia).
    unfold absorbable. rewrite Hl, Hb. cbv zeta. simpl andb. cbv iota.
    rewrite Hm. replace (maxlen <? m) with false by (symmetry; apply Z.ltb_ge; lia).
    now rewrite Heol.
  - intros maxlen ne l rest Heol. now rewrite mergeLoop_cons, Heol.
  - intros lines out H. unfold mergeStatementElements in H.
    apply (mergeLoop_Packed _ _ _ _ (length lines)) in H as (o & -> & Ho);
      [exact Ho|lia].
Qed.

Lemma maxLineLength_values c :
  maxLineLength c = if usesTimeTracking c then 66 else 70.
Proof. unfold maxLineLength. now destruct (usesTimeTracking c). Qed.

(** C2.  The budget is 70, and 66 with time-tracking; but the merge pass
    does not keep every line it produces within it: the last line of a
    program is never measured.  Here the second, last line takes 86
    characters and is emitted without an error. *)
Theorem last_line_over_budget_is_emitted :
  (forall c, maxLineLength c = if usesTimeTracking c then 66 else 70)
  /\ getLengthOfLine NewConverter (Line (sl "" [overBudget] false false))
     = Ret 86
  /\ mergeStatementElements Position Position NewConverter
       [sl "x" [assign "a" "1"] false false; sl "y" [overBudget] false false]
     = Ret ([sl "x" [assign "a" "1"] false false;
             sl "y" [overBudget] false false], None).
Proof.
  split; [exact maxLineLength_values|]. split; vm_compute; reflexivity.
Qed.

(** C4.  A line that alone is over the budget is reported only when the
    inner loop measures it: the same line of 86 characters is reported,
    with the span of the line, when another line follows it and it has no
    must-end marker (1), and is emitted without an error when it carries
    the must-end marker (2) or is the last line (3). *)
Theorem over_budget_line_is_not_always_reported :
  mergeStatementElements Position Position NewConverter
    [sl "" [overBudget] false false; sl "" [assign "a" "1"] false false]
  = Ret ([sl "" [overBudget] false false],
         Some {| Message := lineTooLong;
                 StartPosition := Position (sl "" [overBudget] false false);
                 EndPosition := Position (sl "" [overBudget] false false) |})
  /\ mergeStatementElements Position Position NewConverter
       [sl "" [overBudget] false true; sl "" [assign "a" "1"] false false]
     = Ret ([sl "" [overBudget] false true;
             sl "" [assign "a" "1"] false false], None)
  /\ mergeStatementElements Position Position NewConverter
       [sl "" [overBudget] false false]
     = Ret ([sl "" [overBudget] false false], None).
Proof. repeat split; vm_compute; reflexivity. Qed.

(** Where the inner loop does measure the line, the error is returned:
    a first line over the budget, without the must-end marker and with a
    line after it, fails with the span of that line. *)
Lemma measured_line_is_reported StartOf EndOf c l nextline rest n :
  HasEOL l = false ->
  getLengthOfLine c (Line (openLine l)) = Ret n ->
  maxLineLength c < n ->
  mergeStatementElements StartOf EndOf c (l :: nextline :: rest)
  = Ret ([openLine l],
         Some {| Message := lineTooLong;
                 StartPosition := StartOf (openLine l);
                 EndPosition := EndOf (openLine l) |}).
Proof.
  intros Heol Hn Hlt. unfold mergeStatementElements.
  rewrite mergeLoop_cons, Heol, absorb_cons, Hn.
  unfold mbind, Outcome_bind.
  now replace (maxLineLength c <? n) with true by (symmetry; apply Z.ltb_lt; lia).
Qed.

End PackerFacts.

(** ** The packer and the machine that runs the lines *)

Module MachineFacts.

Import ast parser nast nolol examples machine machineExamples.

Section Runs.

Variable Store : Type.
Variable run : Statement -> Store -> Effect Store.

Lemma flatten_cons l rest : flatten (l :: rest) = Statements l ++ flatten rest.
Proof. reflexivity. Qed.

Lemma flattenLabelled_cons l rest :
  flattenLabelled (l :: rest) = lineItems l ++ flattenLabelled rest.
Proof. reflexivity. Qed.

Lemma firstItem_stmts ss items :
  firstItem (map Stmt ss ++ items) =
  match ss with
  | s :: ss' => Some (s, map Stmt ss' ++ items)
  | [] => firstItem items
  end.
Proof. now destruct ss. Qed.

Lemma firstItem_line l items :
  firstItem (lineItems l ++ items) = firstItem (map Stmt (Statements l) ++ items).
Proof. unfold lineItems. now destruct (String.eqb (Label l) ""). Qed.

(** The first statement of the sequence is the first statement of the
    lines. *)
Lemma firstStmt_items lines :
  firstItem (flattenLabelled lines) =
  match firstStmt lines with
  | Some (s, ss, rest) => Some (s, residue ss rest)
  | None => None
  end.
Proof.
  induction lines as [|l rest IH]; [reflexivity|].
  rewrite flattenLabelled_cons, firstItem_line, firstItem_stmts. simpl.
  destruct (Statements l) as [|s ss]; [exact IH | reflexivity].
Qed.

Lemma fetch_items prog cur following :
  match firstItem (residue cur following) with
  | Some r => Some r
  | None => firstItem (flattenLabelled prog)
  end =
  match fetch prog cur following with
  | Some (s, ss, rest) => Some (s, residue ss rest)
  | None => None
  end.
Proof.
  unfold residue, fetch. rewrite firstItem_stmts.
  destruct cur as [|s ss]; [|reflexivity].
  rewrite firstStmt_items.
  destruct (firstStmt following) as [[[s ss] rest]|]; [reflexivity|].
  apply firstStmt_items.
Qed.

Lemma afterMark_stmts label ss items :
  afterMark label (map Stmt ss ++ items) = afterMark label items.
Proof. induction ss as [|s ss IH]; [reflexivity | exact IH]. Qed.

(** The place of a label in the sequence is the head of the line that
    carries it. *)
Lemma lineOf_items label lines :
  afterMark label (flattenLabelled lines) =
  match lineOf label lines with
  | Some (l, rest) => Some (residue (Statements l) rest)
  | None => None
  end.
Proof.
  induction lines as [|l rest IH]; [reflexivity|].
  rewrite flattenLabelled_cons. unfold lineItems. simpl.
  destruct (String.eqb (Label l) ""); simpl.
  - rewrite afterMark_stmts. exact IH.
  - destruct (String.eqb (Label l) label); [reflexivity|].
    rewrite afterMark_stmts. exact IH.
Qed.

Lemma firstStmt_sound lines s ss rest :
  Forall (sound Store run) (flatten lines) -> firstStmt lines = Some (s, ss, rest) ->
  sound Store run s /\ Forall (sound Store run) ss /\ Forall (sound Store run) (flatten rest).
Proof.
  induction lines as [|l lines IH]; [discriminate|].
  rewrite flatten_cons. intros [Hl Hr]%Forall_app. simpl.
  destruct (Statements l) as [|s' ss'] eqn:E.
  - now apply IH.
  - intros [= <- <- <-]. apply Forall_cons in Hl as [? ?]. now split.
Qed.

Lemma fetch_sound prog cur following s ss rest :
  Forall (sound Store run) (flatten prog) -> Forall (sound Store run) cur ->
  Forall (sound Store run) (flatten following) ->
  fetch prog cur following = Some (s, ss, rest) ->
  sound Store run s /\ Forall (sound Store run) ss /\ Forall (sound Store run) (flatten rest).
Proof.
  intros Hp Hc Hf. unfold fetch. destruct cur as [|s' ss'].
  - destruct (firstStmt following) as [r|] eqn:E.
    + intros [= ->]. now apply (firstStmt_sound following).
    + intros H. now apply (firstStmt_sound prog).
  - intros [= <- <- <-]. apply Forall_cons in Hc as [? ?]. now split.
Qed.

Lemma lineOf_sound label lines l rest :
  Forall (sound Store run) (flatten lines) -> lineOf label lines = Some (l, rest) ->
  Forall (sound Store run) (Statements l) /\ Forall (sound Store run) (flatten rest).
Proof.
  induction lines as [|l' lines IH]; [discriminate|].
  rewrite flatten_cons. intros [Hl Hr]%Forall_app. simpl.
  destruct (negb (String.eqb (Label l') "") && String.eqb (Label l') label).
  - now intros [= <- <-].
  - now apply IH.
Qed.

(** As long as no statement fails, the lines run as their sequence
    does. *)
Lemma exec_items prog fuel : forall cur following store,
  Forall (sound Store run) (flatten prog) -> Forall (sound Store run) cur ->
  Forall (sound Store run) (flatten following) ->
  exec Store run fuel prog cur following store =
  execItems Store run fuel (flattenLabelled prog) (residue cur following) store.
Proof.
  induction fuel as [|fuel IH]; intros cur following store Hp Hc Hf;
    [reflexivity|].
  simpl. rewrite fetch_items.
  destruct (fetch prog cur following) as [[[s ss] rest]|] eqn:E; [|reflexivity].
  destruct (fetch_sound _ _ _ _ _ _ Hp Hc Hf E) as (Hs & Hss & Hrest).
  f_equal. specialize (Hs store).
  destruct (run s store) as [store'|label store'|store'].
  - now apply IH.
  - rewrite lineOf_items.
    destruct (lineOf label prog) as [[l rest']|] eqn:El; [|reflexivity].
    destruct (lineOf_sound _ _ _ _ Hp El). now apply IH.
  - now contradiction Hs.
Qed.

Lemma behaviour_items fuel prog store :
  neverFails Store run prog ->
  behaviour Store run fuel prog store =
  execItems Store run fuel (flattenLabelled prog) (flattenLabelled prog) store.
Proof.
  intros H. unfold behaviour. rewrite exec_items; [reflexivity| | |]; auto.
Qed.


End Runs.

Lemma counting_never_fails :
  neverFails (gmap string Z) runSample counting.
Proof.
  repeat constructor; intros store; simpl; discriminate.
Qed.



End MachineFacts.

(** ** The orchestrator *)

Module ConvertFacts.

Import ast parser nast nolol examples wrappers.

Section Shape.

Variable StartOf EndOf : StatementLine -> ast.Position.
Variable passes : Passes.

Lemma orReturn_Returned r k :
  (forall c prog res, k c prog = Ret res -> Returned res) ->
  forall res, orReturn r k = Ret res -> Returned res.
Proof.
  intros Hk res. destruct r as [[c prog] [e|]]; simpl.
  - intros [= <-]. constructor.
  - apply Hk.
Qed.

Lemma Convert_Returned c prog fs res :
  Convert StartOf EndOf passes c prog fs = Ret res -> Returned res.
Proof.
  unfold Convert. cbv zeta.
  repeat (apply orReturn_Returned; intros ? ? ?).
  destruct (mergeNololElements _ _ _ _) as [[merged [e|]]|];
    unfold mbind, Outcome_bind; try discriminate.
  { intros [= <-]. constructor. }
  repeat (apply orReturn_Returned; intros ? ? ?).
  destruct (if usesTimeTracking _ then _ else _) as [c' prog'].
  destruct (outLines _) as [lines|]; unfold mbind, Outcome_bind;
    try discriminate.
  destruct (20 <? _) eqn:E; intros [= <-].
  - apply TooLarge. now apply Z.ltb_lt.
  - apply Emitted. now apply Z.ltb_ge.
Qed.

(** A step of the chain in [Convert] and the same step in [compiled]. *)
Lemma orReturn_orFail r k k' (P : Outcome ConvertResult -> Outcome Compiled -> Prop) :
  (forall err, P (Ret (None, Some err)) (Ret (inr err))) ->
  (forall c prog, P (k c prog) (k' c prog)) ->
  P (orReturn r k) (orFail r k').
Proof. intros He Hk. destruct r as [[c prog] [e|]]; simpl; auto. Qed.

Lemma Convert_compiled c prog fs :
  Validated (Convert StartOf EndOf passes c prog fs)
            (compiled StartOf EndOf passes c prog fs).
Proof.
  unfold Convert, compiled. cbv zeta.
  repeat (apply orReturn_orFail; [constructor|intros ? ?]).
  destruct (mergeNololElements _ _ _ _) as [[merged [e|]]|];
    unfold mbind at 1 3, Outcome_bind at 1 3; try constructor.
  repeat (apply orReturn_orFail; [constructor|intros ? ?]).
  destruct (if usesTimeTracking _ then _ else _) as [c' prog'].
  destruct (outLines _) as [lines|]; unfold mbind, Outcome_bind;
    [|constructor].
  destruct (20 <? _) eqn:E.
  - apply V_too_large. now apply Z.ltb_lt.
  - apply V_emitted. now apply Z.ltb_ge.
Qed.

End Shape.

(** C3.  (1) Whenever the program [Convert] has compiled has more than 20
    lines, [Convert] returns: it does not panic, and what it returns is
    that program beside the error "too large", an ordinary error value
    whose span runs from line 1, column 1 to line 30, column 70.  (2) A
    program [Convert] returns without an error is the compiled program
    and has at most 20 lines.  (3) The validation adds no panic: [Convert]
    panics only where a step before it did. *)
Theorem Convert_line_ceiling StartOf EndOf passes c prog fs :
  (forall out,
      compiled StartOf EndOf passes c prog fs = Ret (inl out) ->
      20 < Z.of_nat (length (ast.Lines out)) ->
      Convert StartOf EndOf passes c prog fs
      = Ret (Some out, Some programTooLarge))
  /\ (Message programTooLarge
      = "Program is too large to be compiled into 20 lines of yolol."
      /\ StartPosition programTooLarge = {| PosLine := 1; Coloumn := 1 |}
      /\ EndPosition programTooLarge = {| PosLine := 30; Coloumn := 70 |})
  /\ (forall out,
      Convert StartOf EndOf passes c prog fs = Ret (Some out, None) ->
      compiled StartOf EndOf passes c prog fs = Ret (inl out)
      /\ Z.of_nat (length (ast.Lines out)) <= 20)
  /\ (forall msg,
      Convert StartOf EndOf passes c prog fs = Panic msg ->
      compiled StartOf EndOf passes c prog fs = Panic msg).
Proof.
  pose proof (Convert_compiled StartOf EndOf passes c prog fs) as H.
  split; [|split; [now repeat split|split]].
  - intros out Hc Hlen. rewrite Hc in H. inversion H; subst; [reflexivity|lia].
  - intros out Hr. rewrite Hr in H. inversion H; subst. now split.
  - intros msg Hp. rewrite Hp in H. now inversion H.
Qed.

(** C10.  (1) When the program compiled has more than 20 lines, [Convert]
    returns both values: the compiled program, whole, and the error of
    the ceiling.  (2) Where a step before the validation fails, [Convert]
    returns a nil program with the error of that step.  (3) So an error of
    [Convert] comes in two ways only: with no program, and it is the error
    of the step that failed; or with the compiled program of more than 20
    lines, and it is the error of the ceiling. *)
Theorem Convert_program_beside_error StartOf EndOf passes c prog fs :
  (forall out,
      compiled StartOf EndOf passes c prog fs = Ret (inl out) ->
      20 < Z.of_nat (length (ast.Lines out)) ->
      Convert StartOf EndOf passes c prog fs
      = Ret (Some out, Some programTooLarge))
  /\ (forall err,
      compiled StartOf EndOf passes c prog fs = Ret (inr err) ->
      Convert StartOf EndOf passes c prog fs = Ret (None, Some err))
  /\ (forall p err,
      Convert StartOf EndOf passes c prog fs = Ret (p, Some err) ->
      (p = None /\ compiled StartOf EndOf passes c prog fs = Ret (inr err))
      \/ exists out,
           p = Some out
           /\ compiled StartOf EndOf passes c prog fs = Ret (inl out)
           /\ err = programTooLarge
           /\ 20 < Z.of_nat (length (ast.Lines out))).
Proof.
  pose proof (Convert_compiled StartOf EndOf passes c prog fs) as H.
  split; [|split].
  - intros out Hc Hlen. rewrite Hc in H. inversion H; subst; [reflexivity|lia].
  - intros err Hc. rewrite Hc in H. now inversion H.
  - intros p err Hr. rewrite Hr in H. inversion H; subst.
    + now left.
    + right. now exists out.
Qed.

(** Twenty lines are emitted; with twenty-one the program comes beside the
    error; a pass that fails returns no program. *)
Lemma Convert_examples :
  Convert Position Position idPasses NewConverter (linesProgram 20) ∅
  = Ret (Some (linesCompiled 20), None)
  /\ compiled Position Position idPasses NewConverter (linesProgram 21) ∅
     = Ret (inl (linesCompiled 21))
  /\ Convert Position Position idPasses NewConverter (linesProgram 21) ∅
     = Ret (Some (linesCompiled 21), Some programTooLarge)
  /\ Convert Position Position failingPasses NewConverter (linesProgram 21) ∅
     = Ret (None, Some duplicateLabel).
Proof. repeat split; vm_compute; reflexivity. Qed.

End ConvertFacts.

(** ** The length estimator *)

Module EstimatorFacts.

Import ast parser nast nolol examples.

Lemma length_append (a b : string) :
  String.length (a +:+ b) = (String.length a + String.length b)%nat.
Proof. induction a as [|ch a IH]; simpl; [reflexivity|now rewrite IH]. Qed.

Lemma HasSuffixNewline_append (a : string) :
  HasSuffixNewline (a +:+ newline) = true.
Proof.
  induction a as [|ch a IH]; [reflexivity|].
  simpl. destruct (a +:+ newline) eqn:E; [|exact IH].
  destruct a; discriminate.
Qed.

(** The length [getLengthOfLine] takes of the printed text. *)
Lemma lineLength_append (a : string) :
  (if HasSuffixNewline (a +:+ newline) then len (a +:+ newline) - 1
   else len (a +:+ newline)) = len a.
Proof.
  rewrite HasSuffixNewline_append. unfold len. rewrite length_append.
  simpl. lia.
Qed.

Lemma Itoa_width n : 1 <= n <= 20 -> (String.length (Itoa n) <= 2)%nat.
Proof.
  intros Hn.
  assert (exists k, (k < 20)%nat /\ n = 1 + Z.of_nat k) as (k & Hk & ->).
  { exists (Z.to_nat (n - 1)). lia. }
  do 20 (destruct k as [|k]; [vm_compute; lia|]). lia.
Qed.

Lemma joinWith_shorter sep ts' ts :
  shorterEach ts' ts ->
  (String.length (joinWith sep ts') <= String.length (joinWith sep ts))%nat.
Proof.
  induction 1 as [|t' t ts' ts Ht Hts IH]; [reflexivity|].
  destruct Hts as [|t2' t2 ts2' ts2 Ht2 Hts2]; [exact Ht|].
  change (joinWith sep (t' :: t2' :: ts2'))
    with (t' +:+ sep +:+ joinWith sep (t2' :: ts2')).
  change (joinWith sep (t :: t2 :: ts2))
    with (t +:+ sep +:+ joinWith sep (t2 :: ts2)).
  rewrite !length_append. lia.
Qed.

(** Induction on statements, the blocks of an [if] included. *)
Lemma Statement_block_ind (P : Statement -> Prop) :
  (forall v op val, P (Assignment v op val)) ->
  (forall cond ib eb, Forall P ib -> Forall P eb -> P (IfStatement cond ib eb)) ->
  (forall l, P (GoToStatement l)) ->
  (forall label, P (GoToLabelStatement label)) ->
  forall s, P s.
Proof.
  intros HA HI HG HL.
  fix IH 1. intros [v op val|cond ib eb|l|label].
  - apply HA.
  - apply HI.
    + induction ib as [|s ib IHib]; constructor; [apply IH|exact IHib].
    + induction eb as [|s eb IHeb]; constructor; [apply IH|exact IHeb].
  - apply HG.
  - apply HL.
Qed.

Lemma printStatement_block mode ext l :
  (fix block (l : list Statement) : option (list string) :=
     match l with
     | [] => Some []
     | s1 :: l' =>
         t ← printStatement mode ext s1; ts ← block l'; Some (t :: ts)
     end) l = printStatements mode ext l.
Proof. induction l as [|s l IH]; [reflexivity|]. simpl. now rewrite IH. Qed.

Lemma printStatement_If mode ext cond ib eb :
  ext (NStatement (IfStatement cond ib eb)) = None ->
  printStatement mode ext (IfStatement cond ib eb)
  = (tc ← printExpression ext cond;
     tib ← printStatements mode ext ib;
     teb ← printStatements mode ext eb;
     Some ("if " +:+ tc +:+ " then " +:+ joinWith " " tib +:+
           match eb with
           | [] => EmptyString
           | _ => " else " +:+ joinWith " " teb
           end +:+ " end")).
Proof.
  intros Hext. simpl. rewrite Hext, !printStatement_block. reflexivity.
Qed.

Lemma resolveStatement_block labels lineno l :
  (fix block (l : list Statement) : option (list Statement) :=
     match l with
     | [] => Some []
     | s1 :: l' =>
         s1' ← resolveStatement labels lineno s1;
         l'' ← block l'; Some (s1' :: l'')
     end) l = resolveStatements labels lineno l.
Proof. induction l as [|s l IH]; [reflexivity|]. simpl. now rewrite IH. Qed.

Lemma resolveStatement_If labels lineno cond ib eb :
  resolveStatement labels lineno (IfStatement cond ib eb)
  = (ib' ← resolveStatements labels lineno ib;
     eb' ← resolveStatements labels lineno eb;
     Some (IfStatement (convertLineFuncCall lineno cond) ib' eb')).
Proof. simpl. rewrite !resolveStatement_block. reflexivity. Qed.

Lemma resolveStatements_nil labels lineno l l' :
  resolveStatements labels lineno l = Some l' -> (l' = [] <-> l = []).
Proof.
  destruct l as [|s l]; simpl.
  - intros [= <-]. tauto.
  - destruct (resolveStatement _ _ s); [|discriminate]. simpl.
    destruct (resolveStatements _ _ l); [|discriminate]. simpl.
    intros [= <-]. split; discriminate.
Qed.

Section Estimate.

Variable c : Converter.
Variable labels : gmap string Z.
Variable lineno : Z.
Hypothesis lineno_range : 1 <= lineno <= 20.
Hypothesis labels_range : forall label k, labels !! label = Some k -> 1 <= k <= 20.

Lemma printExpression_estimate e :
  forall t',
    printExpression noExtension (convertLineFuncCall lineno e) = Some t' ->
    exists t, printExpression (lengthExtension c) e = Some t
              /\ (String.length t' <= String.length t)%nat.
Proof.
  induction e as [v|v|v|op e1 IH1|op e1 IH1 e2 IH2|fn args]; intros t' H.
  - exists t'. split; [exact H|lia].
  - exists t'. split; [exact H|lia].
  - exists t'. split; [exact H|lia].
  - simpl in H.
    destruct (printExpression noExtension _) as [t1'|] eqn:E1; [|discriminate].
    injection H as <-. destruct (IH1 _ eq_refl) as (t1 & Ht1 & Hle).
    exists (op +:+ t1). simpl. rewrite Ht1. split; [reflexivity|].
    rewrite !length_append. lia.
  - simpl in H. destruct (printExpression noExtension (convertLineFuncCall lineno e1))
      as [t1'|] eqn:E1; [|discriminate].
    destruct (printExpression noExtension (convertLineFuncCall lineno e2))
      as [t2'|] eqn:E2; [|discriminate].
    injection H as <-.
    destruct (IH1 _ eq_refl) as (t1 & Ht1 & Hle1).
    destruct (IH2 _ eq_refl) as (t2 & Ht2 & Hle2).
    exists (t1 +:+ op +:+ t2). simpl. rewrite Ht1, Ht2. split; [reflexivity|].
    rewrite !length_append. lia.
  - simpl in H. simpl. destruct (String.eqb fn "line"); [|discriminate].
    injection H as <-. exists "00". split; [reflexivity|].
    now apply Itoa_width.
Qed.

Lemma goto_width k :
  1 <= k <= 20 ->
  (String.length ("goto" +:+ Space (printerMode c) +:+ Itoa k)
   <= String.length (if UseSpaces c then "goto XX" else "gotoXX"))%nat.
Proof.
  intros Hk. apply Itoa_width in Hk. rewrite !length_append.
  unfold printerMode. destruct (UseSpaces c); simpl; lia.
Qed.

Lemma printStatements_estimate l :
  Forall (estimated c labels lineno) l ->
  forall l' ts',
    resolveStatements labels lineno l = Some l' ->
    printStatements (printerMode c) noExtension l' = Some ts' ->
    exists ts, printStatements (printerMode c) (lengthExtension c) l = Some ts
               /\ shorterEach ts' ts.
Proof.
  induction 1 as [|s l Hs _ IH]; intros l' ts' Hr Hp.
  - injection Hr as <-. injection Hp as <-. exists []. split; [reflexivity|constructor].
  - simpl in Hr.
    destruct (resolveStatement labels lineno s) as [s'|] eqn:Es; [|discriminate].
    destruct (resolveStatements labels lineno l) as [l''|] eqn:El; [|discriminate].
    injection Hr as <-. simpl in Hp.
    destruct (printStatement _ _ s') as [t'|] eqn:Et; [|discriminate].
    destruct (printStatements _ _ l'') as [ts''|] eqn:Ets; [|discriminate].
    injection Hp as <-.
    destruct (Hs _ _ Es Et) as (t & Ht & Hle).
    destruct (IH _ _ eq_refl Ets) as (ts & Hts & Hles).
    exists (t :: ts). simpl. rewrite Ht, Hts. split; [reflexivity|].
    now constructor.
Qed.

Lemma printStatement_estimate s : estimated c labels lineno s.
Proof.
  induction s as [v op val|cond ib eb IHib IHeb|l|label]
    using Statement_block_ind; intros s' t' Hr Hp.
  - injection Hr as <-. simpl in Hp.
    destruct (printExpression _ _) as [tv'|] eqn:Ev; [|discriminate].
    injection Hp as <-.
    destruct (printExpression_estimate _ _ Ev) as (tv & Htv & Hle).
    exists (v +:+ op +:+ tv). simpl. rewrite Htv. split; [reflexivity|].
    rewrite !length_append. lia.
  - rewrite resolveStatement_If in Hr.
    destruct (resolveStatements labels lineno ib) as [ib'|] eqn:Eib; [|discriminate].
    destruct (resolveStatements labels lineno eb) as [eb'|] eqn:Eeb; [|discriminate].
    injection Hr as <-. rewrite printStatement_If in Hp by reflexivity.
    destruct (printExpression _ _) as [tc'|] eqn:Ec; [|discriminate].
    destruct (printStatements _ _ ib') as [tib'|] eqn:Etib; [|discriminate].
    destruct (printStatements _ _ eb') as [teb'|] eqn:Eteb; [|discriminate].
    injection Hp as <-.
    destruct (printExpression_estimate _ _ Ec) as (tc & Htc & Hlec).
    destruct (printStatements_estimate _ IHib _ _ Eib Etib) as (tib & Htib & Hleib).
    destruct (printStatements_estimate _ IHeb _ _ Eeb Eteb) as (teb & Hteb & Hleeb).
    rewrite printStatement_If by reflexivity. rewrite Htc, Htib, Hteb.
    eexists. split; [reflexivity|].
    apply (joinWith_shorter " ") in Hleib, Hleeb.
    pose proof (resolveStatements_nil _ _ _ _ Eeb) as Hnil.
    rewrite !length_append.
    destruct eb as [|s eb], eb' as [|s' eb'];
      try (exfalso; destruct Hnil as [H1 H2];
           first [now specialize (H1 eq_refl)|now specialize (H2 eq_refl)]);
      rewrite ?length_append; simpl String.length; lia.
  - injection Hr as <-. simpl in Hp.
    destruct (printExpression _ _) as [tl'|] eqn:El; [|discriminate].
    injection Hp as <-.
    destruct (printExpression_estimate _ _ El) as (tl & Htl & Hle).
    exists ("goto" +:+ Space (printerMode c) +:+ tl). simpl. rewrite Htl.
    split; [reflexivity|]. rewrite !length_append. lia.
  - simpl in Hr. destruct (labels !! label) as [k|] eqn:Ek; [|discriminate].
    injection Hr as <-.
    change (printStatement (printerMode c) noExtension
              (GoToStatement (NumberConstant (Itoa k))))
      with (Some ("goto" +:+ Space (printerMode c) +:+ Itoa k)) in Hp.
    injection Hp as <-. eexists. split; [reflexivity|].
    apply goto_width. eauto.
Qed.

Lemma getLengthOfLine_estimates pos stmts stmts' n :
  resolveStatements labels lineno stmts = Some stmts' ->
  finalLength c (mkLine pos stmts') = Some n ->
  exists est, getLengthOfLine c (mkLine pos stmts) = Ret est /\ n <= est.
Proof.
  intros Hr Hf. unfold finalLength, Print in Hf. simpl in Hf.
  destruct (printStatements _ _ stmts') as [ts'|] eqn:Ets; [|discriminate].
  simpl in Hf. injection Hf as <-.
  destruct (printStatements_estimate stmts
              (proj2 (Forall_forall _ _) (fun s _ => printStatement_estimate s))
              _ _ Hr Ets) as (ts & Hts & Hle).
  unfold getLengthOfLine, Print. simpl. rewrite Hts. simpl.
  eexists. split; [reflexivity|].
  rewrite !lineLength_append. apply (joinWith_shorter " ") in Hle.
  unfold len. lia.
Qed.

End Estimate.



(** The estimate of that line is 11, one more than its final length. *)
Lemma estimate_example :
  getLengthOfLine NewConverter (mkLine p0 jumpAndLine) = Ret 11
  /\ finalLength NewConverter (mkLine p0 jumpAndLineResolved) = Some 10.
Proof. split; vm_compute; reflexivity. Qed.

End EstimatorFacts.

(** ** The visitor engine *)

Module VisitorFacts.

Import visitor examples.

Lemma llen_app {A} (a b : list A) : llen (a ++ b) = llen a + llen b.
Proof. unfold llen. rewrite length_app. lia. Qed.

Lemma llen_nonneg {A} (a : list A) : 0 <= llen a.
Proof. unfold llen. lia. Qed.

(** The range test of a slice operation holds. *)
Ltac in_range :=
  match goal with
  | |- context [if ?b then _ else _] =>
      replace b with true
        by (symmetry; apply andb_true_iff;
            split; first [apply Z.leb_le|apply Z.ltb_lt];
            unfold llen; rewrite ?length_app; simpl length; lia)
  end.

Lemma index_middle {A} (done : list A) child todo :
  index (done ++ child :: todo) (llen done) = Ret child.
Proof.
  unfold index. in_range.
  unfold llen. rewrite Nat2Z.id, list_lookup_middle; reflexivity.
Qed.

Lemma insert_middle {A} (done : list A) child child' todo :
  <[Z.to_nat (llen done) := child']> (done ++ child :: todo)
  = done ++ child' :: todo.
Proof.
  unfold llen. rewrite Nat2Z.id.
  rewrite insert_app_r_alt by lia. now rewrite Nat.sub_diag.
Qed.

Lemma sliceTo_middle {A} (done : list A) rest :
  sliceTo (done ++ rest) (llen done) = Ret done.
Proof.
  unfold sliceTo. in_range.
  unfold llen. now rewrite Nat2Z.id, take_app_length.
Qed.

Lemma sliceFrom_middle {A} (done : list A) child todo :
  sliceFrom (done ++ child :: todo) (llen done + 1) = Ret todo.
Proof.
  unfold sliceFrom. in_range. unfold llen.
  replace (Z.to_nat (Z.of_nat (length done) + 1))
    with (length (done ++ [child])) by (rewrite length_app; simpl; lia).
  replace (done ++ child :: todo) with ((done ++ [child]) ++ todo)
    by now rewrite <- app_assoc.
  now rewrite drop_app_length.
Qed.

Lemma make_nonneg {A} cap : 0 <= cap -> @make A cap = Ret [].
Proof. intros H. unfold make. now replace (cap <? 0) with false by lia. Qed.

Lemma asChildren_length {Child} (asChild : Node -> option Child) repl rs :
  asChildren asChild repl = Some rs -> llen rs = llen repl.
Proof.
  revert rs. induction repl as [|elem repl IH]; intros rs; simpl.
  - now intros [= <-].
  - destruct (asChild elem); [|discriminate].
    destruct (asChildren asChild repl) as [chs|]; [|discriminate].
    simpl. intros [= <-]. unfold llen in *. simpl. specialize (IH _ eq_refl). lia.
Qed.

Lemma appendExtLines_spec repl newv :
  appendExtLines newv repl
  = match asChildren asExtLine repl with
    | Some rs => Ret (newv ++ rs)
    | None => Panic wrongType
    end.
Proof.
  revert newv. induction repl as [|elem repl IH]; intros newv; simpl.
  - now rewrite app_nil_r.
  - destruct (asExtLine elem) as [line|]; [|reflexivity].
    rewrite IH. destruct (asChildren asExtLine repl); simpl; [|reflexivity].
    now rewrite <- app_assoc.
Qed.

Lemma appendStatements_spec repl newv :
  appendStatements newv repl
  = match asChildren asStatement repl with
    | Some rs => Ret (newv ++ rs)
    | None => Panic wrongType
    end.
Proof.
  revert newv. induction repl as [|elem repl IH]; intros newv; simpl.
  - now rewrite app_nil_r.
  - destruct (asStatement elem) as [st|]; [|reflexivity].
    rewrite IH. destruct (asChildren asStatement repl); simpl; [|reflexivity].
    now rewrite <- app_assoc.
Qed.

Lemma patchExtLines_patches : patches asExtLine patchExtLines.
Proof.
  intros done child todo repl. unfold patchExtLines.
  rewrite make_nonneg.
  2:{ rewrite llen_app. unfold llen. simpl length. lia. }
  unfold mbind at 1, Outcome_bind at 1. rewrite sliceTo_middle.
  unfold mbind at 1, Outcome_bind at 1. rewrite appendExtLines_spec.
  destruct (asChildren asExtLine repl) as [rs|]; [|reflexivity].
  unfold mbind at 1, Outcome_bind at 1. rewrite sliceFrom_middle.
  unfold mbind, Outcome_bind. simpl. now rewrite <- app_assoc.
Qed.

Lemma PatchStatements_patches : patches asStatement PatchStatements.
Proof.
  intros done child todo repl. unfold PatchStatements.
  rewrite make_nonneg.
  2:{ rewrite llen_app. unfold llen. simpl length. lia. }
  unfold mbind at 1, Outcome_bind at 1. rewrite sliceTo_middle.
  unfold mbind at 1, Outcome_bind at 1. rewrite appendStatements_spec.
  destruct (asChildren asStatement repl) as [rs|]; [|reflexivity].
  unfold mbind at 1, Outcome_bind at 1. rewrite sliceFrom_middle.
  unfold mbind, Outcome_bind. simpl. now rewrite <- app_assoc.
Qed.

Section LoopFacts.

Variable S : Type.
Variable Visit : Node -> VisitType -> S -> S * option error.
Context {Parent Child : Type}.
Variable nodeOf : Parent -> Node.
Variable children : Parent -> list Child.
Variable setChildren : Parent -> list Child -> Parent.
Variable acceptChild : Child -> S -> option (Outcome (Accepted S Child)).
Variable patch : list Child -> Z -> list Node -> Outcome (list Child).
Variable asChild : Node -> option Child.

Hypothesis children_set : forall p l, children (setChildren p l) = l.
Hypothesis set_set : forall p a b, setChildren (setChildren p a) b = setChildren p b.
Hypothesis set_children : forall p, setChildren p (children p) = p.
Hypothesis patch_patches : patches asChild patch.

Lemma acceptLoop_visitEach p0 :
  forall todo done fuel s,
    (length todo <= fuel)%nat ->
    acceptLoop S Visit nodeOf children setChildren acceptChild patch
      fuel (setChildren p0 (done ++ todo)) (llen done) s
    = visitEach S Visit nodeOf setChildren acceptChild asChild p0 done todo s.
Proof.
  induction todo as [|child todo IH]; intros done fuel s Hfuel.
  - destruct fuel; simpl; rewrite children_set, app_nil_r, Z.ltb_irrefl;
      reflexivity.
  - destruct fuel as [|fuel]; [simpl in Hfuel; lia|].
    cbn [acceptLoop visitEach]. rewrite children_set.
    replace (llen done <? llen (done ++ child :: todo)) with true.
    2:{ symmetry. apply Z.ltb_lt. rewrite llen_app. unfold llen. simpl. lia. }
    cbn [negb].
    destruct (Visit _ (Index (llen done)) s) as [s1 [e|]]; [reflexivity|].
    rewrite index_middle.
    destruct (acceptChild child s1) as [[[[child' s2] err]|msg]|];
      try reflexivity.
    rewrite insert_middle, children_set, !set_set.
    destruct err as [[repl|msg]|].
    + rewrite patch_patches.
      destruct (asChildren asChild repl) as [rs|] eqn:Ers; [|reflexivity].
      cbv zeta. rewrite app_assoc, set_set.
      replace (llen done + (llen repl - 1) + 1) with (llen (done ++ rs)).
      2:{ rewrite llen_app, (asChildren_length _ _ _ Ers). lia. }
      apply IH. simpl in Hfuel. lia.
    + reflexivity.
    + replace (done ++ child' :: todo) with ((done ++ [child']) ++ todo)
        by now rewrite <- app_assoc.
      replace (llen done + 1) with (llen (done ++ [child'])).
      2:{ rewrite llen_app. reflexivity. }
      apply IH. simpl in Hfuel. lia.
Qed.

Lemma acceptParent_each p s :
  acceptParent S Visit nodeOf children setChildren acceptChild patch p s
  = acceptParentEach S Visit nodeOf children setChildren acceptChild asChild p s.
Proof.
  unfold acceptParent, acceptParentEach.
  destruct (Visit (nodeOf p) PreVisit s) as [s1 [e|]]; [reflexivity|].
  rewrite <- (acceptLoop_visitEach p (children p) [] (length (children p)) s1)
    by lia.
  simpl app. now rewrite set_children.
Qed.

End LoopFacts.

Lemma asChildren_wrong {Child} (asChild : Node -> option Child) repl elem :
  In elem repl -> asChild elem = None -> asChildren asChild repl = None.
Proof.
  induction repl as [|e repl IH]; intros Hin Hwrong; [destruct Hin|].
  simpl. destruct Hin as [->|Hin].
  - now rewrite Hwrong.
  - destruct (asChild e); [|reflexivity]. now rewrite IH.
Qed.

Lemma patchExtLines_wrong old position repl elem :
  In elem repl -> asExtLine elem = None ->
  isPanic (patchExtLines old position repl) = true.
Proof.
  intros Hin Hwrong. unfold patchExtLines.
  destruct (make _) as [newv|]; [|reflexivity].
  unfold mbind at 1, Outcome_bind at 1.
  destruct (sliceTo old position) as [front|]; [|reflexivity].
  unfold mbind at 1, Outcome_bind at 1.
  now rewrite appendExtLines_spec, (asChildren_wrong _ _ _ Hin Hwrong).
Qed.

Lemma index_in_range {A} (l : list A) i a :
  index l i = Ret a -> (i <? llen l) = true.
Proof.
  unfold index. destruct (0 <=? i); [|discriminate].
  destruct (i <? llen l); [reflexivity|discriminate].
Qed.

Section Engine.

Variable S : Type.
Variable Visit : Node -> VisitType -> S -> S * option error.
Variable acceptParserStatement : Statement -> S -> Outcome (Statement * S * option error).
Variable acceptExpression : Expression -> S -> Outcome (Expression * S * option error).

Lemma visitEach_total {Parent Child : Type} nodeOf setChildren
  (acceptChild : Child -> S -> option (Outcome (Accepted S Child))) asChild
  (p0 : Parent) :
  (forall child s, is_Some (acceptChild child s)) ->
  forall todo done s,
    is_Some (visitEach S Visit nodeOf setChildren acceptChild asChild
               p0 done todo s).
Proof.
  intros Hchild. induction todo as [|child todo IH]; intros done s; cbn [visitEach].
  - eauto.
  - destruct (Visit _ (Index (llen done)) s) as [s1 [e|]]; [eauto|].
    destruct (Hchild child s1) as [[[[child' s2] err]|msg] ->]; [|eauto].
    destruct err as [[repl|msg]|]; [|eauto|apply IH].
    destruct (asChildren asChild repl); [apply IH|eauto].
Qed.

Lemma acceptParentEach_total {Parent Child : Type} nodeOf children setChildren
  (acceptChild : Child -> S -> option (Outcome (Accepted S Child))) asChild
  (p : Parent) s :
  (forall child s, is_Some (acceptChild child s)) ->
  is_Some (acceptParentEach S Visit nodeOf children setChildren acceptChild
             asChild p s).
Proof.
  intros Hchild. unfold acceptParentEach.
  destruct (Visit (nodeOf p) PreVisit s) as [s1 [e|]]; [eauto|].
  destruct (visitEach_total nodeOf setChildren acceptChild asChild p Hchild
              (children p) [] s1) as [r ->].
  destruct r as [[[p' s2] [e|]]|msg]; eauto.
  destruct (Visit (nodeOf p') PostVisit s2); eauto.
Qed.

(** C7.  A replacement of one child by N nodes (1) gives the parent the
    list with the N nodes at the place of the child: the child count
    changes by N-1, and the index the loop goes on with, [i + (N-1) + 1],
    is that of the sibling that followed the child; (2), (3) the loops of
    [ExtProgramm.Accept] and [ExecutableLine.Accept], with their index
    arithmetic over the list as patched, do what the traversal that takes
    the original children one by one does: every sibling is accepted
    once, in order, and the replacement nodes are not visited; (4) the
    loops end: the traversal of a program returns or panics. *)
Theorem replacement_splices_and_resumes :
  (forall done child todo repl new,
      patchExtLines (done ++ child :: todo) (llen done) repl = Ret new ->
      exists rs,
        asChildren asExtLine repl = Some rs
        /\ new = done ++ rs ++ todo
        /\ llen new = llen (done ++ child :: todo) + (llen repl - 1)
        /\ drop (Z.to_nat (llen done + (llen repl - 1) + 1)) new = todo)
  /\ (forall p s,
      ExtProgramm_Accept S Visit acceptParserStatement acceptExpression p s
      = ExtProgramm_AcceptEach S Visit acceptParserStatement acceptExpression p s)
  /\ (forall l s,
      ExecutableLine_Accept S Visit acceptParserStatement l s
      = ExecutableLine_AcceptEach S Visit acceptParserStatement l s)
  /\ (forall p s,
      is_Some (ExtProgramm_Accept S Visit acceptParserStatement
                 acceptExpression p s)).
Proof.
  assert (Hline : forall l s,
             ExecutableLine_Accept S Visit acceptParserStatement l s
             = ExecutableLine_AcceptEach S Visit acceptParserStatement l s).
  { intros l s. apply acceptParent_each.
    - reflexivity.
    - reflexivity.
    - now intros [lbl sts].
    - apply PatchStatements_patches. }
  assert (Hprog : forall p s,
             ExtProgramm_Accept S Visit acceptParserStatement acceptExpression p s
             = ExtProgramm_AcceptEach S Visit acceptParserStatement
                 acceptExpression p s).
  { intros p s. apply acceptParent_each.
    - reflexivity.
    - reflexivity.
    - now intros [lines].
    - apply patchExtLines_patches. }
  split; [|split; [exact Hprog|split; [exact Hline|]]].
  2:{ intros p s. rewrite Hprog. apply acceptParentEach_total.
      intros [l|d] s'; cbn [ExtLine_Accept]; [|eauto].
      rewrite Hline.
      destruct (acceptParentEach_total (fun l => NLine (LExecutable l))
                  Statements setStatements
                  (fun st s => Some (Statement_Accept S Visit acceptParserStatement st s))
                  asStatement l s') as [r Hr]; [eauto|].
      unfold ExecutableLine_AcceptEach. rewrite Hr. simpl. eauto. }
  - intros done child todo repl new H. rewrite patchExtLines_patches in H.
    destruct (asChildren asExtLine repl) as [rs|] eqn:Ers; [|discriminate].
    injection H as <-. exists rs. pose proof (asChildren_length _ _ _ Ers) as Hlen.
    repeat split.
    + rewrite !llen_app. unfold llen in *. simpl length. lia.
    + replace (Z.to_nat (llen done + (llen repl - 1) + 1))
        with (length (done ++ rs)).
      * now rewrite app_assoc, drop_app_length.
      * rewrite length_app. unfold llen in *. lia.
Qed.

(** In the slot of a line every node of the replacement is asserted to be
    a line: [patchExtLines] panics on a node that is not, whatever the
    list and the place, and so does the loop of [ExtProgramm.Accept] when
    the [Accept] of a line returns such a replacement. *)
Lemma wrong_line_replacement_is_fatal :
  (forall old position repl elem,
      In elem repl -> asExtLine elem = None ->
      isPanic (patchExtLines old position repl) = true)
  /\ (forall fuel p i s s1 line line' s2 repl elem,
      Visit (NProgramm p) (Index i) s = (s1, None) ->
      index (Lines p) i = Ret line ->
      ExtLine_Accept S Visit acceptParserStatement acceptExpression line s1
        = Some (Ret (line', s2, Some (NodeReplacement repl))) ->
      In elem repl -> asExtLine elem = None ->
      exists msg,
        acceptLoop S Visit NProgramm Lines setLines
          (ExtLine_Accept S Visit acceptParserStatement acceptExpression)
          patchExtLines (Datatypes.S fuel) p i s = Some (Panic msg))
  .
Proof.
  split; [apply patchExtLines_wrong|].
  intros fuel p i s s1 line line' s2 repl elem Hv Hi Ha Hin Hwrong.
  cbn [acceptLoop]. rewrite (index_in_range _ _ _ Hi). cbn [negb].
  rewrite Hv, Hi, Ha.
  pose proof (patchExtLines_wrong
                (Lines (setLines p (<[Z.to_nat i:=line']> (Lines p))))
                i repl elem Hin Hwrong) as Hp.
  destruct (patchExtLines _ i repl) as [patched|msg]; [discriminate|].
  now exists msg.
Qed.

(** In the slot of the value of a constant the first node of the
    replacement is asserted to be an expression, and it alone. *)
Lemma wrong_first_value_is_fatal d s s1 value s2 first rest :
  Visit (NLine (LConst d)) PreVisit s = (s1, None) ->
  acceptExpression (Value d) s1
  = Ret (value, s2, Some (NodeReplacement (first :: rest))) ->
  asExpression first = None ->
  isPanic (ConstDeclaration_Accept S Visit acceptExpression d s) = true.
Proof.
  intros Hpre Hexp Hfirst. unfold ConstDeclaration_Accept.
  rewrite Hpre, Hexp. unfold mbind, Outcome_bind.
  destruct first as [p|l|st|e]; try reflexivity. discriminate.
Qed.

End Engine.

(** C8.  A replacement node of the wrong kind is fatal in the slot of a
    line, whichever node of the replacement it is (1, 2), and in the slot
    of the value of a constant when it is the first node (3); but a node
    of the wrong kind behind the first is not: [ConstDeclaration.Accept]
    asserts [Replacement[0]] only, so that a replacement by an expression
    and a line is taken without any failure, the line being dropped (4),
    where [patchExtLines] panics on the same replacement (5). *)
Theorem wrong_kind_replacement_not_always_fatal :
  (forall old position repl elem,
      In elem repl -> asExtLine elem = None ->
      isPanic (patchExtLines old position repl) = true)
  /\ (forall S Visit acceptParserStatement acceptExpression
             fuel p i s s1 line line' s2 repl elem,
      Visit (NProgramm p) (Index i) s = (s1, None) ->
      index (Lines p) i = Ret line ->
      ExtLine_Accept S Visit acceptParserStatement acceptExpression line s1
        = Some (Ret (line', s2, Some (NodeReplacement repl))) ->
      In elem repl -> asExtLine elem = None ->
      exists msg,
        acceptLoop S Visit NProgramm Lines setLines
          (ExtLine_Accept S Visit acceptParserStatement acceptExpression)
          patchExtLines (Datatypes.S fuel) p i s = Some (Panic msg))
  /\ (forall S Visit acceptExpression d s s1 value s2 first rest,
      Visit (NLine (LConst d)) PreVisit s = (s1, None) ->
      acceptExpression (Value d) s1
      = Ret (value, s2, Some (NodeReplacement (first :: rest))) ->
      asExpression first = None ->
      isPanic (ConstDeclaration_Accept S Visit acceptExpression d s) = true)
  /\ ConstDeclaration_Accept visitorExamples.Log quietExamples.logOnly
       quietExamples.replaceByValueAndLine quietExamples.constA []
     = Ret ({| Name := "a"; Value := mkExpression "1" |},
            [(NLine (LConst quietExamples.constA), PreVisit);
             (NLine (LConst {| Name := "a"; Value := mkExpression "1" |}),
              PostVisit)],
            None)
  /\ patchExtLines [visitorExamples.line "a"] 0 quietExamples.valueAndLine
     = Panic wrongType.
Proof.
  split; [apply patchExtLines_wrong|].
  split.
  { intros S Visit aPS aE.
    apply (proj2 (wrong_line_replacement_is_fatal S Visit aPS aE)). }
  split; [apply wrong_first_value_is_fatal|].
  split; reflexivity.
Qed.

(** The line [b] of three is replaced by two lines: the parent then has
    four lines, the visitor is handed the indices 0, 1 and 3, and it has
    pre-visited the three original lines and neither of the two new
    ones. *)
Lemma replacement_example :
  match ExtProgramm_Accept visitorExamples.Log visitorExamples.logVisit
          visitorExamples.noStatement visitorExamples.noExpression
          visitorExamples.abc [] with
  | Some (Ret (p, log, err)) =>
      Lines p = [visitorExamples.line "a"; visitorExamples.line "r1";
                 visitorExamples.line "r2"; visitorExamples.line "c"]
      /\ visitorExamples.indicesSeen log = [0; 1; 3]
      /\ visitorExamples.linesSeen log = ["a"; "b"; "c"]
      /\ err = None
  | _ => False
  end.
Proof. vm_compute. repeat split. Qed.

(** A replacement by a statement in the slot of a line. *)
Lemma wrong_kind_example :
  patchExtLines [visitorExamples.line "a"] 0
    [NStatement (GoToLabelStatement "x")]
  = Panic wrongType.
Proof. reflexivity. Qed.

End VisitorFacts.

(** ** The loop-context stack *)

Module LoweringFacts.

Import nolol lowering.

Lemma Accept_S {S Ctx} Visit enter fuel (ctx : Ctx) n (s : S) :
  Accept Visit enter (Datatypes.S fuel) ctx n s =
  match n with
  | WhileLoop cond block =>
      acceptParent Visit enter (acceptEach Visit enter fuel) ctx n
        (WhileLoop cond) block s
  | Other kind children =>
      acceptParent Visit enter (acceptEach Visit enter fuel) ctx n
        (Other kind) children s
  | _ => visit Visit ctx n SingleVisit s (fun s err => Finished n s err)
  end.
Proof. reflexivity. Qed.

Lemma acceptEach_S {S Ctx} Visit enter fuel (ctx : Ctx) done todo (s : S) :
  acceptEach Visit enter (Datatypes.S fuel) ctx done todo s =
  match todo with
  | [] => Finished done s None
  | child :: todo' =>
      acceptChild (Accept Visit enter fuel) (acceptEach Visit enter fuel)
        ctx done child todo' s
  end.
Proof. reflexivity. Qed.

(** The loop over the children hands on failures only: a replacement is
    put in place. *)
Lemma acceptEach_fails {S Ctx} Visit enter fuel :
  forall (ctx : Ctx) done todo (s : S) b s' e,
    acceptEach Visit enter fuel ctx done todo s = Finished b s' (Some e) ->
    isFailure (Some e) = true.
Proof.
  induction fuel as [|fuel IH]; intros ctx done todo s b s' e; [discriminate|].
  rewrite acceptEach_S. destruct todo as [|child todo]; [discriminate|].
  unfold acceptChild.
  destruct (Accept Visit enter fuel ctx child s) as [child' s1 err| |];
    [|discriminate|discriminate].
  destruct err as [[repl [|]|e']|].
  - apply IH.
  - apply IH.
  - now intros [= _ _ <-].
  - apply IH.
Qed.

(** The place of the children is one loop deeper under a while loop, and
    the place of the node under any other node, whatever the callbacks
    have done. *)
Lemma opened_depth open node w :
  length (opened open node w) = (length open + opens node)%nat.
Proof.
  destruct node; simpl; rewrite ?length_app; simpl; lia.
Qed.

Lemma nonempty_case {A B} (l : list A) (x : A) (a b : B) :
  match l ++ [x] with [] => a | _ :: _ => b end = b.
Proof. now destruct l. Qed.

Section Watching.

Variable others : Others.

(** *** The onlooker changes nothing *)

Lemma watched_agrees open n vt w :
  match f others n vt (conv w), watched others open n vt w with
  | Ret (c, err), Ret (w', err') => conv w' = c /\ err' = err
  | Panic msg, Panic msg' => msg' = msg
  | _, _ => False
  end.
Proof.
  unfold watched, mbind, Outcome_bind.
  destruct (f others n vt (conv w)) as [[c err]|msg]; simpl; auto.
Qed.

Lemma visit_agrees {A} open n vt w
  (k : Converter -> option error -> Result Converter A)
  (k' : Watched -> option error -> Result Watched A) :
  (forall w' err, agrees (k (conv w') err) (k' w' err)) ->
  agrees (visit (fun _ : unit => f others) tt n vt (conv w) k)
         (visit (watched others) open n vt w k').
Proof.
  intros Hk. unfold visit. pose proof (watched_agrees open n vt w) as H.
  destruct (f others n vt (conv w)) as [[c err]|msg],
    (watched others open n vt w) as [[w' err']|msg']; try contradiction.
  - destruct H as [<- ->]. apply Hk.
  - subst. now split.
Qed.

Lemma acceptParent_agrees fuel n rebuild block open w :
  (forall open done todo w,
      agrees (convertEach others fuel done todo (conv w))
             (acceptEach (watched others) opened fuel open done todo w)) ->
  agrees (acceptParent (fun _ : unit => f others) (fun _ _ _ => tt)
            (fun _ => convertEach others fuel) tt n rebuild block (conv w))
         (acceptParent (watched others) opened
            (acceptEach (watched others) opened fuel) open n rebuild block w).
Proof.
  unfold convertEach. intros IH. unfold acceptParent. apply visit_agrees.
  intros w1 [e|].
  - now repeat split.
  - specialize (IH (opened open n w1) [] block w1).
    destruct (acceptEach _ _ fuel tt [] block (conv w1)) as [b c err|msg c|c],
      (acceptEach (watched others) opened fuel (opened open n w1) [] block w1)
      as [b' w2 err'|msg' w2|w2]; try contradiction; try exact IH.
    destruct IH as (-> & <- & ->). destruct err as [e|].
    + now repeat split.
    + apply visit_agrees. intros w3 err3. now repeat split.
Qed.

Lemma Accept_agrees fuel :
  (forall open n w,
      agrees (convertNodes others fuel n (conv w))
             (Accept (watched others) opened fuel open n w))
  /\ (forall open done todo w,
      agrees (convertEach others fuel done todo (conv w))
             (acceptEach (watched others) opened fuel open done todo w)).
Proof.
  unfold convertNodes, convertEach.
  induction fuel as [|fuel [IHa IHe]]; [now split|].
  split.
  - intros open n w. rewrite !Accept_S.
    destruct n as [cond block| | |label|kind children];
      try (apply visit_agrees; intros w' err; now repeat split);
      now apply acceptParent_agrees.
  - intros open done todo w. rewrite !acceptEach_S.
    destruct todo as [|child todo]; [now repeat split|].
    unfold acceptChild. specialize (IHa open child w).
    destruct (Accept _ _ fuel tt child (conv w)) as [b c err|msg c|c],
      (Accept (watched others) opened fuel open child w)
      as [b' w2 err'|msg' w2|w2]; try contradiction; try exact IHa.
    destruct IHa as (-> & <- & ->).
    destruct err as [[repl [|]|e]|]; try apply IHe.
    now repeat split.
Qed.

(** *** The stack *)

Hypothesis frame : keepsLoops others.

Lemma logOK_snoc w c ev :
  logOK w -> eventOK ev -> logOK {| conv := c; events := events w ++ [ev] |}.
Proof.
  unfold logOK; simpl. intros H1 H2. apply Forall_app. split; [exact H1|].
  now constructor.
Qed.

(** A callback on a node that is no loop leaves the stack. *)
Lemma watched_still open n vt w :
  opens n = 0%nat -> Inv open w ->
  exists w' err, watched others open n vt w = Ret (w', err) /\ Inv open w'.
Proof.
  intros Hn (Hlevel & Hnum & Hlog).
  destruct n as [cond block| | |label|kind children]; [discriminate| | | |];
    unfold watched, mbind, Outcome_bind; simpl.
  - eexists _, _. split; [reflexivity|]. split; [exact Hlevel|].
    split; [exact Hnum|]. apply logOK_snoc; [exact Hlog|].
    split; [exact Hlevel|]. simpl. split; [reflexivity|].
    unfold convertBreakStatement, top, NewNodeReplacement. now rewrite Hlevel.
  - eexists _, _. split; [reflexivity|]. split; [exact Hlevel|].
    split; [exact Hnum|]. apply logOK_snoc; [exact Hlog|].
    split; [exact Hlevel|]. simpl. split; [reflexivity|].
    unfold convertContinueStatement, top, NewNodeReplacement.
    now rewrite Hlevel.
  - eexists _, _. split; [reflexivity|]. split; [exact Hlevel|].
    split; [exact Hnum|]. apply logOK_snoc; [exact Hlog|].
    split; [exact Hlevel|]. simpl. destruct vt; now split.
  - destruct frame as [_ Hother].
    destruct (Hother (conv w) (Other kind children) vt) as [Hc Hl].
    destruct (otherCases others (conv w) (Other kind children) vt)
      as [c err] eqn:E.
    simpl in Hc, Hl. eexists _, _. split; [reflexivity|].
    split; [simpl; congruence|]. split.
    + unfold numbered in *. simpl. now rewrite Hc.
    + apply logOK_snoc; [exact Hlog|]. split; [exact Hlevel|]. simpl.
      destruct vt; now split.
Qed.

(** The pre-visit of a while loop pushes the next id. *)
Lemma watched_push cond block open w :
  Inv open w ->
  exists w',
    watched others open (WhileLoop cond block) PreVisit w = Ret (w', None)
    /\ Inv (opened open (WhileLoop cond block) w') w'.
Proof.
  intros (Hlevel & Hnum & Hlog). eexists. split; [reflexivity|]. simpl.
  assert (Hfresh : ~ In (loopcounter (conv w) + 1) open).
  { intros Hin. unfold numbered in Hnum.
    rewrite Forall_forall in Hnum.
    apply list_elem_of_In, Hnum in Hin. lia. }
  split; [simpl; now rewrite Hlevel|]. split.
  - unfold numbered in *. simpl. apply Forall_app. split.
    + eapply Forall_impl; [exact Hnum|]. simpl. intros; lia.
    + constructor; [lia|constructor].
  - apply logOK_snoc; [exact Hlog|]. split; [exact Hlevel|]. simpl.
    rewrite Hlevel. now repeat split.
Qed.

(** The post-visit of a while loop pops the id of the loop. *)
Lemma watched_pop cond block open id w :
  Inv (open ++ [id]) w ->
  exists w' err,
    watched others (open ++ [id]) (WhileLoop cond block) PostVisit w
      = Ret (w', err)
    /\ Inv open w'.
Proof.
  intros (Hlevel & Hnum & Hlog).
  destruct frame as [Hwhile _].
  destruct (Hwhile (conv w) (WhileLoop cond block)) as [Hc Hl].
  unfold watched, mbind, Outcome_bind, f.
  destruct (convertWhileLoop others (conv w) (WhileLoop cond block))
    as [c result] eqn:E.
  simpl in Hc, Hl. rewrite Hlevel in Hl.
  rewrite Hl, nonempty_case, removelast_last.
  eexists _, _. split; [reflexivity|]. split; [reflexivity|]. split.
  - unfold numbered in *. simpl. rewrite Hc.
    now apply Forall_app in Hnum as [? _].
  - apply logOK_snoc; [exact Hlog|]. split; [exact Hlevel|]. simpl.
    split; [exact Hc|]. now exists id.
Qed.

Lemma Inv_logOK open w : Inv open w -> logOK w.
Proof. now intros (_ & _ & H). Qed.

Section Step.

Variable fuel : nat.

Hypothesis each_kept : forall open done todo w,
  Inv open w ->
  kept open (acceptEach (watched others) opened fuel open done todo w).

Lemma loop_kept cond block open w :
  Inv open w ->
  kept open (acceptParent (watched others) opened
               (acceptEach (watched others) opened fuel)
               open (WhileLoop cond block) (WhileLoop cond) block w).
Proof.
  intros Hinv. unfold acceptParent, visit.
  destruct (watched_push cond block open w Hinv) as (w1 & -> & Hinv1).
  simpl opened in *.
  pose proof (each_kept _ [] block w1 Hinv1) as Hk.
  destruct (acceptEach (watched others) opened fuel
              (open ++ [loopcounter (conv w1)]) [] block w1)
    as [b w2 err|msg w2|w2] eqn:Ee; simpl in Hk; [|contradiction|exact Hk].
  destruct err as [e|].
  - split; [exact (proj1 Hk)|]. intros Hnf.
    apply acceptEach_fails in Ee. congruence.
  - destruct Hk as [_ Hinv2]. specialize (Hinv2 eq_refl).
    destruct (watched_pop cond b open _ w2 Hinv2) as (w3 & err & -> & Hinv3).
    split; [now apply Inv_logOK in Hinv3 | now intros _].
Qed.

Lemma other_kept kind children open w :
  Inv open w ->
  kept open (acceptParent (watched others) opened
               (acceptEach (watched others) opened fuel)
               open (Other kind children) (Other kind) children w).
Proof.
  intros Hinv. unfold acceptParent, visit.
  destruct (watched_still open (Other kind children) PreVisit w eq_refl Hinv)
    as (w1 & err1 & -> & Hinv1).
  destruct err1 as [e|].
  - split; [now apply Inv_logOK in Hinv1 | now intros _].
  - simpl opened.
    pose proof (each_kept _ [] children w1 Hinv1) as Hk.
    destruct (acceptEach (watched others) opened fuel open [] children w1)
      as [b w2 err|msg w2|w2] eqn:Ee; simpl in Hk; [|contradiction|exact Hk].
    destruct err as [e|].
    + split; [exact (proj1 Hk)|]. intros Hnf.
      apply acceptEach_fails in Ee. congruence.
    + destruct Hk as [_ Hinv2]. specialize (Hinv2 eq_refl).
      destruct (watched_still open (Other kind b) PostVisit w2 eq_refl Hinv2)
        as (w3 & err & -> & Hinv3).
      split; [now apply Inv_logOK in Hinv3 | now intros _].
Qed.

Lemma leaf_kept n open w :
  opens n = 0%nat -> Inv open w ->
  kept open (visit (watched others) open n SingleVisit w
               (fun s err => Finished n s err)).
Proof.
  intros Hn Hinv. unfold visit.
  destruct (watched_still open n SingleVisit w Hn Hinv)
    as (w1 & err & -> & Hinv1).
  split; [now apply Inv_logOK in Hinv1 | now intros _].
Qed.

End Step.

(** The traversal of a node, and of the children of a node, keeps the
    invariant, however many steps it is given. *)
Lemma Accept_kept fuel :
  (forall open n w, Inv open w ->
      kept open (Accept (watched others) opened fuel open n w))
  /\ (forall open done todo w, Inv open w ->
      kept open (acceptEach (watched others) opened fuel open done todo w)).
Proof.
  induction fuel as [|fuel [IHa IHe]].
  { split; intros; simpl; eapply Inv_logOK; eassumption. }
  split.
  - intros open n w Hinv. rewrite Accept_S.
    destruct n as [cond block| | |label|kind children].
    + now apply loop_kept.
    + now apply leaf_kept.
    + now apply leaf_kept.
    + now apply leaf_kept.
    + now apply other_kept.
  - intros open done todo w Hinv. rewrite acceptEach_S.
    destruct todo as [|child todo].
    + split; [now apply Inv_logOK in Hinv | now intros _].
    + unfold acceptChild. pose proof (IHa open child w Hinv) as Hk.
      destruct (Accept (watched others) opened fuel open child w)
        as [b w2 err|msg w2|w2]; simpl in Hk; [|contradiction|exact Hk].
      destruct err as [[repl [|]|e]|].
      * apply IHe. now apply Hk.
      * apply IHe. now apply Hk.
      * split; [exact (proj1 Hk) | discriminate].
      * apply IHe. now apply Hk.
Qed.

End Watching.


Lemma keep_keepsLoops : keepsLoops loweringExamples.keep.
Proof. now split. Qed.

Lemma unroll_keepsLoops : keepsLoops loweringExamples.unroll.
Proof.
  split.
  - intros c n. unfold loweringExamples.unroll. simpl.
    destruct n; try now split. now destruct (top (loopLevel c)).
  - intros c n vt. unfold loweringExamples.unroll. simpl.
    destruct n as [| | | |kind children], vt; try now split.
    now destruct (String.eqb kind "if").
Qed.


(** Two nested loops with [break] and [continue]: each jump goes to the
    loop around it. *)
Lemma nested_loops_example :
  convertNodes loweringExamples.keep 40 loweringExamples.nested NewConverter
  = Finished loweringExamples.nestedLowered (withLoops NewConverter 2 []) None.
Proof. reflexivity. Qed.

(** The nodes put in for a loop are visited in turn, in the place of the
    loop. *)
Lemma unrolled_loops_example :
  convertNodes loweringExamples.unroll 40 loweringExamples.looping NewConverter
  = Finished loweringExamples.loopingLowered
      (loweringExamples.withIfLabels (withLoops NewConverter 2 []) 3) None.
Proof. reflexivity. Qed.

(** A loop put in at a pre-visit is traversed, and its [break] resolved;
    a node put in with [Skip] is left as it is. *)
Lemma inserted_nodes_example :
  convertNodes loweringExamples.insert 40 loweringExamples.inserting
    NewConverter
  = Finished loweringExamples.insertingLowered (withLoops NewConverter 1 [])
      None.
Proof. reflexivity. Qed.

Lemma break_outside_loop_example :
  convertNodes loweringExamples.keep 40 (Other "program" [BreakStatement])
    NewConverter
  = Finished (Other "program" [BreakStatement]) NewConverter
      (Some (Failure (outsideLoop "The break-statement"))).
Proof. reflexivity. Qed.

(** With too few steps the traversal is cut short; the callbacks made so
    far are on record. *)
Lemma cut_short_example :
  match convertNodesWatched loweringExamples.keep 5 loweringExamples.nested
          (watch NewConverter) with
  | Unfinished w =>
      map (fun ev => (evType ev, evOpen ev, loopLevel (evAfter ev))) (events w)
      = [(PreVisit, [], []); (PreVisit, [], [1]); (SingleVisit, [1], [1])]
  | _ => False
  end.
Proof. reflexivity. Qed.

End LoweringFacts.

Module MergeFacts.

Import ast parser nast nolol examples packer wrapperExamples PackerFacts.

Lemma fits_not_tooLong c maxlen cur :
  fitsb c maxlen cur = true -> tooLongb c maxlen cur = false.
Proof.
  unfold fitsb, tooLongb. destruct (getLengthOfLine c (Line cur)); [|easy].
  intros H. apply Z.leb_le in H. apply Z.ltb_ge. lia.
Qed.

(** *** The runs of the two loops, case by case

    A property [P newElements lines result] holds of every return of
    the outer loop when it holds where the loop ends, is carried over a
    finished group, and holds where the error is raised: at a line that
    opens a group, has no must-end marker, has a line after it and is over
    the budget as it stands. *)
Section Cases.

Variable StartOf EndOf : StatementLine -> ast.Position.
Variable c : Converter.
Variable maxlen : Z.

Variable P : list StatementLine -> list StatementLine -> MergeResult -> Prop.

Hypothesis P_done : forall ne, P ne [] (ne, None).
Hypothesis P_group : forall ne l tl rest res,
  GroupOK c maxlen l tl rest ->
  P (ne ++ [joinGroup l tl]) rest res ->
  P ne (l :: tl ++ rest) res.
Hypothesis P_error : forall ne l h rest,
  HasEOL l = false ->
  tooLongb c maxlen (openLine l) = true ->
  P ne (l :: h :: rest)
    (ne ++ [openLine l], Some (tooLongAt StartOf EndOf (openLine l))).

Lemma no_eol_member_last (tl : list StatementLine) :
  Forall (fun x => HasEOL x = false) tl ->
  forall pre x post, tl = pre ++ x :: post -> HasEOL x = true -> post = [].
Proof.
  intros Hall pre x post -> Hx. apply Forall_app in Hall as [_ Hall].
  inversion Hall; congruence.
Qed.

Lemma absorb_cases next :
  forall rest l tl ne res,
    (forall ne' r res', (length r <= length rest)%nat ->
       next ne' r = Ret res' -> P ne' r res') ->
    HasEOL l = false ->
    Forall (fun x => absorbable x = true) tl ->
    Forall (fun x => HasEOL x = false) tl ->
    (tl <> [] -> fitsb c maxlen (joinGroup l tl) = true) ->
    absorb StartOf EndOf c maxlen next ne (joinGroup l tl) rest = Ret res ->
    P ne (l :: tl ++ rest) res.
Proof.
  induction rest as [|nextline rest' IH];
    intros l tl ne res Hnext Hl Habs Heol Hfit H.
  - rewrite absorb_nil in H. apply Hnext in H; [|lia].
    apply P_group; [|exact H].
    split; try (intros; congruence); eauto using no_eol_member_last.
  - rewrite absorb_cons in H.
    destruct (getLengthOfLine c (Line (joinGroup l tl))) as [currlen|] eqn:Ecur;
      unfold mbind, Outcome_bind in H; [|discriminate].
    destruct (maxlen <? currlen) eqn:Elen.
    { injection H as <-.
      pose proof (tooLongb_of_length _ _ _ _ Ecur Elen) as Hlong.
      destruct tl as [|t tl].
      - rewrite joinGroup_nil in *. now apply P_error.
      - rewrite (fits_not_tooLong _ _ _ (Hfit ltac:(discriminate))) in Hlong.
        discriminate. }
    pose proof (fitsb_of_length _ _ _ _ Ecur Elen) as Hcur.
    destruct (absorbable nextline) eqn:Enext.
    2:{ apply Hnext in H; [|lia]. apply P_group; [|exact H].
        split; try (intros; congruence); eauto using no_eol_member_last. }
    cbv zeta in H. rewrite joinGroup_snoc in H.
    destruct (getLengthOfLine c (Line (joinGroup l (tl ++ [nextline]))))
      as [newlen|] eqn:Enew; [|discriminate].
    destruct (maxlen <? newlen) eqn:Enewlen.
    + rewrite <- joinGroup_snoc, setStatements_rollback in H.
      apply Hnext in H; [|lia]. apply P_group; [|exact H].
      split; try (intros; congruence); eauto using no_eol_member_last.
      intros h rest'' [= <- <-] _ _ _.
      eapply tooLongb_of_length; eauto.
    + pose proof (fitsb_of_length _ _ _ _ Enew Enewlen) as Hnew.
      destruct (HasEOL nextline) eqn:Eeol.
      * apply Hnext in H; [|simpl; lia].
        replace (l :: tl ++ nextline :: rest')
          with (l :: (tl ++ [nextline]) ++ rest')
          by now rewrite <- app_assoc.
        apply P_group; [|exact H].
        split; try (intros; congruence); eauto.
        -- apply Forall_app. split; [assumption|]. now constructor.
        -- intros pre x post Heq Hx.
           destruct post as [|y post] using rev_ind; [reflexivity|].
           rewrite app_comm_cons, app_assoc in Heq.
           apply app_inj_tail in Heq as [-> _].
           apply Forall_app in Heol as [_ Heol]. inversion Heol; congruence.
        -- intros h rest'' _ _ Hall. apply Forall_app in Hall as [_ Hall].
           inversion Hall; congruence.
      * replace (l :: tl ++ nextline :: rest')
          with (l :: (tl ++ [nextline]) ++ rest')
          by now rewrite <- app_assoc.
        apply IH; auto.
        -- intros ne' r res' Hr. apply Hnext. simpl. lia.
        -- apply Forall_app. split; [assumption|]. now constructor.
        -- apply Forall_app. split; [assumption|]. now constructor.
Qed.

Lemma mergeLoop_cases :
  forall n lines ne res,
    (length lines <= n)%nat ->
    mergeLoop StartOf EndOf c maxlen ne lines = Ret res ->
    P ne lines res.
Proof.
  induction n as [|n IH]; intros [|l rest] ne res Hlen H; simpl in Hlen;
    try lia.
  - injection H as <-. apply P_done.
  - injection H as <-. apply P_done.
  - rewrite mergeLoop_cons in H. destruct (HasEOL l) eqn:Eeol.
    + apply IH in H; [|lia]. rewrite <- joinGroup_nil in H.
      apply (P_group ne l [] rest); [|exact H].
      split; try (intros; congruence); auto.
      intros pre x post Heq. now destruct pre.
    + rewrite <- joinGroup_nil in H.
      apply (absorb_cases (fun ne r => mergeLoop StartOf EndOf c maxlen ne r)
               rest l [] ne res); auto; try congruence.
      intros ne' r res' Hr. apply IH. lia.
Qed.

End Cases.

Section Returns.

Variable StartOf EndOf : StatementLine -> ast.Position.
Variable c : Converter.
Variable maxlen : Z.

(** Every return carries the lines closed before, and behind them at
    most one line for each line scanned, and at least one if there was a
    line to scan. *)
Lemma mergeLoop_count lines ne out e :
  mergeLoop StartOf EndOf c maxlen ne lines = Ret (out, e) ->
  exists o, out = ne ++ o /\ (length o <= length lines)%nat
            /\ (lines <> [] -> o <> []).
Proof.
  intros H.
  apply (mergeLoop_cases StartOf EndOf c maxlen
           (fun ne lines res =>
              exists o, fst res = ne ++ o /\ (length o <= length lines)%nat
                        /\ (lines <> [] -> o <> []))
           ) with (n := length lines) in H; [exact H| | | |lia].
  - intros ne'. exists []. simpl. rewrite app_nil_r. repeat split; auto.
  - intros ne' l tl rest res _ (o & Ho & Hlen & _).
    exists (joinGroup l tl :: o). rewrite Ho, <- app_assoc. simpl.
    repeat split; [|discriminate]. rewrite length_app. lia.
  - intros ne' l h rest _ _. exists [openLine l]. simpl.
    repeat split; [lia|discriminate].
Qed.

Lemma closedFrom_mono lines lines' o :
  (forall l, In l lines -> In l lines') -> closedFrom lines o -> closedFrom lines' o.
Proof. intros Hsub (Hb & l & Hin & H). split; [exact Hb|]. exists l. auto. Qed.

Lemma closedFrom_joinGroup l tl rest :
  (HasEOL l = true -> tl = []) ->
  closedFrom (l :: tl ++ rest) (joinGroup l tl).
Proof.
  intros Halone. split; [reflexivity|]. exists l.
  split; [now left|]. split; [reflexivity|]. split; [reflexivity|]. split.
  - rewrite Statements_joinGroup. now exists (flatten tl).
  - intros Heol. change (HasEOL (joinGroup l tl)) with (HasEOL l) in Heol.
    rewrite (Halone Heol). apply joinGroup_nil.
Qed.

Lemma mergeLoop_closed lines ne out e :
  mergeLoop StartOf EndOf c maxlen ne lines = Ret (out, e) ->
  exists o, out = ne ++ o /\ Forall (closedFrom lines) o.
Proof.
  intros H.
  apply (mergeLoop_cases StartOf EndOf c maxlen
           (fun ne lines res =>
              exists o, fst res = ne ++ o /\ Forall (closedFrom lines) o))
    with (n := length lines) in H; [exact H| | | |lia].
  - intros ne'. exists []. simpl. now rewrite app_nil_r.
  - intros ne' l tl rest res Hok (o & Ho & Hall).
    exists (joinGroup l tl :: o). rewrite Ho, <- app_assoc. split; [reflexivity|].
    constructor.
    + apply closedFrom_joinGroup, (eol_alone _ _ _ _ _ Hok).
    + eapply Forall_impl; [exact Hall|]. intros o'. apply closedFrom_mono.
      intros x Hx. right. apply in_or_app. now right.
  - intros ne' l h rest _ _. exists [openLine l]. split; [reflexivity|].
    constructor; [|constructor]. rewrite <- joinGroup_nil.
    apply (closedFrom_joinGroup l [] (h :: rest)). reflexivity.
Qed.

(** Where the error comes from: a line of the input that has no must-end
    marker, is followed by another line, and is over the budget as it
    stands; the lines returned end with it. *)
Lemma mergeLoop_error lines ne out e :
  mergeLoop StartOf EndOf c maxlen ne lines = Ret (out, Some e) ->
  exists pre l h post o,
    lines = pre ++ l :: h :: post
    /\ HasEOL l = false
    /\ tooLongb c maxlen (openLine l) = true
    /\ out = ne ++ o ++ [openLine l]
    /\ e = tooLongAt StartOf EndOf (openLine l).
Proof.
  intros H.
  refine (mergeLoop_cases StartOf EndOf c maxlen
           (fun ne lines res =>
              forall e, snd res = Some e ->
              exists pre l h post o,
                lines = pre ++ l :: h :: post
                /\ HasEOL l = false
                /\ tooLongb c maxlen (openLine l) = true
                /\ fst res = ne ++ o ++ [openLine l]
                /\ e = tooLongAt StartOf EndOf (openLine l))
           _ _ _ (length lines) lines ne (out, Some e) (le_n _) H e eq_refl).
  - intros ne' e' [=].
  - intros ne' l tl rest res _ IH e' He'.
    destruct (IH e' He') as (pre & l' & h & post & o & -> & Hl & Hlong & Hout & ->).
    exists (l :: tl ++ pre), l', h, post, (joinGroup l tl :: o).
    repeat split; auto.
    + simpl. now rewrite <- app_assoc.
    + rewrite Hout, <- app_assoc. reflexivity.
  - intros ne' l h rest Hl Hlong e' [= <-].
    exists [], l, h, rest, []. repeat split; auto.
Qed.

End Returns.

(** A line of a packed program is within the budget, unless it is a
    line of the input standing alone that was never measured: one with the
    must-end marker, or the last of the program. *)
Lemma Packed_budget c maxlen lines out :
  Packed c maxlen lines out ->
  forall k o, out !! k = Some o ->
    fitsb c maxlen o = true
    \/ exists l, In l lines /\ o = openLine l
                 /\ (HasEOL l = true
                     \/ (S k = length out /\ last lines = Some l)).
Proof.
  induction 1 as [|l tl rest lines out -> Hok Hrest IH]; intros k o Hk;
    [discriminate|].
  destruct k as [|k]; simpl in Hk.
  - injection Hk as <-.
    destruct tl as [|t tl].
    2:{ left. apply (merged_fits _ _ _ _ _ Hok). discriminate. }
    rewrite joinGroup_nil. destruct (HasEOL l) eqn:Eeol.
    { right. exists l. split; [now left|]. auto. }
    destruct rest as [|h rest].
    + inversion Hrest; subst; [|discriminate].
      right. exists l. split; [now left|]. auto.
    + left. rewrite <- joinGroup_nil.
      apply (checked_fits _ _ _ _ _ Hok); [exact Eeol|discriminate].
  - destruct (IH k o Hk) as [Hfit|(l' & Hin & -> & Hwhy)]; [now left|].
    right. exists l'. split; [right; apply in_or_app; now right|].
    split; [reflexivity|].
    destruct Hwhy as [Heol|[Hlast Hl']]; [now left|right].
    split; [simpl; lia|].
    destruct rest as [|h rest]; [discriminate|].
    rewrite app_comm_cons, last_app. simpl in Hl' |- *. now rewrite Hl'.
Qed.

(** X1.  The merge never returns more lines than it was given, and at least
    one if it was given any; this holds of the lines returned beside an
    error too. *)
Theorem merge_never_adds_lines StartOf EndOf c lines out e :
  mergeStatementElements StartOf EndOf c lines = Ret (out, e) ->
  (length out <= length lines)%nat /\ (lines <> [] -> out <> []).
Proof.
  intros H. apply mergeLoop_count in H as (o & -> & Hlen & Hne). now simpl.
Qed.

Lemma merge_never_adds_lines_witness :
  (length fourLinesMerged <= length fourLines)%nat
  /\ (fourLines <> [] -> fourLinesMerged <> []).
Proof.
  apply (merge_never_adds_lines Position Position NewConverter _ _ None).
  vm_compute. reflexivity.
Defined.

(** X2.  Every line the merge returns, beside an error or not, has lost the
    must-start marker; it has the label and the position of a line of the
    input, whose statements it starts with; and it still carries the
    must-end marker only if it is that line standing alone: a line that
    absorbed a must-end line does not carry the marker. *)
Theorem merge_clears_the_markers StartOf EndOf c lines out e :
  mergeStatementElements StartOf EndOf c lines = Ret (out, e) ->
  Forall (closedFrom lines) out.
Proof.
  intros H. now apply mergeLoop_closed in H as (o & -> & Hall).
Qed.

Lemma merge_clears_the_markers_witness :
  Forall (closedFrom fourLines) fourLinesMerged.
Proof.
  apply (merge_clears_the_markers Position Position NewConverter _ _ None).
  vm_compute. reflexivity.
Defined.

(** X3.  When the merge fails, it fails at a line of the input as it stands:
    one without the must-end marker, with a line after it, that alone is
    over the budget. The lines returned end with that line, and the error
    has its span. A line made of several lines is never the cause. *)
Theorem merge_fails_at_an_input_line StartOf EndOf c lines out e :
  mergeStatementElements StartOf EndOf c lines = Ret (out, Some e) ->
  exists pre l h post o,
    lines = pre ++ l :: h :: post
    /\ HasEOL l = false
    /\ tooLongb c (maxLineLength c) (openLine l) = true
    /\ out = o ++ [openLine l]
    /\ e = tooLongAt StartOf EndOf (openLine l).
Proof.
  intros H. apply mergeLoop_error in H.
  destruct H as (pre & l & h & post & o & H). now exists pre, l, h, post, o.
Qed.

Lemma merge_fails_at_an_input_line_witness :
  exists pre l h post o,
    longThenShort = pre ++ l :: h :: post
    /\ HasEOL l = false
    /\ tooLongb NewConverter (maxLineLength NewConverter) (openLine l) = true
    /\ [sl "" [overBudget] false false] = o ++ [openLine l]
    /\ tooLongAt Position Position (sl "" [overBudget] false false)
       = tooLongAt Position Position (openLine l).
Proof.
  apply (merge_fails_at_an_input_line Position Position NewConverter).
  vm_compute. reflexivity.
Defined.

(** X4.  In the lines of a successful merge, a line over the budget is
    always a line of the input standing alone that the inner loop never
    measured: one with the must-end marker, or the last line of the program.
    Every line made of two or more lines is within the budget. *)
Theorem merged_lines_are_within_budget StartOf EndOf c lines out :
  mergeStatementElements StartOf EndOf c lines = Ret (out, None) ->
  forall k o, out !! k = Some o ->
    fitsb c (maxLineLength c) o = true
    \/ exists l, In l lines /\ o = openLine l
                 /\ (HasEOL l = true
                     \/ (S k = length out /\ last lines = Some l)).
Proof.
  intros H. unfold mergeStatementElements in H.
  apply (mergeLoop_Packed _ _ _ _ (length lines)) in H as (o & -> & Ho);
    [|lia].
  now apply Packed_budget.
Qed.

Lemma merged_lines_are_within_budget_witness :
  mergeStatementElements Position Position NewConverter fourLines
  = Ret (fourLinesMerged, None)
  /\ forall k o, fourLinesMerged !! k = Some o ->
    fitsb NewConverter (maxLineLength NewConverter) o = true
    \/ exists l, In l fourLines /\ o = openLine l
                 /\ (HasEOL l = true
                     \/ (S k = length fourLinesMerged
                         /\ last fourLines = Some l)).
Proof.
  split; [vm_compute; reflexivity|].
  apply (merged_lines_are_within_budget Position Position NewConverter).
  vm_compute. reflexivity.
Defined.

(** X5.  When every line of the input is within the budget as it stands, the
    merge does not fail, and every line it returns is within the budget. *)
Theorem lines_within_budget_stay_within StartOf EndOf c lines out e :
  Forall (fun l => fitsb c (maxLineLength c) (openLine l) = true) lines ->
  mergeStatementElements StartOf EndOf c lines = Ret (out, e) ->
  e = None /\ Forall (fun o => fitsb c (maxLineLength c) o = true) out.
Proof.
  intros Hall H. rewrite Forall_forall in Hall.
  destruct e as [e|].
  - apply mergeLoop_error in H
      as (pre & l & h & post & o & -> & _ & Hlong & _).
    assert (Hl : l ∈ pre ++ l :: h :: post)
      by (apply list_elem_of_In, in_or_app; right; now left).
    rewrite (fits_not_tooLong _ _ _ (Hall l Hl)) in Hlong. discriminate.
  - split; [reflexivity|]. apply Forall_lookup. intros k o Hk.
    unfold mergeStatementElements in H.
    apply (mergeLoop_Packed _ _ _ _ (length lines)) in H as (o' & -> & Ho);
      [|lia].
    destruct (Packed_budget _ _ _ _ Ho k o Hk) as [Hfit|(l & Hin & -> & _)];
      [exact Hfit|].
    apply Hall. now apply list_elem_of_In.
Qed.

Lemma lines_within_budget_stay_within_witness :
  @None Error = None
  /\ Forall (fun o => fitsb NewConverter (maxLineLength NewConverter) o = true)
       fourLinesMerged.
Proof.
  apply (lines_within_budget_stay_within Position Position NewConverter
           fourLines).
  - repeat constructor.
  - vm_compute. reflexivity.
Defined.

End MergeFacts.

(** ** The wrappers of the packer and the entry points *)

Module WrapperFacts.

Import ast parser nast nolol examples packer wrappers wrapperExamples
  PackerFacts MergeFacts ConvertFacts.

Lemma statementLinesOf_lines ls :
  statementLinesOf (map ElStatementLine ls) = (ls, None).
Proof. induction ls as [|l ls IH]; simpl; [reflexivity|]. now rewrite IH. Qed.

Lemma statementLinesOf_other pre t post :
  statementLinesOf (map ElStatementLine pre ++ ElOther t :: post)
  = ([], Some (unconvertedElement (ElOther t))).
Proof. induction pre as [|l pre IH]; simpl; [reflexivity|]. now rewrite IH. Qed.

(** The first loop of the wrapper: it hands on the lines when every
    element is one, and otherwise stops at the first element that is
    not. *)
Lemma statementLinesOf_cases lines :
  (exists inp, lines = map ElStatementLine inp
               /\ statementLinesOf lines = (inp, None))
  \/ (exists pre t post,
        lines = map ElStatementLine pre ++ ElOther t :: post
        /\ statementLinesOf lines
           = ([], Some (unconvertedElement (ElOther t)))).
Proof.
  induction lines as [|[l|t] lines IH].
  - left. now exists [].
  - destruct IH as [(inp & -> & H)|(pre & t & post & -> & H)].
    + left. exists (l :: inp). split; [reflexivity|].
      apply (statementLinesOf_lines (l :: inp)).
    + right. exists (l :: pre), t, post. split; [reflexivity|].
      apply (statementLinesOf_other (l :: pre)).
  - right. now exists [], t, lines.
Qed.

Lemma nested_lines_agree lines :
  nestedStatementLinesOf lines = statementLinesOf (map toElement lines).
Proof.
  induction lines as [|[l|t] lines IH]; simpl; [reflexivity| |reflexivity].
  now rewrite IH.
Qed.

Lemma outLines_lines interm :
  outLines (map ElStatementLine interm)
  = Ret (map (fun l => {| LinePosition := Position l;
                          LineStatements := Statements l |}) interm).
Proof.
  induction interm as [|l interm IH]; simpl; [reflexivity|]. now rewrite IH.
Qed.

Section Wrapped.

Variable StartOf EndOf : StatementLine -> ast.Position.

Lemma mergeNololElements_lines c inp :
  mergeNololElements StartOf EndOf c (map ElStatementLine inp)
  = (r ← mergeStatementElements StartOf EndOf c inp;
     match r with
     | (_, Some err) => Ret ([], Some err)
     | (interm, None) => Ret (map ElStatementLine interm, None)
     end).
Proof. unfold mergeNololElements. now rewrite statementLinesOf_lines. Qed.

Lemma mergeNololElements_other c pre t post :
  mergeNololElements StartOf EndOf c
    (map ElStatementLine pre ++ ElOther t :: post)
  = Ret ([], Some (unconvertedElement (ElOther t))).
Proof. unfold mergeNololElements. now rewrite statementLinesOf_other. Qed.

(** X6.  What [mergeNololElements] returns. Beside an error it returns no
    line at all: the error names the first element that is not a
    statement-line, without a line having been measured, or it is the error
    of [mergeStatementElements], whose lines are dropped. Without an error
    it returns the lines [mergeStatementElements] made of the input, all of
    them statement-lines, so that the type assertion in [Convert] does not
    panic on them. *)
Theorem mergeNololElements_returns c lines out e :
  mergeNololElements StartOf EndOf c lines = Ret (out, e) ->
  match e with
  | Some err =>
      out = []
      /\ ((exists pre t post,
             lines = map ElStatementLine pre ++ ElOther t :: post
             /\ err = unconvertedElement (ElOther t))
          \/ (exists inp partial,
                lines = map ElStatementLine inp
                /\ mergeStatementElements StartOf EndOf c inp
                   = Ret (partial, Some err)))
  | None =>
      exists inp interm,
        lines = map ElStatementLine inp
        /\ out = map ElStatementLine interm
        /\ mergeStatementElements StartOf EndOf c inp = Ret (interm, None)
        /\ outLines out
           = Ret (map (fun l => {| LinePosition := Position l;
                                   LineStatements := Statements l |}) interm)
  end.
Proof.
  intros H.
  destruct (statementLinesOf_cases lines)
    as [(inp & -> & _)|(pre & t & post & -> & _)].
  - rewrite mergeNololElements_lines in H.
    destruct (mergeStatementElements StartOf EndOf c inp)
      as [[interm [err|]]|] eqn:E; unfold mbind, Outcome_bind in H;
      [| |discriminate]; injection H as <- <-.
    + split; [reflexivity|]. right. now exists inp, interm.
    + exists inp, interm. split; [reflexivity|]. split; [reflexivity|].
      split; [exact E|]. apply outLines_lines.
  - rewrite mergeNololElements_other in H. injection H as <- <-.
    split; [reflexivity|]. left. now exists pre, t, post.
Qed.

(** X7.  The two wrappers are one: on the elements nested in a block,
    [mergeNololNestableElements] returns what [mergeNololElements] returns
    on the same elements of a program. *)
Theorem wrappers_agree c lines :
  mergeNololElements StartOf EndOf c (map toElement lines)
  = (r ← mergeNololNestableElements StartOf EndOf c lines;
     Ret (map toElement (fst r), snd r)).
Proof.
  unfold mergeNololElements, mergeNololNestableElements.
  rewrite nested_lines_agree.
  destruct (statementLinesOf (map toElement lines)) as [inp [err|]];
    [reflexivity|].
  destruct (mergeStatementElements StartOf EndOf c inp) as [[interm [err|]]|];
    unfold mbind, Outcome_bind; simpl; try reflexivity.
  now rewrite List.map_map.
Qed.

Variable passes : Passes.

Lemma Convert_lowered c prog fs c4 p4 :
  lowered passes c prog fs = (c4, p4, None) ->
  forall out e,
    mergeNololElements StartOf EndOf c4 (Elements p4) = Ret (out, Some e) ->
    Convert StartOf EndOf passes c prog fs = Ret (None, Some e).
Proof.
  unfold lowered, Convert. cbv zeta.
  destruct (convertNodes passes _ prog) as [[c1 p1] [e1|]]; [discriminate|].
  cbn [orReturn].
  destruct (addFinalGoto passes c1 p1) as [[c2 p2] [e2|]]; [discriminate|].
  cbn [orReturn].
  destruct (resolveGotoChains passes c2 p2) as [[c3 p3] [e3|]]; [discriminate|].
  cbn [orReturn].
  destruct (removeUnusedLabels passes c3 p3) as [[c4' p4'] [e4|]];
    [discriminate|].
  cbn [orReturn].
  intros [= -> ->] out e H. now rewrite H.
Qed.

(** X8.  When the four passes before the merge have succeeded, [Convert]
    fails without a program, and without panicking, (1) on an element they
    left unconverted, with the error that names its type, and (2) on a line
    that is too long, with the error of [mergeStatementElements]. *)
Theorem Convert_stops_at_merge c prog fs c4 p4 :
  lowered passes c prog fs = (c4, p4, None) ->
  (forall pre t post,
      Elements p4 = map ElStatementLine pre ++ ElOther t :: post ->
      Convert StartOf EndOf passes c prog fs
      = Ret (None, Some (unconvertedElement (ElOther t))))
  /\ (forall inp partial e,
      Elements p4 = map ElStatementLine inp ->
      mergeStatementElements StartOf EndOf c4 inp = Ret (partial, Some e) ->
      Convert StartOf EndOf passes c prog fs = Ret (None, Some e)
      /\ Message e = lineTooLong).
Proof.
  intros Hlow. split.
  - intros pre t post Hel.
    apply (Convert_lowered _ _ _ _ _ Hlow []).
    rewrite Hel. apply mergeNololElements_other.
  - intros inp partial e Hel Hmerge. split.
    + apply (Convert_lowered _ _ _ _ _ Hlow []).
      rewrite Hel, mergeNololElements_lines, Hmerge. reflexivity.
    + apply mergeLoop_error in Hmerge
        as (pre & l & h & post & o & _ & _ & _ & _ & ->).
      reflexivity.
Qed.

Variable notFound : string -> Error.
Variable Parse : bool -> string -> Program * option Error.


End Wrapped.

(** A main file that is there and parses, one that is not there, and
    one that does not parse. *)
Lemma ConvertFileEx_examples :
  ConvertFileEx Position Position idPasses noSuchFile parseOne NewConverter
    "main.nolol" {["main.nolol" := "a=1"]}
  = Ret (Some {| ast.Lines := [{| LinePosition := p0;
                                  LineStatements := [assign "a" "1"] |}] |},
         None)
  /\ ConvertFileEx Position Position idPasses noSuchFile parseOne NewConverter
       "main.nolol" ∅
     = Ret (None, Some (noSuchFile "main.nolol"))
  /\ ConvertFileEx Position Position idPasses noSuchFile parseOne NewConverter
       "main.nolol" {["main.nolol" := "a="]}
     = Ret (None, Some {| Message := "syntax error";
                          StartPosition := p0; EndPosition := p0 |}).
Proof. repeat split; vm_compute; reflexivity. Qed.

Lemma mergeNololElements_returns_witness :
  exists inp interm,
    map ElStatementLine fourLines = map ElStatementLine inp
    /\ map ElStatementLine fourLinesMerged = map ElStatementLine interm
    /\ mergeStatementElements Position Position NewConverter inp
       = Ret (interm, None)
    /\ outLines (map ElStatementLine fourLinesMerged)
       = Ret (map (fun l => {| LinePosition := Position l;
                               LineStatements := Statements l |}) interm).
Proof.
  apply (mergeNololElements_returns Position Position NewConverter
           (map ElStatementLine fourLines) (map ElStatementLine fourLinesMerged)
           None).
  vm_compute. reflexivity.
Defined.

Lemma Convert_stops_at_merge_witness :
  (forall pre t post,
      Elements unconverted = map ElStatementLine pre ++ ElOther t :: post ->
      Convert Position Position idPasses NewConverter unconverted ∅
      = Ret (None, Some (unconvertedElement (ElOther t))))
  /\ (forall inp partial e,
      Elements unconverted = map ElStatementLine inp ->
      mergeStatementElements Position Position
        (withUsesTimeTracking (withFiles NewConverter ∅) false) inp
      = Ret (partial, Some e) ->
      Convert Position Position idPasses NewConverter unconverted ∅
      = Ret (None, Some e)
      /\ Message e = lineTooLong).
Proof.
  apply (Convert_stops_at_merge Position Position idPasses NewConverter
           unconverted ∅).
  reflexivity.
Defined.

End WrapperFacts.

(** ** Further properties of the visitor engine *)

Module TraversalFacts.

Import visitor traversal VisitorFacts.

(** [patchExtLines] at the place of a line of the list. *)
Lemma patchExtLines_in_range old position repl :
  0 <= position < llen old ->
  patchExtLines old position repl
  = match asChildren asExtLine repl with
    | Some rs =>
        Ret (take (Z.to_nat position) old ++ rs
               ++ drop (S (Z.to_nat position)) old)
    | None => Panic wrongType
    end.
Proof.
  intros [H0 Hlen].
  assert (Hsplit : exists done child todo,
             old = done ++ child :: todo /\ position = llen done).
  { unfold llen in Hlen.
    destruct (lookup_lt_is_Some_2 old (Z.to_nat position)) as [child Hc];
      [lia|].
    exists (take (Z.to_nat position) old), child,
           (drop (S (Z.to_nat position)) old).
    split; [now rewrite take_drop_middle|].
    unfold llen. rewrite length_take. lia. }
  destruct Hsplit as (done & child & todo & -> & ->).
  rewrite patchExtLines_patches. unfold llen. rewrite Nat2Z.id.
  rewrite take_app_length.
  replace (done ++ child :: todo) with ((done ++ [child]) ++ todo)
    by now rewrite <- app_assoc.
  replace (S (length done)) with (length (done ++ [child]))
    by (rewrite length_app; simpl; lia).
  now rewrite drop_app_length.
Qed.

(** Outside the list, one of the two slice expressions panics. *)
Lemma patchExtLines_out_of_range old position repl :
  ~ 0 <= position < llen old ->
  isPanic (patchExtLines old position repl) = true.
Proof.
  intros Hout. unfold patchExtLines.
  destruct (make _) as [newv|]; [|reflexivity].
  unfold mbind at 1, Outcome_bind at 1.
  unfold sliceTo.
  destruct ((0 <=? position) && (position <=? llen old)) eqn:Hto;
    [|reflexivity].
  unfold mbind at 1, Outcome_bind at 1.
  destruct (appendExtLines _ repl) as [newv'|]; [|reflexivity].
  unfold mbind at 1, Outcome_bind at 1.
  unfold sliceFrom.
  replace ((0 <=? position + 1) && (position + 1 <=? llen old)) with false;
    [reflexivity|].
  symmetry. apply andb_false_iff.
  apply andb_true_iff in Hto as [Hto _]. apply Z.leb_le in Hto.
  right. apply Z.leb_gt. lia.
Qed.

(** X10.  [patchExtLines] returns exactly when the place is that of a line
    of the list and every replacement node is a line; it then returns the
    list with the replacement at that place. In every other case it panics:
    a place outside the list is fatal too. *)
Theorem patchExtLines_returns_in_bounds old position repl new :
  patchExtLines old position repl = Ret new
  <-> 0 <= position < llen old
      /\ exists rs,
           asChildren asExtLine repl = Some rs
           /\ new = take (Z.to_nat position) old ++ rs
                      ++ drop (S (Z.to_nat position)) old.
Proof.
  destruct (decide (0 <= position < llen old)) as [Hin|Hout].
  - rewrite (patchExtLines_in_range _ _ _ Hin).
    destruct (asChildren asExtLine repl) as [rs|]; split.
    + intros [= <-]. eauto.
    + now intros (_ & rs' & [= <-] & ->).
    + discriminate.
    + now intros (_ & rs' & [=] & _).
  - pose proof (patchExtLines_out_of_range old position repl Hout) as Hp.
    split.
    + intros H. rewrite H in Hp. discriminate.
    + now intros [Hin _].
Qed.

(** X11.  At the place of a line, a replacement by one line is an update in
    place and a replacement by no node deletes the line; replacing a line by
    itself leaves the list as it is. *)
Theorem patchExtLines_updates_and_deletes old position :
  0 <= position < llen old ->
  (forall l,
      patchExtLines old position [NLine l]
      = Ret (<[Z.to_nat position := l]> old))
  /\ patchExtLines old position [] = Ret (delete (Z.to_nat position) old)
  /\ (forall l, old !! Z.to_nat position = Some l ->
                patchExtLines old position [NLine l] = Ret old).
Proof.
  intros Hin.
  assert (Hupd : forall l,
             patchExtLines old position [NLine l]
             = Ret (<[Z.to_nat position := l]> old)).
  { intros l. rewrite (patchExtLines_in_range _ _ _ Hin). simpl.
    rewrite insert_take_drop; [reflexivity|]. unfold llen in Hin. lia. }
  split; [exact Hupd|split].
  - rewrite (patchExtLines_in_range _ _ _ Hin). simpl.
    now rewrite delete_take_drop.
  - intros l Hl. now rewrite Hupd, list_insert_id.
Qed.

Lemma patchExtLines_updates_and_deletes_witness :
  (forall l,
      patchExtLines (Lines visitorExamples.abc) 1 [NLine l]
      = Ret (<[Z.to_nat 1 := l]> (Lines visitorExamples.abc)))
  /\ patchExtLines (Lines visitorExamples.abc) 1 []
     = Ret (delete (Z.to_nat 1) (Lines visitorExamples.abc))
  /\ (forall l, Lines visitorExamples.abc !! Z.to_nat 1 = Some l ->
                patchExtLines (Lines visitorExamples.abc) 1 [NLine l]
                = Ret (Lines visitorExamples.abc)).
Proof.
  apply patchExtLines_updates_and_deletes. unfold llen. simpl. lia.
Defined.

(** X12.  Where the value of a constant is replaced, the first replacement
    node alone is used: it must be there and be an expression, and the nodes
    after it are dropped. With an empty replacement, or a first node that is
    no expression, [ConstDeclaration.Accept] panics. *)
Theorem const_value_takes_first_node S Visit acceptExpression
  d s s1 value s2 repl :
  Visit (NLine (LConst d)) PreVisit s = (s1, None) ->
  acceptExpression (Value d) s1 = Ret (value, s2, Some (NodeReplacement repl)) ->
  match repl with
  | NExpression v :: _ =>
      ConstDeclaration_Accept S Visit acceptExpression d s
      = (let d' := {| Name := Name d; Value := v |} in
         let '(s3, err) := Visit (NLine (LConst d')) PostVisit s2 in
         Ret (d', s3, err))
  | _ => isPanic (ConstDeclaration_Accept S Visit acceptExpression d s) = true
  end.
Proof.
  intros Hpre Hexp. unfold ConstDeclaration_Accept. rewrite Hpre, Hexp.
  unfold mbind, Outcome_bind.
  destruct repl as [|[p|l|st|v] rest]; try reflexivity.
Qed.

Lemma const_value_takes_first_node_witness :
  ConstDeclaration_Accept visitorExamples.Log quietExamples.logOnly
    quietExamples.replaceValue quietExamples.constA []
  = Ret ({| Name := "a"; Value := mkExpression "1" |},
         [(NLine (LConst quietExamples.constA), PreVisit);
          (NLine (LConst {| Name := "a"; Value := mkExpression "1" |}),
           PostVisit)],
         None).
Proof.
  apply (const_value_takes_first_node visitorExamples.Log quietExamples.logOnly
           quietExamples.replaceValue quietExamples.constA []
           [(NLine (LConst quietExamples.constA), PreVisit)]
           (mkExpression "0")
           [(NLine (LConst quietExamples.constA), PreVisit)]
           quietExamples.twoValues);
    reflexivity.
Defined.

Section Quiet.

Variable S : Type.
Variable Visit : Node -> VisitType -> S -> S * option error.
Variable acceptParserStatement : Statement -> S -> Outcome (Statement * S * option error).
Variable acceptExpression : Expression -> S -> Outcome (Expression * S * option error).

(** A visitor that returns no error, and so no replacement. *)
Hypothesis Visit_quiet : forall n vt s, snd (Visit n vt s) = None.
Hypothesis statement_quiet : forall st s,
  exists s', acceptParserStatement st s = Ret (st, s', None).
Hypothesis expression_quiet : forall e s,
  exists s', acceptExpression e s = Ret (e, s', None).

Lemma visitEach_quiet {Parent Child : Type} nodeOf setChildren
  (acceptChild : Child -> S -> option (Outcome (Accepted S Child))) asChild
  (p0 : Parent) :
  (forall child s, exists s', acceptChild child s = Some (Ret (child, s', None))) ->
  forall todo done s,
    exists s',
      visitEach S Visit nodeOf setChildren acceptChild asChild p0 done todo s
      = Some (Ret (setChildren p0 (done ++ todo), s', None)).
Proof.
  intros Hchild. induction todo as [|child todo IH]; intros done s;
    cbn [visitEach].
  - rewrite app_nil_r. eauto.
  - pose proof (Visit_quiet (nodeOf (setChildren p0 (done ++ child :: todo)))
                  (Index (llen done)) s) as Hv.
    destruct (Visit _ (Index (llen done)) s) as [s1 err]. simpl in Hv. subst err.
    destruct (Hchild child s1) as [s2 ->].
    destruct (IH (done ++ [child]) s2) as [s3 H]. rewrite H.
    rewrite <- app_assoc. eauto.
Qed.

Lemma acceptParentEach_quiet {Parent Child : Type} nodeOf children setChildren
  (acceptChild : Child -> S -> option (Outcome (Accepted S Child))) asChild
  (p : Parent) s :
  (forall p, setChildren p (children p) = p) ->
  (forall child s, exists s', acceptChild child s = Some (Ret (child, s', None))) ->
  exists s',
    acceptParentEach S Visit nodeOf children setChildren acceptChild asChild p s
    = Some (Ret (p, s', None)).
Proof.
  intros Hset Hchild. unfold acceptParentEach.
  pose proof (Visit_quiet (nodeOf p) PreVisit s) as Hv.
  destruct (Visit (nodeOf p) PreVisit s) as [s1 err]. simpl in Hv. subst err.
  destruct (visitEach_quiet nodeOf setChildren acceptChild asChild p Hchild
              (children p) [] s1) as [s2 ->].
  simpl app. rewrite Hset.
  pose proof (Visit_quiet (nodeOf p) PostVisit s2) as Hv.
  destruct (Visit (nodeOf p) PostVisit s2) as [s3 err]. simpl in Hv. subst err.
  eauto.
Qed.

Lemma Statement_Accept_quiet st s :
  exists s', Statement_Accept S Visit acceptParserStatement st s = Ret (st, s', None).
Proof.
  destruct st as [lbl|text]; simpl; [|apply statement_quiet].
  pose proof (Visit_quiet (NStatement (GoToLabelStatement lbl)) SingleVisit s) as Hv.
  destruct (Visit _ SingleVisit s) as [s1 err]. simpl in Hv. subst err. eauto.
Qed.

Lemma ExecutableLine_Accept_quiet l s :
  exists s',
    ExecutableLine_Accept S Visit acceptParserStatement l s = Some (Ret (l, s', None)).
Proof.
  unfold ExecutableLine_Accept.
  rewrite (acceptParent_each S Visit _ _ _ _ _ asStatement);
    [|reflexivity|reflexivity|now intros [lbl sts]|apply PatchStatements_patches].
  apply acceptParentEach_quiet; [now intros [lbl sts]|].
  intros st s0. destruct (Statement_Accept_quiet st s0) as [s' ->]. eauto.
Qed.

Lemma ConstDeclaration_Accept_quiet d s :
  exists s',
    ConstDeclaration_Accept S Visit acceptExpression d s = Ret (d, s', None).
Proof.
  unfold ConstDeclaration_Accept.
  pose proof (Visit_quiet (NLine (LConst d)) PreVisit s) as Hv.
  destruct (Visit _ PreVisit s) as [s1 err]. simpl in Hv. subst err.
  destruct (expression_quiet (Value d) s1) as [s2 ->].
  unfold mbind, Outcome_bind. destruct d as [nm v]. simpl.
  pose proof (Visit_quiet (NLine (LConst {| Name := nm; Value := v |}))
                PostVisit s2) as Hv.
  destruct (Visit _ PostVisit s2) as [s3 err]. simpl in Hv. subst err. eauto.
Qed.

Lemma ExtLine_Accept_quiet l s :
  exists s',
    ExtLine_Accept S Visit acceptParserStatement acceptExpression l s
    = Some (Ret (l, s', None)).
Proof.
  destruct l as [l|d]; cbn [ExtLine_Accept].
  - destruct (ExecutableLine_Accept_quiet l s) as [s' ->]. simpl. eauto.
  - destruct (ConstDeclaration_Accept_quiet d s) as [s' ->]. simpl. eauto.
Qed.

Lemma ExtProgramm_Accept_quiet p s :
  exists s',
    ExtProgramm_Accept S Visit acceptParserStatement acceptExpression p s
    = Some (Ret (p, s', None)).
Proof.
  unfold ExtProgramm_Accept.
  rewrite (acceptParent_each S Visit _ _ _ _ _ asExtLine);
    [|reflexivity|reflexivity|now intros [lines]|apply patchExtLines_patches].
  apply acceptParentEach_quiet; [now intros [lines]|].
  apply ExtLine_Accept_quiet.
Qed.

End Quiet.

(** X13.  A visitor that returns no error and no replacement leaves the tree
    as it is: with such a visitor, and with statements and expressions of
    package [parser] that accept it likewise, the [Accept] of a program
    ends, returns no error and returns the program it was given, and so does
    the [Accept] of a line. *)
Theorem quiet_visitor_changes_nothing S Visit acceptParserStatement
  acceptExpression :
  (forall n vt s, snd (Visit n vt s) = None) ->
  (forall st s, exists s', acceptParserStatement st s = Ret (st, s', None)) ->
  (forall e s, exists s', acceptExpression e s = Ret (e, s', None)) ->
  (forall p s, exists s',
      ExtProgramm_Accept S Visit acceptParserStatement acceptExpression p s
      = Some (Ret (p, s', None)))
  /\ (forall l s, exists s',
      ExtLine_Accept S Visit acceptParserStatement acceptExpression l s
      = Some (Ret (l, s', None))).
Proof.
  intros Hv Hs He. split.
  - now apply ExtProgramm_Accept_quiet.
  - now apply ExtLine_Accept_quiet.
Qed.

Lemma quiet_visitor_changes_nothing_witness :
  (forall p s, exists s',
      ExtProgramm_Accept visitorExamples.Log quietExamples.logOnly
        visitorExamples.noStatement visitorExamples.noExpression p s
      = Some (Ret (p, s', None)))
  /\ (forall l s, exists s',
      ExtLine_Accept visitorExamples.Log quietExamples.logOnly
        visitorExamples.noStatement visitorExamples.noExpression l s
      = Some (Ret (l, s', None))).
Proof.
  apply quiet_visitor_changes_nothing.
  - reflexivity.
  - intros st s. now exists s.
  - intros e s. now exists s.
Defined.

Section Escape.

Variable S : Type.
Variable Visit : Node -> VisitType -> S -> S * option error.

Lemma visitEach_consumes {Parent Child : Type} (nodeOf : Parent -> Node)
  setChildren
  (acceptChild : Child -> S -> option (Outcome (Accepted S Child))) asChild
  (p0 : Parent) :
  (forall p vt s, isReplacement (snd (Visit (nodeOf p) vt s)) = false) ->
  forall todo done s p' s' err,
    visitEach S Visit nodeOf setChildren acceptChild asChild p0 done todo s
    = Some (Ret (p', s', err)) ->
    isReplacement err = false.
Proof.
  intros Hv. induction todo as [|child todo IH]; intros done s p' s' err;
    cbn [visitEach].
  - now intros [= _ _ <-].
  - pose proof (Hv (setChildren p0 (done ++ child :: todo)) (Index (llen done)) s)
      as Hi.
    destruct (Visit _ (Index (llen done)) s) as [s1 [e|]].
    { now intros [= _ _ <-]. }
    destruct (acceptChild child s1) as [[[[child' s2] cerr]|msg]|];
      try discriminate.
    destruct cerr as [[repl|msg]|].
    + destruct (asChildren asChild repl) as [rs|]; [apply IH|discriminate].
    + now intros [= _ _ <-].
    + apply IH.
Qed.

Lemma acceptParentEach_consumes {Parent Child : Type} (nodeOf : Parent -> Node)
  children setChildren
  (acceptChild : Child -> S -> option (Outcome (Accepted S Child))) asChild
  (p : Parent) s p' s' err :
  (forall p vt s, isReplacement (snd (Visit (nodeOf p) vt s)) = false) ->
  acceptParentEach S Visit nodeOf children setChildren acceptChild asChild p s
  = Some (Ret (p', s', err)) ->
  isReplacement err = false.
Proof.
  intros Hv. unfold acceptParentEach.
  pose proof (Hv p PreVisit s) as Hpre.
  destruct (Visit (nodeOf p) PreVisit s) as [s1 [e|]].
  { now intros [= _ _ <-]. }
  destruct (visitEach _ _ _ _ _ _ p [] (children p) s1)
    as [[[[p1 s2] [e|]]|msg]|] eqn:E; try discriminate.
  - apply (visitEach_consumes nodeOf setChildren acceptChild asChild p Hv) in E.
    now intros [= _ _ <-].
  - pose proof (Hv p1 PostVisit s2) as Hpost.
    destruct (Visit (nodeOf p1) PostVisit s2) as [s3 e].
    now intros [= _ _ <-].
Qed.

End Escape.

(** X14.  The replacement of a child is consumed by its parent: unless the
    visitor returns a replacement for the program itself, the [Accept] of a
    program never returns one, whatever its lines and their statements were
    replaced by; and likewise the [Accept] of a line, unless the visitor
    returns a replacement for the line itself. *)
Theorem replacements_do_not_escape S Visit acceptParserStatement
  acceptExpression :
  (forall p s p' s' err,
      (forall q vt s, isReplacement (snd (Visit (NProgramm q) vt s)) = false) ->
      ExtProgramm_Accept S Visit acceptParserStatement acceptExpression p s
      = Some (Ret (p', s', err)) ->
      isReplacement err = false)
  /\ (forall l s l' s' err,
      (forall q vt s,
          isReplacement (snd (Visit (NLine (LExecutable q)) vt s)) = false) ->
      ExecutableLine_Accept S Visit acceptParserStatement l s
      = Some (Ret (l', s', err)) ->
      isReplacement err = false).
Proof.
  split.
  - intros p s p' s' err Hv. unfold ExtProgramm_Accept.
    rewrite (acceptParent_each S Visit _ _ _ _ _ asExtLine);
      [|reflexivity|reflexivity|now intros [lines]|apply patchExtLines_patches].
    now apply acceptParentEach_consumes.
  - intros l s l' s' err Hv. unfold ExecutableLine_Accept.
    rewrite (acceptParent_each S Visit _ _ _ _ _ asStatement);
      [|reflexivity|reflexivity|now intros [lbl sts]
       |apply PatchStatements_patches].
    now apply (acceptParentEach_consumes S Visit
                 (fun l => NLine (LExecutable l))).
Qed.

(** The visitor that replaces the line [b] by two lines: the program
    takes the two lines in, and returns no replacement. *)
Lemma replacements_do_not_escape_witness :
  exists p' s' err,
    ExtProgramm_Accept visitorExamples.Log visitorExamples.logVisit
      visitorExamples.noStatement visitorExamples.noExpression
      visitorExamples.abc []
    = Some (Ret (p', s', err))
    /\ llen (Lines p') = 4
    /\ isReplacement err = false.
Proof.
  do 3 eexists. split; [vm_compute; reflexivity|]. split; [reflexivity|].
  eapply (proj1 (replacements_do_not_escape _ visitorExamples.logVisit
                   visitorExamples.noStatement visitorExamples.noExpression)
            visitorExamples.abc []).
  - intros q vt s. now destruct vt.
  - vm_compute. reflexivity.
Defined.

End TraversalFacts.

Module DebuggerFacts.

Import debugger debuggerExamples.

(** *** [load] *)

Lemma scanArgs_inl args : forall cs ct cs' ct',
  scanArgs args cs ct = inl (cs', ct') ->
  cs' = cs || existsb isScript args
  /\ ct' = ct || existsb isTest args
  /\ forallb (fun a => isTest a || isScript a) args = true.
Proof.
  induction args as [|arg rest IH]; intros cs ct cs' ct' H; simpl in H.
  - injection H as <- <-. now rewrite !orb_false_r.
  - cbn [existsb forallb].
    assert (Ht : isTest arg = HasSuffix arg ".yaml") by reflexivity.
    assert (Hs : isScript arg
                 = negb (HasSuffix arg ".yaml")
                   && (HasSuffix arg ".yolol" || HasSuffix arg ".nolol"))
      by reflexivity.
    destruct (HasSuffix arg ".yaml") eqn:Ey.
    + apply IH in H as (-> & -> & ->). rewrite Ht, Hs.
      destruct cs, ct; repeat split; reflexivity.
    + destruct (HasSuffix arg ".yolol" || HasSuffix arg ".nolol") eqn:Es;
        [|discriminate].
      apply IH in H as (-> & -> & ->). rewrite Ht, Hs.
      destruct cs, ct; repeat split; reflexivity.
Qed.

Lemma scanArgs_scripts args : forall cs ct,
  forallb isScript args = true ->
  scanArgs args cs ct = inl (cs || negb (visitor.llen args =? 0), ct).
Proof.
  induction args as [|arg rest IH]; intros cs ct H; simpl in *.
  - now rewrite orb_false_r.
  - apply andb_true_iff in H as [Harg Hrest]. unfold isScript in Harg.
    apply andb_true_iff in Harg as [Hy Hs].
    apply negb_true_iff in Hy. rewrite Hy, Hs, (IH _ _ Hrest).
    f_equal. f_equal. unfold visitor.llen. simpl length.
    rewrite orb_true_l.
    destruct (Z.of_nat (S (length rest)) =? 0) eqn:E; [|now rewrite orb_true_r].
    apply Z.eqb_eq in E. lia.
Qed.

Lemma existsb_false_forallb {A} (p q : A -> bool) l :
  forallb (fun a => p a || q a) l = true -> existsb p l = false ->
  forallb q l = true.
Proof.
  induction l as [|a l IH]; [easy|]. simpl. intros H1 H2.
  apply andb_true_iff in H1 as [Ha Hl]. apply orb_false_iff in H2 as [Hp Hl'].
  rewrite Hp in Ha. simpl in Ha. now rewrite Ha, IH.
Qed.

Lemma substring_whole s : substring 0 (String.length s) s = s.
Proof. induction s as [|a s IH]; simpl; [reflexivity|]. now rewrite IH. Qed.

Lemma substring_split s : forall n m,
  (n + m = String.length s)%nat ->
  s = substring 0 n s +:+ substring n m s.
Proof.
  induction s as [|a s IH]; intros n m H; simpl in H.
  - assert (n = 0%nat) as -> by lia. assert (m = 0%nat) as -> by lia.
    reflexivity.
  - destruct n as [|n].
    + simpl in H. subst m. simpl. now rewrite substring_whole.
    + change (String a s = String a (substring 0 n s +:+ substring n m s)).
      f_equal. apply IH. lia.
Qed.

Lemma substring_suffix pre : forall suf,
  substring (String.length pre) (String.length suf) (pre +:+ suf) = suf.
Proof.
  induction pre as [|a pre IH]; intros suf; simpl.
  - apply substring_whole.
  - apply IH.
Qed.

Lemma length_append_string a b :
  String.length (a +:+ b) = (String.length a + String.length b)%nat.
Proof. induction a as [|c a IH]; simpl; [reflexivity|]. now rewrite IH. Qed.

(** [HasSuffix s suffix] holds exactly when [s] ends with [suffix]. *)
Lemma HasSuffix_spec s suffix :
  HasSuffix s suffix = true <-> exists pre, s = pre +:+ suffix.
Proof.
  unfold HasSuffix. rewrite andb_true_iff, Nat.leb_le, String.eqb_eq. split.
  - intros [Hlen Hsub].
    exists (substring 0 (String.length s - String.length suffix) s).
    rewrite <- Hsub at 2. apply substring_split. lia.
  - intros [pre ->]. rewrite length_append_string.
    split; [lia|].
    replace (String.length pre + String.length suffix - String.length suffix)%nat
      with (String.length pre) by lia.
    apply substring_suffix.
Qed.

Lemma isTest_not_script arg : isTest arg = true -> isScript arg = false.
Proof. unfold isTest, isScript. now intros ->. Qed.

Lemma scripts_hold_no_test args :
  forallb isScript args = true -> existsb isTest args = false.
Proof.
  induction args as [|a l IH]; [easy|]. simpl. intros H.
  apply andb_true_iff in H as [Ha Hl]. rewrite (IH Hl), orb_false_r.
  destruct (isTest a) eqn:E; [|reflexivity].
  now rewrite (isTest_not_script _ E) in Ha.
Qed.

Lemma load_test file : isTest file = true -> load [file] = Ret (FromTest file).
Proof.
  intros H. unfold load. simpl. unfold isTest in H. now rewrite H.
Qed.

Lemma load_scripts args :
  forallb isScript args = true -> load args = Ret (FromScripts args).
Proof.
  intros H. unfold load. rewrite (scanArgs_scripts _ _ _ H).
  now rewrite !andb_false_r.
Qed.

(** X15.  [load] starts the debugger on a test exactly when it is given one
    argument and that argument ends in [.yaml]; it starts it on scripts
    exactly when every argument ends in [.yolol] or [.nolol] and none in
    [.yaml], and then on all of them in order; in every other case it exits,
    with status 1.  It never panics: [args[0]] is read only when there is a
    test, hence an argument. *)
Theorem load_decides args :
  (forall file,
      load args = Ret (FromTest file) <-> args = [file] /\ isTest file = true)
  /\ (forall files,
      load args = Ret (FromScripts files)
      <-> files = args /\ forallb isScript args = true)
  /\ (forall code printed, load args = Ret (Exit code printed) -> code = 1)
  /\ isPanic (load args) = false.
Proof.
  assert (Hexit : forall code printed,
             load args = Ret (Exit code printed) -> code = 1).
  { intros code printed. unfold load.
    destruct (scanArgs args false false) as [[cs ct]|arg];
      [|now intros [= <- _]].
    destruct (cs && ct); [now intros [= <- _]|].
    destruct ((1 <? visitor.llen args) && ct); [now intros [= <- _]|].
    destruct ct; [|discriminate].
    destruct (visitor.index args 0); discriminate. }
  assert (Hcases :
    (exists file, args = [file] /\ isTest file = true)
    \/ forallb isScript args = true
    \/ exists code printed, load args = Ret (Exit code printed)).
  { unfold load.
    destruct (scanArgs args false false) as [[cs ct]|arg] eqn:E; [|eauto 6].
    apply scanArgs_inl in E as (-> & -> & Hall). simpl orb.
    destruct (existsb isScript args) eqn:Es, (existsb isTest args) eqn:Et;
      simpl andb; cbv iota; eauto 6.
    - right. left. eapply existsb_false_forallb; [|exact Et]. exact Hall.
    - destruct args as [|a [|b l]]; [discriminate| |].
      + left. exists a. split; [reflexivity|]. simpl in Et.
        now rewrite orb_false_r in Et.
      + right. right. unfold visitor.llen. simpl length.
        replace (1 <? Z.of_nat (S (S (length l)))) with true
          by (symmetry; apply Z.ltb_lt; lia).
        eauto.
    - right. left. eapply existsb_false_forallb; [|exact Et]. exact Hall. }
  destruct Hcases as [(file & -> & Hf)|[Hs|(code & printed & He)]].
  - rewrite (load_test _ Hf).
    split; [intros f; split
           |split; [intros fs; split|split; [discriminate|reflexivity]]].
    + intros [= <-]. auto.
    + now intros [[= <-] _].
    + discriminate.
    + intros [_ H]. simpl in H. rewrite (isTest_not_script _ Hf) in H.
      discriminate.
  - rewrite (load_scripts _ Hs).
    split; [intros f; split
           |split; [intros fs; split|split; [discriminate|reflexivity]]].
    + discriminate.
    + intros [-> Hf]. apply scripts_hold_no_test in Hs. simpl in Hs.
      rewrite Hf in Hs. discriminate.
    + now intros [= <-].
    + now intros [-> _].
  - pose proof (Hexit _ _ He) as ->. rewrite He.
    split; [intros f; split
           |split; [intros fs; split
                   |split; [now intros c p [= <- _]|reflexivity]]].
    + discriminate.
    + intros [-> Hf]. rewrite (load_test _ Hf) in He. discriminate.
    + discriminate.
    + intros [_ Hs]. rewrite (load_scripts _ Hs) in He. discriminate.
Qed.

(** *** [choose] *)

Lemma chooseFrom_Some names : forall i arg j,
  chooseFrom names i arg = Some j ->
  i <= j < i + visitor.llen names
  /\ names !! Z.to_nat (j - i) = Some arg
  /\ forall k, (k < Z.to_nat (j - i))%nat -> names !! k <> Some arg.
Proof.
  unfold visitor.llen.
  induction names as [|file rest IH]; intros i arg j H; [discriminate|].
  simpl in H. destruct (String.eqb file arg) eqn:E.
  - injection H as <-. apply String.eqb_eq in E as ->.
    rewrite Z.sub_diag. simpl. repeat split; try lia.
  - apply IH in H as (Hr & Hj & Hfirst). apply String.eqb_neq in E.
    replace (Z.to_nat (j - i)) with (S (Z.to_nat (j - (i + 1)))) by lia.
    simpl length. repeat split; try lia; [exact Hj|].
    intros [|k] Hk; simpl; [congruence|]. apply Hfirst. lia.
Qed.

Lemma chooseFrom_None names : forall i arg,
  chooseFrom names i arg = None -> ~ In arg names.
Proof.
  induction names as [|file rest IH]; intros i arg H; [easy|].
  simpl in H. destruct (String.eqb file arg) eqn:E; [discriminate|].
  apply String.eqb_neq in E. intros [Hin|Hin]; [congruence|].
  now apply IH in H.
Qed.

(** X16.  [choose] leaves a current script there is: the index it sets is
    that of the first script of the name asked for, and without exactly one
    argument, or for a name no script has, it changes nothing. *)
Theorem choose_keeps_current_script helper Args :
  0 <= CurrentScript helper < visitor.llen (ScriptNames helper) ->
  exists helper' printed,
    choose helper Args = Ret (helper', printed)
    /\ ScriptNames helper' = ScriptNames helper
    /\ 0 <= CurrentScript helper' < visitor.llen (ScriptNames helper)
    /\ (forall arg, Args = [arg] -> In arg (ScriptNames helper) ->
          ScriptNames helper !! Z.to_nat (CurrentScript helper') = Some arg
          /\ forall k, (k < Z.to_nat (CurrentScript helper'))%nat ->
                ScriptNames helper !! k <> Some arg)
    /\ (forall arg, Args = [arg] -> ~ In arg (ScriptNames helper) ->
          helper' = helper)
    /\ (length Args <> 1%nat -> helper' = helper).
Proof.
  intros Hcur. unfold choose.
  destruct Args as [|arg [|arg' more]].
  - exists helper. eexists. simpl. repeat split; auto; try lia; discriminate.
  - change (visitor.llen [arg] =? 1) with true. simpl negb. cbv iota.
    change (visitor.index [arg] 0) with (Ret arg).
    unfold mbind, Outcome_bind.
    destruct (chooseFrom (ScriptNames helper) 0 arg) as [i|] eqn:E.
    + apply chooseFrom_Some in E as (Hr & Hi & Hfirst).
      rewrite Z.sub_0_r in Hi, Hfirst.
      eexists. eexists. split; [reflexivity|]. simpl.
      split; [reflexivity|]. split; [lia|]. split; [|split].
      * intros a [= <-] _. split; assumption.
      * intros a [= <-] Hn. exfalso. apply Hn.
        eapply list_elem_of_In, list_elem_of_lookup_2, Hi.
      * intros Hlen. now elim Hlen.
    + apply chooseFrom_None in E.
      exists helper. eexists. split; [reflexivity|].
      split; [reflexivity|]. split; [lia|]. split; [|split].
      * intros a [= <-] Hin. contradiction.
      * reflexivity.
      * reflexivity.
  - exists helper. eexists.
    replace (visitor.llen (arg :: arg' :: more) =? 1) with false
      by (symmetry; apply Z.eqb_neq; unfold visitor.llen; simpl length; lia).
    simpl. repeat split; auto; try lia; discriminate.
Qed.

Lemma choose_keeps_current_script_witness :
  exists helper' printed,
    choose twoScripts ["b.nolol"] = Ret (helper', printed)
    /\ ScriptNames helper' = ScriptNames twoScripts
    /\ 0 <= CurrentScript helper' < visitor.llen (ScriptNames twoScripts)
    /\ (forall arg, ["b.nolol"] = [arg] -> In arg (ScriptNames twoScripts) ->
          ScriptNames twoScripts !! Z.to_nat (CurrentScript helper') = Some arg
          /\ forall k, (k < Z.to_nat (CurrentScript helper'))%nat ->
                ScriptNames twoScripts !! k <> Some arg)
    /\ (forall arg, ["b.nolol"] = [arg] -> ~ In arg (ScriptNames twoScripts) ->
          helper' = twoScripts)
    /\ (length ["b.nolol"] <> 1%nat -> helper' = twoScripts).
Proof.
  apply choose_keeps_current_script. unfold visitor.llen. simpl. lia.
Defined.

(** *** [scripts] *)

Lemma scriptsFrom_lookup names current : forall i k line,
  scriptsFrom names i current !! k = Some line
  <-> exists file,
        names !! k = Some file
        /\ line = (if i + Z.of_nat k =? current then "> " else "  ") +:+ file.
Proof.
  induction names as [|file rest IH]; intros i k line.
  - simpl. split; [discriminate|]. now intros (f & [=] & _).
  - destruct k as [|k]; simpl.
    + rewrite Z.add_0_r. split.
      * intros [= <-]. eauto.
      * now intros (f & [= <-] & ->).
    + rewrite IH.
      now replace (i + 1 + Z.of_nat k) with (i + Z.pos (Pos.of_succ_nat k))
        by lia.
Qed.

(** X17.  After [choose] with the name of a script, [scripts] prints the
    names of the scripts in order, each behind a mark of two characters, and
    the mark is [> ] on one line only: that of the first script of the name
    chosen. *)
Theorem choose_then_scripts helper arg :
  In arg (ScriptNames helper) ->
  exists helper' printed i,
    choose helper [arg] = Ret (helper', printed)
    /\ ScriptNames helper !! i = Some arg
    /\ (forall j, (j < i)%nat -> ScriptNames helper !! j <> Some arg)
    /\ forall k line,
         scripts helper' !! k = Some line
         <-> exists file,
               ScriptNames helper !! k = Some file
               /\ line = (if decide (k = i) then "> " else "  ") +:+ file.
Proof.
  intros Hin. unfold choose.
  change (visitor.llen [arg] =? 1) with true. simpl negb. cbv iota.
  change (visitor.index [arg] 0) with (Ret arg). unfold mbind, Outcome_bind.
  destruct (chooseFrom (ScriptNames helper) 0 arg) as [i|] eqn:E.
  2:{ apply chooseFrom_None in E. contradiction. }
  apply chooseFrom_Some in E as (Hr & Hi & Hfirst).
  rewrite Z.sub_0_r in Hi, Hfirst.
  eexists. eexists. exists (Z.to_nat i).
  split; [reflexivity|]. split; [exact Hi|]. split; [exact Hfirst|].
  intros k line. unfold scripts. simpl. rewrite scriptsFrom_lookup.
  rewrite Z.add_0_l.
  destruct (decide (k = Z.to_nat i)) as [->|Hk].
  - rewrite Z2Nat.id by lia. now rewrite Z.eqb_refl.
  - replace (Z.of_nat k =? i) with false; [reflexivity|].
    symmetry. apply Z.eqb_neq. lia.
Qed.

Lemma choose_then_scripts_witness :
  exists helper' printed i,
    choose twoScripts ["b.nolol"] = Ret (helper', printed)
    /\ ScriptNames twoScripts !! i = Some "b.nolol"
    /\ (forall j, (j < i)%nat -> ScriptNames twoScripts !! j <> Some "b.nolol")
    /\ forall k line,
         scripts helper' !! k = Some line
         <-> exists file,
               ScriptNames twoScripts !! k = Some file
               /\ line = (if decide (k = i) then "> " else "  ") +:+ file.
Proof.
  apply choose_then_scripts. simpl. auto.
Defined.

(** *** [list] *)

Lemma contains_In arr val : contains arr val = true <-> In val arr.
Proof.
  induction arr as [|e rest IH]; simpl; [easy|].
  destruct (e =? val) eqn:E.
  - apply Z.eqb_eq in E. tauto.
  - apply Z.eqb_neq in E. rewrite IH. split; [tauto|]. now intros [?|?].
Qed.

Lemma splitLines_nonempty s : splitLines s <> [].
Proof.
  destruct s as [|a s]; simpl; [discriminate|].
  destruct (Ascii.eqb a "010"); [discriminate|].
  destruct (splitLines s); discriminate.
Qed.

Lemma joinWith_splitLines s : joinWith newline (splitLines s) = s.
Proof.
  induction s as [|a s IH]; [reflexivity|]. simpl splitLines.
  pose proof (splitLines_nonempty s) as Hne.
  destruct (Ascii.eqb a "010") eqn:E.
  - apply Ascii.eqb_eq in E as ->.
    destruct (splitLines s) as [|first others]; [congruence|].
    change (joinWith newline ("" :: first :: others))
      with ("" +:+ newline +:+ joinWith newline (first :: others)).
    now rewrite IH.
  - destruct (splitLines s) as [|first [|second others]]; [congruence| |].
    + simpl in *. now rewrite IH.
    + change (joinWith newline (String a first :: second :: others))
        with (String a (first +:+ newline +:+ joinWith newline (second :: others))).
      now rewrite <- IH.
Qed.

Lemma substring_drop p : forall s,
  substring (String.length p) (String.length (p +:+ s) - String.length p) (p +:+ s)
  = s.
Proof.
  induction p as [|a p IH]; intros s; simpl.
  - rewrite Nat.sub_0_r. apply substring_whole.
  - apply IH.
Qed.

Lemma Sprintf3d_length n :
  1 <= n <= 999 -> String.length (Sprintf3d n) = 4%nat.
Proof.
  intros Hn.
  assert (Hall : forallb (fun k => Nat.eqb (String.length (Sprintf3d (Z.of_nat k))) 4)
                   (seq 1 999) = true) by (vm_compute; reflexivity).
  rewrite forallb_forall in Hall.
  specialize (Hall (Z.to_nat n)). rewrite Z2Nat.id in Hall by lia.
  apply Nat.eqb_eq, Hall, in_seq. lia.
Qed.

(** A printed line: the gutter of its line number, then the line. *)
Lemma listing_lookup current bps progLines : forall i k line,
  listing current bps progLines i !! k = Some line ->
  exists src,
    progLines !! k = Some src
    /\ line = (((if i + Z.of_nat k + 1 =? current then ">" else " ")
                +:+ (if contains bps (i + Z.of_nat k + 1) then "x" else " "))
               +:+ Sprintf3d (i + Z.of_nat k + 1)) +:+ src.
Proof.
  induction progLines as [|src rest IH]; intros i k line H; [discriminate|].
  destruct k as [|k]; simpl in H.
  - injection H as <-. exists src. split; [reflexivity|].
    now rewrite Z.add_0_r.
  - apply IH in H as (src' & Hsrc & ->). exists src'. split; [exact Hsrc|].
    now replace (i + 1 + Z.of_nat k + 1) with (i + Z.of_nat (S k) + 1) by lia.
Qed.

Lemma listing_dropGutter current bps progLines : forall i,
  0 <= i -> i + Z.of_nat (length progLines) <= 999 ->
  map dropGutter (listing current bps progLines i) = progLines.
Proof.
  induction progLines as [|src rest IH]; intros i Hi Hlen; [reflexivity|].
  simpl length in Hlen. simpl. rewrite IH by lia. f_equal.
  unfold dropGutter.
  set (pfx := ((if i + 1 =? current then ">" else " ")
               +:+ (if contains bps (i + 1) then "x" else " "))
              +:+ Sprintf3d (i + 1)).
  assert (Hpfx : String.length pfx = 6%nat).
  { unfold pfx. rewrite !length_append_string, Sprintf3d_length by lia.
    now destruct (i + 1 =? current), (contains bps (i + 1)). }
  rewrite <- Hpfx. apply substring_drop.
Qed.

(** X18.  The listing shows the script as it is: under a thousand lines,
    every printed line is a gutter of six characters and then the line of
    the script, so that the lines without the gutter, joined by newlines,
    are the script; the first character of the gutter is [>] on the current
    line and on no other, the second is [x] on the lines with a break point
    and on no other. *)
Theorem listing_shows_the_script current bps script :
  (length (splitLines script) < 1000)%nat ->
  joinWith newline (map dropGutter (listing current bps (splitLines script) 0))
  = script
  /\ forall k line,
      listing current bps (splitLines script) 0 !! k = Some line ->
      (String.get 0 line = Some ">"%char <-> Z.of_nat k + 1 = current)
      /\ (String.get 1 line = Some "x"%char <-> In (Z.of_nat k + 1) bps).
Proof.
  intros Hlen. split.
  - rewrite listing_dropGutter by lia. apply joinWith_splitLines.
  - intros k line H. apply listing_lookup in H as (src & _ & ->).
    rewrite Z.add_0_l, <- contains_In.
    destruct (Z.of_nat k + 1 =? current) eqn:Ec,
             (contains bps (Z.of_nat k + 1)) eqn:Eb; simpl;
      (apply Z.eqb_eq in Ec || apply Z.eqb_neq in Ec);
      split; split; intros H; try reflexivity; try assumption;
      try discriminate; try congruence.
Qed.

Lemma listing_shows_the_script_witness :
  joinWith newline (map dropGutter (listing 2 [1] (splitLines twoLines) 0))
  = twoLines
  /\ forall k line,
      listing 2 [1] (splitLines twoLines) 0 !! k = Some line ->
      (String.get 0 line = Some ">"%char <-> Z.of_nat k + 1 = 2)
      /\ (String.get 1 line = Some "x"%char <-> In (Z.of_nat k + 1) [1]).
Proof.
  apply listing_shows_the_script. vm_compute. lia.
Defined.

(** *** [sortVariables] *)

(** The order of strings. *)
Lemma ascii_compare_refl a : Ascii.compare a a = Eq.
Proof. unfold Ascii.compare. apply N.compare_refl. Qed.

Lemma ascii_compare_lt_trans a b c :
  Ascii.compare a b = Lt -> Ascii.compare b c = Lt -> Ascii.compare a c = Lt.
Proof.
  unfold Ascii.compare. rewrite !N.compare_lt_iff. apply N.lt_trans.
Qed.

Lemma string_compare_refl s : String.compare s s = Eq.
Proof.
  induction s as [|a s IH]; simpl; [reflexivity|].
  now rewrite ascii_compare_refl.
Qed.

Lemma string_compare_lt_trans a : forall b c,
  String.compare a b = Lt -> String.compare b c = Lt -> String.compare a c = Lt.
Proof.
  induction a as [|x a IH]; intros [|y b] [|z c]; simpl; try easy.
  destruct (Ascii.compare x y) eqn:Exy; try easy;
    destruct (Ascii.compare y z) eqn:Eyz; try easy.
  - apply Ascii.compare_eq_iff in Exy as ->, Eyz as ->.
    rewrite ascii_compare_refl. apply IH.
  - apply Ascii.compare_eq_iff in Exy as ->. now rewrite Eyz.
  - apply Ascii.compare_eq_iff in Eyz as <-. now rewrite Exy.
  - now rewrite (ascii_compare_lt_trans _ _ _ Exy Eyz).
Qed.

Lemma ltb_irrefl s : String.ltb s s = false.
Proof. unfold String.ltb. now rewrite string_compare_refl. Qed.

Lemma ltb_trans a b c :
  String.ltb a b = true -> String.ltb b c = true -> String.ltb a c = true.
Proof.
  unfold String.ltb.
  destruct (String.compare a b) eqn:Eab; try easy.
  destruct (String.compare b c) eqn:Ebc; try easy.
  now rewrite (string_compare_lt_trans _ _ _ Eab Ebc).
Qed.

(** Two strings are equal, or one is less than the other. *)
Lemma ltb_total a b : String.ltb a b = false -> a = b \/ String.ltb b a = true.
Proof.
  unfold String.ltb. rewrite (String.compare_antisym a b).
  destruct (String.compare b a) eqn:E; simpl; try easy.
  - left. symmetry. now apply String.compare_eq_iff.
  - now right.
Qed.

Lemma byName_strictWeak {V} : strictWeak (@byName V).
Proof.
  unfold byName. split; [|split].
  - intros a. apply ltb_irrefl.
  - intros a b c. apply ltb_trans.
  - intros a b c Hab Hbc.
    destruct (String.ltb (name a) (name c)) eqn:Hac; [|reflexivity].
    apply ltb_total in Hab as [Hab|Hab], Hbc as [Hbc|Hbc].
    + rewrite Hab, Hbc, ltb_irrefl in Hac. discriminate.
    + rewrite Hab in Hac. pose proof (ltb_trans _ _ _ Hac Hbc) as H.
      rewrite ltb_irrefl in H. discriminate.
    + rewrite <- Hbc in Hac. pose proof (ltb_trans _ _ _ Hab Hac) as H.
      rewrite ltb_irrefl in H. discriminate.
    + pose proof (ltb_trans _ _ _ (ltb_trans _ _ _ Hac Hbc) Hab) as H.
      rewrite ltb_irrefl in H. discriminate.
Qed.

(** The slice [sortVariables] builds before it sorts. *)
Lemma collected_eq {V} (entries : list (string * V)) : forall acc,
  foldl (fun sorted '(k, v) => sorted ++ [mkNamedVariable k v]) acc entries
  = acc ++ map (fun '(k, v) => mkNamedVariable k v) entries.
Proof.
  induction entries as [|[k v] rest IH]; intros acc; simpl.
  - now rewrite app_nil_r.
  - now rewrite IH, <- app_assoc.
Qed.

(** Two lists in strictly ascending order of names that hold the same
    elements are the same list. *)
Lemma ascending_unique {V} (l1 : list (namedVariable V)) : forall l2,
  ordered (fun a b => String.ltb (name a) (name b) = true) l1 ->
  ordered (fun a b => String.ltb (name a) (name b) = true) l2 ->
  (forall x, In x l1 <-> In x l2) ->
  l1 = l2.
Proof.
  induction l1 as [|a l1 IH]; intros l2 H1 H2 Hsame.
  - destruct l2 as [|b l2]; [reflexivity|].
    destruct (proj2 (Hsame b)). now left.
  - destruct l2 as [|b l2]; [destruct (proj1 (Hsame a)); now left|].
    inversion H1 as [|? ? Ha H1']; subst. inversion H2 as [|? ? Hb H2']; subst.
    rewrite Forall_forall in Ha, Hb.
    assert (a = b) as <-.
    { destruct (proj1 (Hsame a) ltac:(now left)) as [Heq|Hin]; [now symmetry|].
      destruct (proj2 (Hsame b) ltac:(now left)) as [Heq|Hin']; [assumption|].
      apply list_elem_of_In in Hin, Hin'.
      pose proof (ltb_trans _ _ _ (Ha _ Hin') (Hb _ Hin)) as H.
      rewrite ltb_irrefl in H. discriminate. }
    f_equal. apply IH; auto.
    intros x. split; intros Hx.
    + destruct (proj1 (Hsame x) ltac:(now right)) as [<-|H]; [|exact H].
      apply list_elem_of_In, Ha in Hx. rewrite ltb_irrefl in Hx. discriminate.
    + destruct (proj2 (Hsame x) ltac:(now right)) as [<-|H]; [|exact H].
      apply list_elem_of_In, Hb in Hx. rewrite ltb_irrefl in Hx. discriminate.
Qed.

Section Sorted.

Context {V : Type}.
Variable rangeOf : gmap string V -> list (string * V).
Variable sortSlice :
  (namedVariable V -> namedVariable V -> bool) ->
  list (namedVariable V) -> list (namedVariable V).
Hypothesis range_ok : ranges rangeOf.
Hypothesis sort_ok : sorts sortSlice.

Lemma sortVariables_perm vars :
  sortVariables rangeOf sortSlice vars
  ≡ₚ map (fun '(k, v) => mkNamedVariable k v) (map_to_list vars).
Proof.
  unfold sortVariables. rewrite collected_eq. simpl.
  rewrite (proj1 (sort_ok _ _)). now rewrite (range_ok vars).
Qed.

Lemma sortVariables_In vars k v :
  In (mkNamedVariable k v) (sortVariables rangeOf sortSlice vars)
  <-> vars !! k = Some v.
Proof.
  rewrite <- list_elem_of_In, sortVariables_perm, list_elem_of_fmap.
  split.
  - intros ([k' v'] & [= -> ->] & Hin). now apply elem_of_map_to_list.
  - intros H. exists (k, v). split; [reflexivity|].
    now apply elem_of_map_to_list.
Qed.

Lemma sortVariables_names vars :
  NoDup (map name (sortVariables rangeOf sortSlice vars)).
Proof.
  rewrite sortVariables_perm.
  replace (map name (map (fun '(k, v) => mkNamedVariable k v) (map_to_list vars)))
    with (map fst (map_to_list vars)).
  - apply NoDup_fst_map_to_list.
  - rewrite List.map_map. apply List.map_ext. now intros [k v].
Qed.

Lemma sortVariables_ascending vars :
  ordered (fun a b => String.ltb (name a) (name b) = true)
    (sortVariables rangeOf sortSlice vars).
Proof.
  pose proof (sortVariables_names vars) as Hnd.
  assert (Hord : ordered (fun a b => byName b a = false)
                   (sortVariables rangeOf sortSlice vars)).
  { unfold sortVariables. apply (proj2 (sort_ok _ _)), byName_strictWeak. }
  induction Hord as [|a l Ha _ IH]; constructor.
  - simpl in Hnd. apply NoDup_cons in Hnd as [Hnotin _].
    rewrite Forall_forall in *. intros b Hb. specialize (Ha b Hb).
    apply ltb_total in Ha as [Heq|Hlt]; [|exact Hlt].
    exfalso. apply Hnotin. rewrite <- Heq.
    apply list_elem_of_fmap. now exists b.
  - apply IH. simpl in Hnd. now apply NoDup_cons in Hnd.
Qed.

End Sorted.

(** Insertion sort does what [sort.Slice] is documented to do. *)
Lemma insertSorted_perm {A} (less : A -> A -> bool) x l :
  insertSorted less x l ≡ₚ x :: l.
Proof.
  induction l as [|y rest IH]; simpl; [reflexivity|].
  destruct (less x y); [reflexivity|]. rewrite IH. apply Permutation_swap.
Qed.

Lemma insertSorted_ordered {A} (less : A -> A -> bool) x l :
  strictWeak less ->
  ordered (fun a b => less b a = false) l ->
  ordered (fun a b => less b a = false) (insertSorted less x l).
Proof.
  intros (Hirr & Htrans & Hneg) H.
  induction H as [|y rest Hy Hrest IH]; simpl.
  - constructor; constructor.
  - destruct (less x y) eqn:Exy.
    + assert (Hyx : less y x = false).
      { destruct (less y x) eqn:E; [|reflexivity].
        now rewrite <- (Hirr x), (Htrans _ _ _ Exy E). }
      constructor; [|now constructor].
      constructor; [exact Hyx|].
      eapply Forall_impl; [exact Hy|]. intros z Hz. simpl in Hz.
      now apply (Hneg z y x).
    + constructor; [|exact IH].
      rewrite insertSorted_perm. now constructor.
Qed.

Lemma insertionSort_sorts {A} : sorts (@insertionSort A).
Proof.
  intros less l. unfold insertionSort. split.
  - induction l as [|x l IH]; simpl; [reflexivity|].
    now rewrite insertSorted_perm, IH.
  - intros Hless. induction l as [|x l IH]; simpl; [constructor|].
    now apply insertSorted_ordered.
Qed.

Lemma map_to_list_ranges {V} : ranges (@map_to_list string V _ _).
Proof. now intros m. Qed.

Lemma reverse_ranges {V} :
  ranges (fun m : gmap string V => reverse (map_to_list m)).
Proof. intros m. apply reverse_Permutation. Qed.

(** X19.  [sortVariables] returns the variables of the map in strictly
    ascending order of their names, each entry of the map once and nothing
    else. *)
Theorem sortVariables_sorted {V} rangeOf sortSlice (vars : gmap string V) :
  ranges rangeOf -> sorts sortSlice ->
  ordered (fun a b => String.ltb (name a) (name b) = true)
    (sortVariables rangeOf sortSlice vars)
  /\ (forall k v,
        In (mkNamedVariable k v) (sortVariables rangeOf sortSlice vars)
        <-> vars !! k = Some v)
  /\ length (sortVariables rangeOf sortSlice vars) = size vars.
Proof.
  intros Hrange Hsort. split; [|split].
  - now apply sortVariables_ascending.
  - intros k v. now apply sortVariables_In.
  - rewrite (sortVariables_perm _ _ Hrange Hsort), length_map.
    apply length_map_to_list.
Qed.

(** X20.  The order [sortVariables] returns does not depend on the order in
    which the runtime hands out the entries of the map, nor on the sort
    used: any two runs on the same map return the same list. *)
Theorem sortVariables_is_deterministic {V} range1 sort1 range2 sort2
  (vars : gmap string V) :
  ranges range1 -> sorts sort1 -> ranges range2 -> sorts sort2 ->
  sortVariables range1 sort1 vars = sortVariables range2 sort2 vars.
Proof.
  intros Hr1 Hs1 Hr2 Hs2. apply ascending_unique.
  - now apply sortVariables_ascending.
  - now apply sortVariables_ascending.
  - intros [k v]. now rewrite !sortVariables_In.
Qed.

Lemma sortVariables_sorted_witness :
  ordered (fun a b => String.ltb (name a) (name b) = true)
    (sortVariables map_to_list insertionSort someVars)
  /\ (forall k v,
        In (mkNamedVariable k v) (sortVariables map_to_list insertionSort someVars)
        <-> someVars !! k = Some v)
  /\ length (sortVariables map_to_list insertionSort someVars) = size someVars.
Proof.
  apply sortVariables_sorted;
    [exact map_to_list_ranges|exact insertionSort_sorts].
Defined.

Lemma sortVariables_is_deterministic_witness :
  sortVariables map_to_list insertionSort someVars
  = sortVariables (fun m => reverse (map_to_list m)) insertionSort someVars.
Proof.
  apply sortVariables_is_deterministic;
    [exact map_to_list_ranges|exact insertionSort_sorts
    |exact reverse_ranges|exact insertionSort_sorts].
Defined.

End DebuggerFacts.
